(** * bifsi: big fixed size unsigned integers (bifsi.h)

    A shallow embedding of the header-only library [bifsi.h] and the
    verification of its arithmetic against the mathematical value
    [sum_i el[i] * 2^(32 i)] of a limb array.

    Conventions of the embedding.
    - A native integer is a [Z] together with its C++ type ([int_type]);
      every conversion and every wrap-around of the source is written out
      ([static_cast]).
    - An object of class [bui<SIZE_IN_BITS>] is its member array [el], a
      [list Z] whose length is [SIZE_IN_ELS]; a method is a function of
      the object state [this] that returns the new state (and the returned
      value when there is one).
    - A failing [assert] and a write past the end of a local buffer are
      outcomes of their own ([AssertionFailed], [OutOfBounds]).
    - [for] loops over limb indices are the iterators [for_up] and
      [for_down]; local variables of a loop are threaded as loop state. *)

From Stdlib Require Import ZArith List Lia Bool Ascii.
From Stdlib Require String.
Import String.StringSyntax.
Delimit Scope string_scope with string.
From Stdlib Require Import Floats.SpecFloat.
Import ListNotations.
Local Open Scope Z_scope.

(* ================================================================= *)
(** ** Native integer types *)

Inductive int_type : Set :=
| int8_t | int16_t | int32_t | int64_t
| uint8_t | uint16_t | uint32_t | uint64_t.

(** [sizeof(T)] in bytes. *)
Definition sizeof (T : int_type) : nat :=
  match T with
  | int8_t | uint8_t => 1
  | int16_t | uint16_t => 2
  | int32_t | uint32_t => 4
  | int64_t | uint64_t => 8
  end.

Definition is_unsigned_v (T : int_type) : bool :=
  match T with
  | uint8_t | uint16_t | uint32_t | uint64_t => true
  | _ => false
  end.

Definition make_unsigned_t (T : int_type) : int_type :=
  match T with
  | int8_t | uint8_t => uint8_t
  | int16_t | uint16_t => uint16_t
  | int32_t | uint32_t => uint32_t
  | int64_t | uint64_t => uint64_t
  end.

(** Width of a native type in bits. *)
Definition width (T : int_type) : Z := Z.of_nat (sizeof T) * 8.

(** The values a native type can hold. *)
Definition representable (T : int_type) (z : Z) : Prop :=
  if is_unsigned_v T
  then 0 <= z < 2 ^ width T
  else - 2 ^ (width T - 1) <= z < 2 ^ (width T - 1).

(** Conversion of a mathematical integer to a native type: reduction
    modulo [2^width], read as two's complement for a signed target. *)
Definition static_cast (T : int_type) (z : Z) : Z :=
  if is_unsigned_v T
  then z mod 2 ^ width T
  else (z + 2 ^ (width T - 1)) mod 2 ^ width T - 2 ^ (width T - 1).

(** Integral promotion: operands narrower than [int] are computed in [int]. *)
Definition promoted (T : int_type) : int_type :=
  if (sizeof T <? sizeof int32_t)%nat then int32_t else T.

(** The expression [-b] for [b] of type [T], as [operator+=] and
    [operator-=] write it before the conversion to the unsigned type.  The
    negation of the most negative [int] or [long] does not fit its type
    (a signed overflow); the embedding gives it the two's complement
    result, from which that conversion yields the magnitude of [b]. *)
Definition unary_minus (T : int_type) (b : Z) : Z :=
  static_cast (promoted T) (- b).

(** [twice_size<T>]: the unsigned type twice as wide (the [__int128]
    entry of GNU compilers is not needed for [el_t = uint32_t]). *)
Definition twice_size (T : int_type) : option int_type :=
  match T with
  | uint8_t => Some uint16_t
  | uint16_t => Some uint32_t
  | uint32_t => Some uint64_t
  | _ => None
  end.

(** [typedef uint32_t el_t;  typedef twice_size_t<el_t> tw_t;] *)
Definition el_t : int_type := uint32_t.
Definition tw_t : int_type := uint64_t.

Definition EL_SIZE_IN_BITS : Z := width el_t.
Definition TW_SIZE_IN_BITS : Z := width tw_t.

(** The radix of the limb representation. *)
Definition BASE : Z := 2 ^ EL_SIZE_IN_BITS.

(* ================================================================= *)
(** ** Outcomes of fallible code *)

Inductive outcome (A : Type) : Type :=
| Returns (a : A)
| AssertionFailed
| OutOfBounds.

Arguments Returns {A} a.
Arguments AssertionFailed {A}.
Arguments OutOfBounds {A}.

Definition bind {A B : Type} (m : outcome A) (k : A -> outcome B) : outcome B :=
  match m with
  | Returns a => k a
  | AssertionFailed => AssertionFailed
  | OutOfBounds => OutOfBounds
  end.

Notation "x <- m ;; k" := (bind m (fun x => k))
  (at level 61, m at next level, right associativity).
Notation "m ;;; k" := (bind m (fun _ => k))
  (at level 61, right associativity).

(** [assert(cond)]; assertions are enabled (the source defines no
    [NDEBUG]). *)
Definition assert (cond : bool) : outcome unit :=
  if cond then Returns tt else AssertionFailed.

(* ================================================================= *)
(** ** Loops *)

(** [for (size_t i = lo; i < lo + count; i++) body] *)
Fixpoint for_up {St : Type} (lo count : nat) (body : nat -> St -> St) (s : St) : St :=
  match count with
  | O => s
  | S c => for_up (S lo) c body (body lo s)
  end.

(** [for (size_t i = n - 1; i != (size_t) -1; i--) body], also written
    [for (size_t i = n - 1; i < n; i--)] in the source. *)
Fixpoint for_down {St : Type} (n : nat) (body : nat -> St -> St) (s : St) : St :=
  match n with
  | O => s
  | S m => for_down m body (body m s)
  end.

(* ================================================================= *)
(** ** Free functions of namespace bifsi *)

(** *** Binary64 arithmetic of [ceil_constexpr] and [MAX_DIGITS] *)

Definition double : Set := spec_float.
Definition double_mul : double -> double -> double := SFmul 53 1024.
Definition double_eqb : double -> double -> bool := SFeqb.
Definition double_ltb : double -> double -> bool := SFltb.

(** Conversion of an integer to [double] (round to nearest even). *)
Definition to_double (z : Z) : double := binary_normalize 53 1024 z 0 false.

(** [static_cast<int32_t>(d)]: truncation toward zero.  Outside the range
    of [int32_t] the conversion is undefined in the source; the sizes
    considered here stay far below it. *)
Definition double_to_int32 (d : double) : Z :=
  match d with
  | S754_finite s m e =>
      let mag := if 0 <=? e then Z.pos m * 2 ^ e else Z.pos m / 2 ^ (- e) in
      if s then - mag else mag
  | _ => 0
  end.

(** [constexpr double LOG_BASE10_2 = 0.301029995663981195;] the literal
    denotes the nearest binary64 value, [0x1.34413509f79ffp-2]. *)
Definition LOG_BASE10_2 : double := S754_finite false 5422874305198591 (-54).

Definition ceil_constexpr (d : double) : Z :=
  let i := double_to_int32 d in
  if double_eqb (to_double i) d then i
  else i + (if double_ltb (S754_zero false) d then 1 else 0).

(** *** Leading zeros and bit length of a native value *)

(** The compiler intrinsics [__builtin_clz] (on [unsigned int]) and
    [__builtin_clzl] (on [unsigned long], 64 bits): the number of zero bits
    above the highest set bit.  Their result for [0] is undefined; the
    scan below then yields the width. *)
Fixpoint clz_scan (k : nat) (x : Z) : Z :=
  match k with
  | O => 0
  | S k' => if Z.testbit x (Z.of_nat k') then 0 else 1 + clz_scan k' x
  end.

Definition builtin_clz (x : Z) : Z := clz_scan 32 x.
Definition builtin_clzl (x : Z) : Z := clz_scan 64 x.

Definition wrapped_builtin_clz (INT_T : int_type) (x : Z) : Z :=
  if (sizeof INT_T =? 1)%nat then builtin_clz (static_cast uint32_t x) - 24
  else if (sizeof INT_T =? 2)%nat then builtin_clz (static_cast uint32_t x) - 16
  else if (sizeof INT_T =? 4)%nat then builtin_clz (static_cast uint32_t x)
  else builtin_clzl (static_cast uint64_t x).

Definition number_of_leading_0_bits (INT_T : int_type) (x : Z) : Z :=
  if x =? 0 then Z.of_nat (sizeof INT_T) * 8 else wrapped_builtin_clz INT_T x.

Definition bitlen (INT_T : int_type) (x : Z) : Z :=
  if x =? 0 then Z.of_nat (sizeof INT_T) * 8
  else Z.of_nat (sizeof INT_T) * 8 - wrapped_builtin_clz INT_T x.

(** [assert_unsigned_int_type<UINT_T>()]: the unsignedness check is a
    run-time [assert]. *)
Definition assert_unsigned_int_type (UINT_T : int_type) : outcome unit :=
  assert (is_unsigned_v UINT_T).

(* ================================================================= *)
(** ** class bui<SIZE_IN_BITS> *)

(** The object state: the array [el_t el[SIZE_IN_ELS]], least significant
    limb first. *)
Abbreviation bui := (list Z).

Definition SIZE_IN_ELS (this : bui) : nat := length this.
Definition SIZE_IN_BITS (this : bui) : Z := Z.of_nat (SIZE_IN_ELS this) * EL_SIZE_IN_BITS.

(** [el[i]] read and written.  Every index the methods use is below
    [SIZE_IN_ELS]; outside the array the read gives [0] and the write does
    nothing (the source has undefined behaviour there). *)
Definition el_at (this : bui) (i : nat) : Z := nth i this 0.

Fixpoint el_upd (this : bui) (i : nat) (v : Z) : bui :=
  match this, i with
  | [], _ => []
  | _ :: t, O => v :: t
  | x :: t, S j => x :: el_upd t j v
  end.

(** The value of a native comparison as an [el_t] (0 or 1). *)
Definition b2z (c : bool) : Z := if c then 1 else 0.

Definition to_el_t (this : bui) : Z := el_at this 0.

Definition to_tw_t (this : bui) : Z :=
  if (SIZE_IN_ELS this =? 1)%nat then el_at this 0
  else Z.lor (el_at this 0)
             (static_cast tw_t (Z.shiftl (static_cast tw_t (el_at this 1)) EL_SIZE_IN_BITS)).

(** [set_zero_starting_at_el<START_EL_IDX>()] *)
Definition set_zero_starting_at_el (START_EL_IDX : nat) (this : bui) : bui :=
  for_up START_EL_IDX (SIZE_IN_ELS this - START_EL_IDX)
         (fun i el => el_upd el i 0) this.

Definition set_zero (this : bui) : bui := set_zero_starting_at_el 0 this.

(** [is_zero_starting_at_el<START_EL_IDX>()] *)
Definition is_zero_starting_at_el (START_EL_IDX : nat) (this : bui) : bool :=
  for_up START_EL_IDX (SIZE_IN_ELS this - START_EL_IDX)
         (fun i result => result && (el_at this i =? 0)) true.

(** [is_nonzero_starting_at_el<START_EL_IDX>()] *)
Definition is_nonzero_starting_at_el (START_EL_IDX : nat) (this : bui) : bool :=
  for_up START_EL_IDX (SIZE_IN_ELS this - START_EL_IDX)
         (fun i result => result || negb (el_at this i =? 0)) false.

Definition is_zero (this : bui) : bool := is_zero_starting_at_el 0 this.
Definition is_nonzero (this : bui) : bool := is_nonzero_starting_at_el 0 this.

(** [el[0] | ((UINT_T) el[1] << 1 * EL_SIZE_IN_BITS) | ...] over the [k]
    lowest limbs, computed in [UINT_T]. *)
Fixpoint or_limbs (UINT_T : int_type) (this : bui) (k : nat) : Z :=
  match k with
  | O => 0
  | S j =>
      Z.lor (or_limbs UINT_T this j)
            (static_cast UINT_T
               (Z.shiftl (static_cast UINT_T (el_at this j)) (Z.of_nat j * EL_SIZE_IN_BITS)))
  end.

(** [as_uint<UINT_T>()] *)
Definition as_uint (UINT_T : int_type) (this : bui) : outcome Z :=
  assert_unsigned_int_type UINT_T ;;;
  let n := SIZE_IN_ELS this in
  if ((sizeof UINT_T <=? 1 * sizeof el_t) || (n =? 1))%nat then
    Returns (static_cast UINT_T (el_at this 0))
  else if ((sizeof UINT_T <=? 2 * sizeof el_t) || (n =? 2))%nat then
    Returns (or_limbs UINT_T this 2)
  else if ((sizeof UINT_T <=? 4 * sizeof el_t) || (n <=? 4))%nat then
    Returns (or_limbs UINT_T this (if (n =? 3)%nat then 3 else 4))
  else
    Returns (or_limbs UINT_T this
               (if (n =? 5)%nat then 5 else if (n =? 6)%nat then 6
                else if (n =? 7)%nat then 7 else 8)).

(** *** Comparison with an unsigned native value *)

(** The shared shape of the six [operator_xx_uint] methods: the low limbs
    are compared with [b] by [cmp] and the limbs above are folded in by
    [high]. *)
Definition compare_uint (cmp : Z -> Z -> bool)
  (high : bool -> nat -> bui -> bool)
  (UINT_T : int_type) (b : Z) (this : bui) : outcome bool :=
  assert_unsigned_int_type UINT_T ;;;
  if (sizeof UINT_T <=? sizeof el_t)%nat then
    assert (sizeof el_t mod sizeof UINT_T =? 0)%nat ;;;
    let result := cmp (to_el_t this) (static_cast el_t b) in
    Returns (high result 1%nat this)
  else
    assert (sizeof UINT_T mod sizeof el_t =? 0)%nat ;;;
    x <- as_uint UINT_T this ;;
    let result := cmp x b in
    Returns (high result (sizeof UINT_T / sizeof el_t)%nat this).

(** [result |= is_nonzero_starting_at_el<START>()] and
    [result &= is_zero_starting_at_el<START>()] *)
Definition or_nonzero_above (result : bool) (START : nat) (this : bui) : bool :=
  result || is_nonzero_starting_at_el START this.
Definition and_zero_above (result : bool) (START : nat) (this : bui) : bool :=
  result && is_zero_starting_at_el START this.

Definition operator_neq_uint := compare_uint (fun x y => negb (x =? y)) or_nonzero_above.
Definition operator_eq_uint := compare_uint Z.eqb and_zero_above.
Definition operator_lt_uint := compare_uint Z.ltb and_zero_above.
Definition operator_gt_uint := compare_uint Z.gtb or_nonzero_above.
Definition operator_leq_uint := compare_uint Z.leb and_zero_above.
Definition operator_geq_uint := compare_uint Z.geb or_nonzero_above.

(** *** Addition and subtraction of an unsigned native value *)

(** The [i]-th limb slice of the operand: [(el_t) (b >> i * EL_SIZE_IN_BITS)]. *)
Definition limb_slice (b : Z) (i : nat) : Z :=
  static_cast el_t (Z.shiftr b (Z.of_nat i * EL_SIZE_IN_BITS)).

(** Body of the first loop of [operator_pluseq_uint]; the loop state is
    the array and [carry]. *)
Definition pluseq_absorb (b : Z) (i : nat) (s : bui * Z) : bui * Z :=
  let '(el, carry) := s in
  let el := el_upd el i (static_cast el_t (el_at el i + carry)) in
  let carry := b2z (el_at el i <? carry) in
  let b_i := limb_slice b i in
  let el := el_upd el i (static_cast el_t (el_at el i + b_i)) in
  let carry := Z.lor carry (b2z (el_at el i <? b_i)) in
  (el, carry).

(** Body of the second loop of [operator_pluseq_uint]. *)
Definition pluseq_propagate (i : nat) (s : bui * Z) : bui * Z :=
  let '(el, carry) := s in
  let el := el_upd el i (static_cast el_t (el_at el i + carry)) in
  let carry := b2z (el_at el i <? carry) in
  (el, carry).

(** [operator_pluseq_uint] once [sizeof(UINT_T) >= sizeof(el_t)]. *)
Definition pluseq_uint_limbs (UINT_T : int_type) (b : Z) (this : bui) : outcome bui :=
  assert_unsigned_int_type UINT_T ;;;
  assert (sizeof UINT_T mod sizeof el_t =? 0)%nat ;;;
  let B_EL_COUNT := Nat.min (sizeof UINT_T / sizeof el_t) (SIZE_IN_ELS this) in
  let carry := 0 in
  let s := for_up 0 B_EL_COUNT (pluseq_absorb b) (this, carry) in
  let s := for_up B_EL_COUNT (SIZE_IN_ELS this - B_EL_COUNT) pluseq_propagate s in
  Returns (fst s).

(** [operator_pluseq_uint<UINT_T>(b)]: a narrow operand re-enters the
    method as an [el_t]. *)
Definition operator_pluseq_uint (UINT_T : int_type) (b : Z) (this : bui) : outcome bui :=
  assert_unsigned_int_type UINT_T ;;;
  if (sizeof UINT_T <? sizeof el_t)%nat
  then pluseq_uint_limbs el_t (static_cast el_t b) this
  else pluseq_uint_limbs UINT_T b this.

(** Body of the first loop of [operator_minuseq_uint]. *)
Definition minuseq_absorb (b : Z) (i : nat) (s : bui * Z) : bui * Z :=
  let '(el, carry) := s in
  let el_i_before := el_at el i in
  let el := el_upd el i (static_cast el_t (el_at el i - carry)) in
  let carry := b2z (el_at el i >? el_i_before) in
  let b_i := limb_slice b i in
  let el_i_before := el_at el i in
  let el := el_upd el i (static_cast el_t (el_at el i - b_i)) in
  let carry := Z.lor carry (b2z (el_at el i >? el_i_before)) in
  (el, carry).

(** Body of the second loop of [operator_minuseq_uint]. *)
Definition minuseq_propagate (i : nat) (s : bui * Z) : bui * Z :=
  let '(el, carry) := s in
  let el_i_before := el_at el i in
  let el := el_upd el i (static_cast el_t (el_at el i - carry)) in
  let carry := b2z (el_at el i >? el_i_before) in
  (el, carry).

Definition minuseq_uint_limbs (UINT_T : int_type) (b : Z) (this : bui) : outcome bui :=
  assert_unsigned_int_type UINT_T ;;;
  assert (sizeof UINT_T mod sizeof el_t =? 0)%nat ;;;
  let B_EL_COUNT := Nat.min (sizeof UINT_T / sizeof el_t) (SIZE_IN_ELS this) in
  let carry := 0 in
  let s := for_up 0 B_EL_COUNT (minuseq_absorb b) (this, carry) in
  let s := for_up B_EL_COUNT (SIZE_IN_ELS this - B_EL_COUNT) minuseq_propagate s in
  Returns (fst s).

Definition operator_minuseq_uint (UINT_T : int_type) (b : Z) (this : bui) : outcome bui :=
  assert_unsigned_int_type UINT_T ;;;
  if (sizeof UINT_T <? sizeof el_t)%nat
  then minuseq_uint_limbs el_t (static_cast el_t b) this
  else minuseq_uint_limbs UINT_T b this.

(** *** Multiplication by an unsigned native value *)

(** Loop body for [sizeof(UINT_T) == sizeof(el_t)]; the loop state is the
    array and the accumulator [tw]. *)
Definition muleq_step1 (b : Z) (i : nat) (s : bui * Z) : bui * Z :=
  let '(el, tw) := s in
  let tw := static_cast tw_t (tw + static_cast tw_t (static_cast tw_t (el_at el i) * b)) in
  let el := el_upd el i (static_cast el_t tw) in
  let tw := Z.shiftr tw EL_SIZE_IN_BITS in
  (el, tw).

(** Loop body for [sizeof(UINT_T) > sizeof(el_t)]; the loop state is the
    array, [ui] and [tw]. *)
Definition muleq_step2 (UINT_T : int_type) (b_0 b_upper : Z) (i : nat)
  (s : bui * Z * Z) : bui * Z * Z :=
  let '(el, ui, tw) := s in
  let tw := static_cast tw_t (tw + static_cast tw_t (static_cast tw_t b_0 * el_at el i)) in
  let el := el_upd el i (static_cast el_t tw) in
  let tw := Z.shiftr tw EL_SIZE_IN_BITS in
  let ui := static_cast UINT_T (ui + static_cast UINT_T (b_upper * el_at el i)) in
  let tw := static_cast tw_t (tw + static_cast el_t ui) in
  let ui := Z.shiftr ui EL_SIZE_IN_BITS in
  (el, ui, tw).

Definition muleq_uint_limbs (UINT_T : int_type) (b : Z) (this : bui) : outcome bui :=
  assert_unsigned_int_type UINT_T ;;;
  assert (sizeof UINT_T mod sizeof el_t =? 0)%nat ;;;
  if (sizeof UINT_T =? sizeof el_t)%nat then
    let tw := 0 in
    Returns (fst (for_up 0 (SIZE_IN_ELS this) (muleq_step1 b) (this, tw)))
  else
    let b_0 := static_cast el_t b in
    let b_upper := Z.shiftr b EL_SIZE_IN_BITS in
    let ui := 0 in
    let tw := 0 in
    Returns (fst (fst (for_up 0 (SIZE_IN_ELS this) (muleq_step2 UINT_T b_0 b_upper)
                              (this, ui, tw)))).

Definition operator_muleq_uint (UINT_T : int_type) (b : Z) (this : bui) : outcome bui :=
  assert_unsigned_int_type UINT_T ;;;
  if (sizeof UINT_T <? sizeof el_t)%nat
  then muleq_uint_limbs el_t (static_cast el_t b) this
  else muleq_uint_limbs UINT_T b this.

(** *** Public comparison operators *)

Definition operator_neq (INT_T : int_type) (b : Z) (this : bui) : outcome bool :=
  if is_unsigned_v INT_T then
    let bu := static_cast (make_unsigned_t INT_T) b in
    operator_neq_uint (make_unsigned_t INT_T) bu this
  else
    let bu := static_cast (make_unsigned_t INT_T) b in
    r <- operator_neq_uint (make_unsigned_t INT_T) bu this ;;
    Returns ((b <? 0) || r).

Definition operator_eq (INT_T : int_type) (b : Z) (this : bui) : outcome bool :=
  if is_unsigned_v INT_T then operator_eq_uint INT_T b this
  else
    let bu := static_cast (make_unsigned_t INT_T) b in
    r <- operator_eq_uint (make_unsigned_t INT_T) bu this ;;
    Returns ((b >=? 0) && r).

(** The four ordering operators hand [b] to the [_uint] method in its own
    type [INT_T]. *)
Definition operator_gt (INT_T : int_type) (b : Z) (this : bui) : outcome bool :=
  if is_unsigned_v INT_T then operator_gt_uint INT_T b this
  else r <- operator_gt_uint INT_T b this ;; Returns ((b <? 0) || r).

Definition operator_lt (INT_T : int_type) (b : Z) (this : bui) : outcome bool :=
  if is_unsigned_v INT_T then operator_lt_uint INT_T b this
  else r <- operator_lt_uint INT_T b this ;; Returns ((b >=? 0) && r).

Definition operator_geq (INT_T : int_type) (b : Z) (this : bui) : outcome bool :=
  if is_unsigned_v INT_T then operator_geq_uint INT_T b this
  else r <- operator_geq_uint INT_T b this ;; Returns ((b <? 0) || r).

Definition operator_leq (INT_T : int_type) (b : Z) (this : bui) : outcome bool :=
  if is_unsigned_v INT_T then operator_leq_uint INT_T b this
  else r <- operator_leq_uint INT_T b this ;; Returns ((b >=? 0) && r).

(** *** Public compound assignment operators *)

Definition operator_pluseq (INT_T : int_type) (b : Z) (this : bui) : outcome bui :=
  if is_unsigned_v INT_T then operator_pluseq_uint INT_T b this
  else if b >=? 0 then
    let bu := static_cast (make_unsigned_t INT_T) b in
    operator_pluseq_uint (make_unsigned_t INT_T) bu this
  else
    let bu := static_cast (make_unsigned_t INT_T) (unary_minus INT_T b) in
    operator_minuseq_uint (make_unsigned_t INT_T) bu this.

Definition operator_minuseq (INT_T : int_type) (b : Z) (this : bui) : outcome bui :=
  if is_unsigned_v INT_T then operator_minuseq_uint INT_T b this
  else if b >=? 0 then
    let bu := static_cast (make_unsigned_t INT_T) b in
    operator_minuseq_uint (make_unsigned_t INT_T) bu this
  else
    let bu := static_cast (make_unsigned_t INT_T) (unary_minus INT_T b) in
    operator_pluseq_uint (make_unsigned_t INT_T) bu this.

Definition operator_muleq (INT_T : int_type) (b : Z) (this : bui) : outcome bui :=
  if is_unsigned_v INT_T then operator_muleq_uint INT_T b this
  else if b >=? 0 then
    let bu := static_cast (make_unsigned_t INT_T) b in
    operator_muleq_uint (make_unsigned_t INT_T) bu this
  else
    assert (b >=? 0) ;;; Returns this.

(** *** Division and remainder by a limb *)

(** Loop body of [operator/=]; the loop state is the array and the
    double-limb register [tw]. *)
Definition diveq_step (b : Z) (i : nat) (s : bui * Z) : bui * Z :=
  let '(el, tw) := s in
  let tw := static_cast tw_t (Z.shiftl tw EL_SIZE_IN_BITS) in
  let tw := Z.lor tw (el_at el i) in
  let el := el_upd el i (static_cast el_t (tw / b)) in
  let tw := tw mod b in
  (el, tw).

(** [el_t operator/=(const el_t &b)]: the new object state and the
    returned remainder.  Division by [b = 0] is undefined in the source. *)
Definition operator_diveq (b : Z) (this : bui) : bui * Z :=
  let tw := 0 in
  let '(el, tw) := for_down (SIZE_IN_ELS this) (diveq_step b) (this, tw) in
  (el, static_cast el_t tw).

(** Loop body of [operator%]. *)
Definition mod_step (b : Z) (i : nat) (s : bui * Z) : bui * Z :=
  let '(el, tw) := s in
  let tw := static_cast tw_t (Z.shiftl tw EL_SIZE_IN_BITS) in
  let tw := Z.lor tw (el_at el i) in
  let tw := tw mod b in
  (el, tw).

(** [el_t operator%(const el_t &b) const]: the object state after the
    call and the returned remainder. *)
Definition operator_mod (b : Z) (this : bui) : bui * Z :=
  let tw := 0 in
  let '(el, tw) := for_down (SIZE_IN_ELS this) (mod_step b) (this, tw) in
  (el, static_cast el_t tw).

(** *** Bit length *)

(** [size_t bitlen() const] has no embedding.  Its body calls
    [bitlen(el[i])]; inside the class the unqualified name [bitlen] denotes
    the member itself, which takes no argument, and hides the function
    template [bitlen] of the namespace.  The call has no viable callee, so
    the member cannot be instantiated. *)

(** *** Shifts toward lower bit indices *)

(** Loop body of [loshift_bits<WIDTH>]. *)
Definition loshift_bits_step (WIDTH : Z) (i : nat) (el : bui) : bui :=
  let el := el_upd el (i - 1)
              (Z.lor (el_at el (i - 1))
                     (static_cast el_t (Z.shiftl (el_at el i) (EL_SIZE_IN_BITS - WIDTH)))) in
  el_upd el i (Z.shiftr (el_at el i) WIDTH).

(** [loshift_bits<WIDTH>()], with [static_assert(WIDTH < EL_SIZE_IN_BITS)]. *)
Definition loshift_bits (WIDTH : Z) (this : bui) : bui :=
  let el := el_upd this 0 (Z.shiftr (el_at this 0) WIDTH) in
  for_up 1 (SIZE_IN_ELS this - 1) (loshift_bits_step WIDTH) el.

(** [loshift_1el()] *)
Definition loshift_1el (this : bui) : bui :=
  let el := for_up 0 (SIZE_IN_ELS this - 1)
              (fun i el => el_upd el i (el_at el (i + 1))) this in
  el_upd el (SIZE_IN_ELS this - 1) 0.

(** [loshift_1el()] called [c] times. *)
Definition loshift_els (c : nat) (this : bui) : bui := Nat.iter c loshift_1el this.

(* ================================================================= *)
(** ** Decimal strings *)

(** A [char] as a number ([char] is signed on the targeted platforms) and
    the [char] holding a number. *)
Definition char_val (c : ascii) : Z := static_cast int8_t (Z.of_N (N_of_ascii c)).
Definition char_of (z : Z) : ascii := ascii_of_N (Z.to_N (z mod 256)).

Definition NUL : ascii := Ascii.zero.
Definition is_nul (c : ascii) : bool := Ascii.eqb c NUL.

(** [result[i] = c] on a local array: a write past its end is an error. *)
Fixpoint buf_write (result : list ascii) (i : nat) (c : ascii) : outcome (list ascii) :=
  match result, i with
  | [], _ => OutOfBounds
  | _ :: t, O => Returns (c :: t)
  | x :: t, S j => t' <- buf_write t j c ;; Returns (x :: t')
  end.

(** [std::string(result)]: the characters before the first terminator. *)
Fixpoint c_string (result : list ascii) : outcome String.string :=
  match result with
  | [] => OutOfBounds
  | c :: t =>
      if is_nul c then Returns String.EmptyString
      else s <- c_string t ;; Returns (String.String c s)
  end.

(** [std::strlen(str)] *)
Fixpoint strlen (str : String.string) : nat :=
  match str with
  | String.EmptyString => O
  | String.String c rest => if is_nul c then O else S (strlen rest)
  end.

(** [MAX_DIGITS] of [uint_to_string] for an operand of the given size. *)
Definition MAX_DIGITS (UINT_SIZE_IN_BITS : Z) : Z :=
  ceil_constexpr (double_mul (to_double UINT_SIZE_IN_BITS) LOG_BASE10_2).

(** The [do ... while (tmp != 0)] loop of [uint_to_string<bui<N>>].  The
    loop state is the buffer, [tmp] and [i]; [room] is the number of cells
    of [result] from index [i] on, so that with no room left the write
    [result[i]] is past the end. *)
Fixpoint uint_to_string_loop (room : nat) (result : list ascii) (tmp : bui) (i : nat)
  : outcome (list ascii * nat) :=
  match room with
  | O => OutOfBounds
  | S room' =>
      let '(tmp, r) := operator_mod 10 tmp in
      result <- buf_write result i
                  (char_of (char_val "0"%char + static_cast int8_t r)) ;;
      let '(tmp, _) := operator_diveq 10 tmp in
      let i := S i in
      again <- operator_neq int32_t 0 tmp ;;
      if again then uint_to_string_loop room' result tmp i
      else Returns (result, i)
  end.

(** [uint_to_string] with a local buffer of [size] characters whose
    cells initially hold [stack 0], [stack 1], ... *)
Definition uint_to_string_buf (size : nat) (stack : nat -> ascii) (x : bui)
  : outcome String.string :=
  let result := map stack (seq 0 size) in
  let tmp := x in
  let i := O in
  s <- uint_to_string_loop size result tmp i ;;
  let '(result, i) := s in
  result <- buf_write result i NUL ;;
  let result := rev (firstn i result) ++ skipn i result in
  c_string result.

(** [uint_to_string<bui<N>>(x)]: [char result[MAX_DIGITS + 1]]. *)
Definition uint_to_string (stack : nat -> ascii) (x : bui) : outcome String.string :=
  uint_to_string_buf (Z.to_nat (MAX_DIGITS (SIZE_IN_BITS x) + 1)) stack x.

(** [bui::str()] *)
Definition str (stack : nat -> ascii) (this : bui) : outcome String.string :=
  uint_to_string stack this.

(** The loop of [set_from_str]; [str] is the text from index [i] on and
    [len] the number of iterations left. *)
Fixpoint set_from_str_loop (len : nat) (str : String.string) (this : bui) : outcome bui :=
  match len, str with
  | S len', String.String c rest =>
      assert (char_val c >=? char_val "0"%char) ;;;
      assert (char_val c <=? char_val "9"%char) ;;;
      this <- operator_muleq int32_t 10 this ;;
      this <- operator_pluseq el_t (static_cast el_t (char_val c - char_val "0"%char)) this ;;
      set_from_str_loop len' rest this
  | _, _ => Returns this
  end.

(** [bui::set_from_str(str)] *)
Definition set_from_str (str : String.string) (this : bui) : outcome bui :=
  let len := strlen str in
  let this := set_zero this in
  set_from_str_loop len str this.

(* ================================================================= *)
(** ** Further members of class bui *)

(** *** Construction from and conversion to a native integer *)

(** [el[i] = value >> i * EL_SIZE_IN_BITS] for [i = 0 .. k - 1]. *)
Fixpoint store_limbs (value : Z) (k : nat) (el : bui) : bui :=
  match k with
  | O => el
  | S j =>
      el_upd (store_limbs value j el) j
             (static_cast el_t (Z.shiftr value (Z.of_nat j * EL_SIZE_IN_BITS)))
  end.

(** [set_uint<UINT_T>(value)] *)
Definition set_uint (UINT_T : int_type) (value : Z) (this : bui) : outcome bui :=
  assert_unsigned_int_type UINT_T ;;;
  let n := SIZE_IN_ELS this in
  if ((sizeof UINT_T <=? sizeof el_t) || (n =? 1))%nat then
    Returns (set_zero_starting_at_el 1 (store_limbs value 1 this))
  else if ((sizeof UINT_T <=? 2 * sizeof el_t) || (n =? 2))%nat then
    Returns (set_zero_starting_at_el 2 (store_limbs value 2 this))
  else if ((sizeof UINT_T <=? 4 * sizeof el_t) || (n <=? 4))%nat then
    if (n =? 3)%nat
    then Returns (set_zero_starting_at_el 3 (store_limbs value 3 this))
    else Returns (set_zero_starting_at_el 4 (store_limbs value 4 this))
  else if ((sizeof UINT_T <=? 8 * sizeof el_t) || (n <=? 8))%nat then
    if (n =? 5)%nat
    then Returns (set_zero_starting_at_el 5 (store_limbs value 5 this))
    else if (n =? 6)%nat
    then Returns (set_zero_starting_at_el 6 (store_limbs value 6 this))
    else if (n =? 7)%nat
    then Returns (set_zero_starting_at_el 7 (store_limbs value 7 this))
    else Returns (set_zero_starting_at_el 8 (store_limbs value 8 this))
  else Returns this.

(** The constructor [bui(const INT_T &value)]; [uninit] is the content
    that the empty default constructor [bui()] leaves in [el]. *)
Definition bui_from (INT_T : int_type) (value : Z) (uninit : bui) : outcome bui :=
  if is_unsigned_v INT_T then set_uint INT_T value uninit
  else set_uint (make_unsigned_t INT_T) (static_cast (make_unsigned_t INT_T) value) uninit.

(** [as<INT_T>()]; the value of [as_uint] is converted to the return type. *)
Definition bui_as (INT_T : int_type) (this : bui) : outcome Z :=
  if is_unsigned_v INT_T then as_uint INT_T this
  else x <- as_uint (make_unsigned_t INT_T) this ;; Returns (static_cast INT_T x).

(** *** Bitwise and *)

(** [el_t operator&(const el_t &b) const] *)
Definition operator_and_el (b : Z) (this : bui) : Z := Z.land (el_at this 0) b.

(** [el_t operator&(const tw_t &b) const]: the conjunction is computed in
    [tw_t] and returned as an [el_t]. *)
Definition operator_and_tw (b : Z) (this : bui) : Z :=
  let tw := to_tw_t this in
  static_cast el_t (Z.land tw b).

(** [el_t operator&(const int &b) const] *)
Definition operator_and_int (b : Z) (this : bui) : outcome Z :=
  if (sizeof int32_t <=? sizeof el_t)%nat
  then Returns (Z.land (to_el_t this) (static_cast el_t b))
  else assert false ;;; Returns 0.

(** *** Shifts toward higher bit indices *)

(** Loop body of [hishift_bits<WIDTH>]. *)
Definition hishift_bits_step (WIDTH : Z) (i : nat) (el : bui) : bui :=
  let el := el_upd el (i + 1)
              (Z.lor (el_at el (i + 1))
                     (Z.shiftr (el_at el i) (EL_SIZE_IN_BITS - WIDTH))) in
  el_upd el i (static_cast el_t (Z.shiftl (el_at el i) WIDTH)).

(** [hishift_bits<WIDTH>()], with [static_assert(WIDTH < EL_SIZE_IN_BITS)];
    the loop runs over [i = SIZE_IN_ELS - 2] down to [0]. *)
Definition hishift_bits (WIDTH : Z) (this : bui) : bui :=
  let top := (SIZE_IN_ELS this - 1)%nat in
  let el := el_upd this top (static_cast el_t (Z.shiftl (el_at this top) WIDTH)) in
  for_down (SIZE_IN_ELS this - 1) (hishift_bits_step WIDTH) el.

(** Arithmetic of [size_t] (64 bits) on an index. *)
Definition size_t_sub (i j : Z) : Z := (i - j) mod 2 ^ 64.

(** [el[idx]] read with the array bounds checked: a read outside the
    array is an error. *)
Definition el_read (this : bui) (idx : Z) : outcome Z :=
  if (0 <=? idx) && (idx <? Z.of_nat (SIZE_IN_ELS this))
  then Returns (el_at this (Z.to_nat idx))
  else OutOfBounds.

(** [hishift_1el()]: the loop
    [for (size_t i = SIZE_IN_ELS - 1; i < SIZE_IN_ELS; i--) el[i] = el[i - 1];]
    runs for [i = SIZE_IN_ELS - 1] down to [0]; then [el[0] = 0]. *)
Definition hishift_1el (this : bui) : outcome bui :=
  el <- for_down (SIZE_IN_ELS this)
          (fun i s =>
             el <- s ;;
             x <- el_read el (size_t_sub (Z.of_nat i) 1) ;;
             Returns (el_upd el i x))
          (Returns this) ;;
  Returns (el_upd el 0 0).

(* ================================================================= *)
(** ** The reference rendering of the test driver (test.cpp) *)

(** The [while (x != 0)] loop of [to_string(uint128_t)]; [room] is the
    number of cells of [result] from index [i] on. *)
Fixpoint to_string_uint128_loop (room : nat) (result : list ascii) (x : Z) (i : nat)
  : outcome (list ascii * nat) :=
  if negb (x =? 0) then
    match room with
    | O => OutOfBounds
    | S room' =>
        result <- buf_write result i
                    (char_of (char_val "0"%char + static_cast int8_t (x mod 10))) ;;
        let x := x / 10 in
        let i := S i in
        to_string_uint128_loop room' result x i
    end
  else Returns (result, i).

(** [to_string(uint128_t x)] of test.cpp, with
    [char result[MAX_DIGITS + 1]] for 128 bits. *)
Definition to_string_uint128 (stack : nat -> ascii) (x : Z) : outcome String.string :=
  let size := Z.to_nat (MAX_DIGITS 128 + 1) in
  let result := map stack (seq 0 size) in
  s <- to_string_uint128_loop size result x O ;;
  let '(result, i) := s in
  if (i =? 0)%nat then Returns "0"%string
  else
    result <- buf_write result i NUL ;;
    let result := rev (firstn i result) ++ skipn i result in
    c_string result.

(** [typedef unsigned __int128 uint128_t]: the result of an arithmetic
    operation is reduced modulo [2^128]. *)
Definition uint128_t (z : Z) : Z := z mod 2 ^ 128.

(** How one iteration of the test loop ends: it goes on with the new
    [expected] and [actual], it reports a failed test ([return 1]) or it
    throws [std::runtime_error("unknown op_idx")]. *)
Inductive iteration_end : Type :=
| Continue (expected : Z) (actual : bui)
| TestFailed
| UnknownOp.

(** How [main] ends: with an exit code or by the uncaught exception. *)
Inductive exit_status : Type :=
| Exit (code : Z)
| Uncaught.

(** [if (to_string(actual) != to_string(expected)) { ... return 1; }];
    [junk_a] and [junk_e] are what the buffers of the two renderings hold
    at first. *)
Definition compare_renderings (junk_a junk_e : nat -> ascii) (expected : Z) (actual : bui)
  : outcome iteration_end :=
  sa <- str junk_a actual ;;
  se <- to_string_uint128 junk_e expected ;;
  if negb (String.eqb sa se) then Returns TestFailed
  else Returns (Continue expected actual).

(** The body of the [for] loop of [main]; [rand1] and [rand2] are the
    results of its two calls of [std::rand()].  The console output is not
    part of the model. *)
Definition test_iteration (junk_a junk_e : nat -> ascii) (rand1 rand2 : Z)
  (expected : Z) (actual : bui) : outcome iteration_end :=
  let op_idx := Z.rem rand1 5 in
  let op_val := static_cast el_t rand2 in
  if op_idx =? 0 then
    let expected := uint128_t (expected + op_val) in
    actual <- operator_pluseq el_t op_val actual ;;
    compare_renderings junk_a junk_e expected actual
  else if op_idx =? 1 then
    let expected := uint128_t (expected - op_val) in
    actual <- operator_minuseq el_t op_val actual ;;
    compare_renderings junk_a junk_e expected actual
  else if op_idx =? 2 then
    let expected := uint128_t (expected * op_val) in
    actual <- operator_muleq el_t op_val actual ;;
    compare_renderings junk_a junk_e expected actual
  else if op_idx =? 3 then
    let op_val := static_cast el_t (op_val + b2z (op_val =? 0)) in
    let expected := uint128_t (expected / op_val) in
    let '(actual, _) := operator_diveq op_val actual in
    compare_renderings junk_a junk_e expected actual
  else if op_idx =? 4 then
    let op_val := static_cast el_t (op_val + b2z (op_val =? 0)) in
    let r_expected := static_cast el_t (uint128_t (expected mod op_val)) in
    let '(actual, r_actual) := operator_mod op_val actual in
    if negb (r_actual =? r_expected) then Returns TestFailed
    else compare_renderings junk_a junk_e expected actual
  else Returns UnknownOp.

(** [for (; i < TEST_COUNT; i++)] with [count] iterations left; [rand k]
    is the result of the [k]-th call of [std::rand()] and [junk k] the
    initial content of the buffer of the [k]-th rendering. *)
Fixpoint test_loop (count i : nat) (rand : nat -> Z) (junk : nat -> nat -> ascii)
  (expected : Z) (actual : bui) : outcome exit_status :=
  match count with
  | O => Returns (Exit 0)
  | S count' =>
      e <- test_iteration (junk (2 * i)%nat) (junk (2 * i + 1)%nat)
             (rand (2 * i)%nat) (rand (2 * i + 1)%nat) expected actual ;;
      match e with
      | Continue expected actual => test_loop count' (S i) rand junk expected actual
      | TestFailed => Returns (Exit 1)
      | UnknownOp => Returns Uncaught
      end
  end.

Definition TEST_COUNT : Z := 20000000.

(** [main()]: [uint128_t expected = 0; bifsi::bui<128> actual = 0;] and
    the test loop; [mem] is what the four limbs of [actual] hold before
    its constructor runs. *)
Definition main (rand : nat -> Z) (junk : nat -> nat -> ascii) (mem : nat -> Z)
  : outcome exit_status :=
  let expected := 0 in
  actual <- bui_from int32_t 0 (map mem (seq 0 4)) ;;
  test_loop (Z.to_nat TEST_COUNT) 0 rand junk expected actual.

(* ================================================================= *)
(** ** [uint_to_string] on a native unsigned value *)

(** The [do ... while (tmp != 0)] loop of [uint_to_string<UINT_T>] for a
    native [UINT_T]; [room] is the number of cells of [result] from index
    [i] on. *)
Fixpoint uint_to_string_native_loop (UINT_T : int_type) (room : nat)
  (result : list ascii) (tmp : Z) (i : nat) : outcome (list ascii * nat) :=
  match room with
  | O => OutOfBounds
  | S room' =>
      result <- buf_write result i
                  (char_of (char_val "0"%char + static_cast int8_t (tmp mod 10))) ;;
      let tmp := static_cast UINT_T (tmp / 10) in
      let i := S i in
      if negb (tmp =? 0) then uint_to_string_native_loop UINT_T room' result tmp i
      else Returns (result, i)
  end.

(** [uint_to_string<UINT_T>(x)] for a native [UINT_T]:
    [UINT_SIZE_IN_BITS = sizeof(x) * 8] and [char result[MAX_DIGITS + 1]]. *)
Definition uint_to_string_native (UINT_T : int_type) (stack : nat -> ascii) (x : Z)
  : outcome String.string :=
  let size := Z.to_nat (MAX_DIGITS (Z.of_nat (sizeof UINT_T) * 8) + 1) in
  let result := map stack (seq 0 size) in
  let tmp := x in
  let i := O in
  s <- uint_to_string_native_loop UINT_T size result tmp i ;;
  let '(result, i) := s in
  result <- buf_write result i NUL ;;
  let result := rev (firstn i result) ++ skipn i result in
  c_string result.

(* ================================================================= *)
(** * Specification vocabulary *)

(** The number denoted by a limb array: [sum_i el[i] * BASE^i]. *)
Fixpoint val (a : bui) : Z :=
  match a with
  | [] => 0
  | x :: t => x + BASE * val t
  end.

(** Every limb holds a value of [el_t]. *)
Definition limbs_ok (a : bui) : Prop := Forall (fun x => 0 <= x < BASE) a.

(** The states of an object of [bui<SIZE_IN_BITS>]:
    [static_assert(SIZE_IN_BITS > 0)] gives the array at least one limb. *)
Definition well_formed (a : bui) : Prop := (0 < length a)%nat /\ limbs_ok a.

(** The all-zero object with [n] limbs. *)
Definition zero_bui (n : nat) : bui := repeat 0 n.

(** A loop that at index [i] reads and writes only [el[i]] is a pass over
    the list; [map_acc] goes up the indices, [map_acc_down] down. *)
Fixpoint map_acc {A : Type} (f : nat -> Z -> A -> Z * A) (i : nat) (l : list Z) (acc : A)
  : list Z * A :=
  match l with
  | [] => ([], acc)
  | x :: t =>
      let '(y, acc1) := f i x acc in
      let '(t', acc2) := map_acc f (S i) t acc1 in
      (y :: t', acc2)
  end.

Fixpoint map_acc_down {A : Type} (f : Z -> A -> Z * A) (l : list Z) (acc : A)
  : list Z * A :=
  match l with
  | [] => ([], acc)
  | x :: t =>
      let '(t', acc1) := map_acc_down f t acc in
      let '(y, acc2) := f x acc1 in
      (y :: t', acc2)
  end.

(** One step of the loop of [operator/=], and of [operator%], on the limb
    [x] and the register [tw]. *)
Definition div_limb (b x tw : Z) : Z * Z :=
  let tw := Z.lor (static_cast tw_t (Z.shiftl tw EL_SIZE_IN_BITS)) x in
  (static_cast el_t (tw / b), tw mod b).

Definition mod_limb (b x tw : Z) : Z * Z :=
  let tw := Z.lor (static_cast tw_t (Z.shiftl tw EL_SIZE_IN_BITS)) x in
  (x, tw mod b).

(** One iteration of the loops of [operator_pluseq_uint] and
    [operator_minuseq_uint] on the limb [x] and the incoming [carry]. *)
Definition add_limb (b : Z) (i : nat) (x carry : Z) : Z * Z :=
  let x1 := static_cast el_t (x + carry) in
  let carry := b2z (x1 <? carry) in
  let b_i := limb_slice b i in
  let x2 := static_cast el_t (x1 + b_i) in
  (x2, Z.lor carry (b2z (x2 <? b_i))).

Definition carry_limb (i : nat) (x carry : Z) : Z * Z :=
  let x1 := static_cast el_t (x + carry) in
  (x1, b2z (x1 <? carry)).

Definition sub_limb (b : Z) (i : nat) (x carry : Z) : Z * Z :=
  let x1 := static_cast el_t (x - carry) in
  let carry := b2z (x1 >? x) in
  let b_i := limb_slice b i in
  let x2 := static_cast el_t (x1 - b_i) in
  (x2, Z.lor carry (b2z (x2 >? x1))).

Definition borrow_limb (i : nat) (x carry : Z) : Z * Z :=
  let x1 := static_cast el_t (x - carry) in
  (x1, b2z (x1 >? x)).

(** What a limb step has to do for the pass to add ([sigma = 1]) or to
    subtract ([sigma = -1]): [absorbs] takes in the carry and the operand
    slice, [propagates] the carry alone. *)
Definition absorbs (sigma b : Z) (f : nat -> Z -> Z -> Z * Z) : Prop :=
  forall i x c, 0 <= x < BASE -> 0 <= c <= 1 ->
    0 <= fst (f i x c) < BASE /\ 0 <= snd (f i x c) <= 1 /\
    fst (f i x c) + sigma * (BASE * snd (f i x c)) = x + sigma * (c + limb_slice b i).

Definition propagates (sigma : Z) (g : nat -> Z -> Z -> Z * Z) : Prop :=
  forall i x c, 0 <= x < BASE -> 0 <= c <= 1 ->
    0 <= fst (g i x c) < BASE /\ 0 <= snd (g i x c) <= 1 /\
    fst (g i x c) + sigma * (BASE * snd (g i x c)) = x + sigma * c.

(** A loop body that at index [i] rewrites [el[i]] and the accumulator by [f]. *)
Definition acts_as {A : Type} (body : nat -> bui * A -> bui * A)
  (f : nat -> Z -> A -> Z * A) : Prop :=
  forall pre x post acc,
    body (length pre) (pre ++ x :: post, acc)
    = (pre ++ fst (f (length pre) x acc) :: post, snd (f (length pre) x acc)).

(** *** Add-assign in the words of the specification

    [k = min(ceil(width(b) / width(limb)), limb_count)]; for [i] in
    [0..k], [carry] and then the [i]-th slice of [b] are added into
    [limb[i]], the new carry being [(result < previous_value)] for each of
    the two additions; for [i] in [k..limb_count] the outstanding carry is
    propagated. *)
Definition spec_k (operand_width : Z) (limb_count : nat) : nat :=
  Nat.min (Z.to_nat ((operand_width + EL_SIZE_IN_BITS - 1) / EL_SIZE_IN_BITS)) limb_count.

Definition spec_add_limb (b : Z) (i : nat) (previous_value carry : Z) : Z * Z :=
  let result1 := (previous_value + carry) mod BASE in
  let carry1 := b2z (result1 <? previous_value) in
  let result2 := (result1 + limb_slice b i) mod BASE in
  let carry2 := b2z (result2 <? result1) in
  (result2, Z.lor carry1 carry2).

Definition spec_carry_limb (i : nat) (previous_value carry : Z) : Z * Z :=
  let result := (previous_value + carry) mod BASE in
  (result, b2z (result <? previous_value)).

Definition spec_add_assign (operand_width : Z) (b : Z) (limb : bui) : bui :=
  let k := spec_k operand_width (length limb) in
  let '(low, carry) := map_acc (spec_add_limb b) 0 (firstn k limb) 0 in
  let '(high, _) := map_acc spec_carry_limb k (skipn k limb) carry in
  low ++ high.

(** One iteration of the single-accumulator loop of [operator_muleq_uint]
    on the limb [x] and the accumulator [tw]. *)
Definition mul_limb (b : Z) (i : nat) (x tw : Z) : Z * Z :=
  let tw := static_cast tw_t (tw + static_cast tw_t (static_cast tw_t x * b)) in
  (static_cast el_t tw, Z.shiftr tw EL_SIZE_IN_BITS).

(** The test [el[i] != 0]. *)
Definition nonzero (x : Z) : bool := negb (x =? 0).

(** *** Decimal digits *)

Definition digit_value (c : ascii) : Z := char_val c - char_val "0"%char.

Definition is_digit (c : ascii) : Prop := 0 <= digit_value c <= 9.

(** The number written by digits, least significant digit first. *)
Fixpoint lsd_value (ds : list ascii) : Z :=
  match ds with
  | [] => 0
  | c :: t => digit_value c + 10 * lsd_value t
  end.

(** The number read from digits, most significant first, on top of [acc]. *)
Definition horner (acc : Z) (s : list ascii) : Z :=
  fold_left (fun a c => a * 10 + digit_value c) s acc.

(** *** The size of the digit buffer

    [D = ceil(N * log10 2)] holds exactly when [10^(D-1) < 2^N <= 10^D].
    Two rational bounds of [log10 2], [8651/28738 < log10 2 < 12655/42039],
    decide it for the sizes checked here. *)
Definition is_ceil_log10_pow2 (N D : Z) : Prop := 10 ^ (D - 1) < 2 ^ N <= 10 ^ D.



Definition digits_check (n : nat) : bool :=
  let N := Z.of_nat n * EL_SIZE_IN_BITS in
  let D := MAX_DIGITS N in
  (1 <=? D) && (N * 12655 <=? D * 42039) && ((D - 1) * 28738 <? N * 8651).

(** Bounds of [5^k] of the form [m * 2^e] with [m < 2^64], from below
    (the mantissa rounded down) and from above (rounded up); they compare
    a power of 2 with a power of 10 without computing either. *)
Definition pow5_step (round_up : bool) (s : Z * Z) : Z * Z :=
  let '(m, e) := s in
  let m5 := 5 * m in
  if m5 <? 2 ^ 64 then (m5, e)
  else ((if round_up then m5 + 7 else m5) / 8, e + 3).

Definition pow5_bound (round_up : bool) (k : nat) : Z * Z :=
  Nat.iter k (pow5_step round_up) (1, 0).

(** [2^q <= 10^p], decided from the lower bound of [5^p]. *)
Definition pow2_le_pow10_check (p q : Z) : bool :=
  let '(m, e) := pow5_bound false (Z.to_nat p) in
  (0 <=? p) && (0 <=? q - p - e) && (2 ^ (q - p - e) <=? m).

(** [10^p <= 2^q], decided from the upper bound of [5^p]. *)
Definition pow10_le_pow2_check (p q : Z) : bool :=
  let '(m, e) := pow5_bound true (Z.to_nat p) in
  (0 <=? p) && (0 <=? q - p - e) && (m <=? 2 ^ (q - p - e)).

(** The largest number of limbs for which [MAX_DIGITS] is checked. *)
Definition CHECKED_ELS : nat := 4096.

(** The loop of [loshift_bits<WIDTH>] as a pass over the limbs above the
    current one; [prev] is the limb below, already shifted. *)
Fixpoint shr_pass (WIDTH : Z) (prev : Z) (l : list Z) : list Z :=
  match l with
  | [] => [prev]
  | y :: t =>
      Z.lor prev (static_cast el_t (Z.shiftl y (EL_SIZE_IN_BITS - WIDTH)))
        :: shr_pass WIDTH (Z.shiftr y WIDTH) t
  end.

(** The loop of [hishift_bits<WIDTH>] as a pass over the limbs below the
    current one, most significant first; [next] is the limb above, already
    shifted.  The result is most significant limb first. *)
Fixpoint shl_pass (WIDTH : Z) (next : Z) (below : list Z) : list Z :=
  match below with
  | [] => [next]
  | x :: t =>
      Z.lor next (Z.shiftr x (EL_SIZE_IN_BITS - WIDTH))
        :: shl_pass WIDTH (static_cast el_t (Z.shiftl x WIDTH)) t
  end.

(** A decimal numeral, least significant digit first, in its canonical
    form: digits only, at least one, and no leading zero except for the
    numeral ["0"] itself. *)
Definition canonical (ds : list ascii) : Prop :=
  Forall is_digit ds /\
  (ds = ["0"%char] \/ (ds <> [] /\ digit_value (last ds "0"%char) <> 0)).

(** *** A width at which [MAX_DIGITS] is one short

    [ceil(N * log10 2)] and the binary64 [MAX_DIGITS] differ when
    [N * log10 2] lies just above an integer.  Powers too large to write
    out are compared through an upper bound [m * 2^e] of [5^p] with a
    mantissa [m] of 128 bits, computed by repeated squaring. *)




(** The mantissa cut to 128 bits, rounded up. *)
Definition round_up (s : Z * Z) : Z * Z :=
  let '(m, e) := s in
  let k := Z.log2 m - 127 in
  if k <=? 0 then (m, e) else ((m + 2 ^ k - 1) / 2 ^ k, e + k).




(* ================================================================= *)
(** * Basic facts *)

Lemma EL_SIZE_IN_BITS_eq : EL_SIZE_IN_BITS = 32.
Proof. reflexivity. Qed.

Lemma BASE_eq : BASE = 4294967296.
Proof. reflexivity. Qed.

Lemma BASE_pos : 0 < BASE.
Proof. rewrite BASE_eq. lia. Qed.

Lemma cast_el_t z : static_cast el_t z = z mod BASE.
Proof. reflexivity. Qed.

Lemma cast_tw_t z : static_cast tw_t z = z mod (BASE * BASE).
Proof. reflexivity. Qed.

Lemma cast_small_el z : 0 <= z < BASE -> static_cast el_t z = z.
Proof. intros. rewrite cast_el_t. apply Z.mod_small; assumption. Qed.

Lemma cast_small_tw z : 0 <= z < BASE * BASE -> static_cast tw_t z = z.
Proof. intros. rewrite cast_tw_t. apply Z.mod_small; assumption. Qed.

Lemma size_in_bits_pow (a : bui) : 2 ^ SIZE_IN_BITS a = BASE ^ Z.of_nat (length a).
Proof.
  unfold SIZE_IN_BITS, SIZE_IN_ELS, BASE.
  rewrite <- Z.pow_mul_r by (rewrite ?EL_SIZE_IN_BITS_eq; lia).
  f_equal. lia.
Qed.

(** ** The value of a limb array *)

Lemma val_cons x t : val (x :: t) = x + BASE * val t.
Proof. reflexivity. Qed.

Lemma val_app a b : val (a ++ b) = val a + BASE ^ Z.of_nat (length a) * val b.
Proof.
  induction a as [|x a IH]; cbn [app val length].
  - rewrite Z.pow_0_r. lia.
  - rewrite IH, Nat2Z.inj_succ, Z.pow_succ_r by lia. ring.
Qed.

Lemma limbs_ok_cons x t : limbs_ok (x :: t) <-> 0 <= x < BASE /\ limbs_ok t.
Proof.
  unfold limbs_ok. split.
  - intros H. inversion H; subst. auto.
  - intros [H1 H2]. constructor; assumption.
Qed.

Lemma limbs_ok_app a b : limbs_ok (a ++ b) <-> limbs_ok a /\ limbs_ok b.
Proof. unfold limbs_ok. apply Forall_app. Qed.

Lemma val_bounds a : limbs_ok a -> 0 <= val a < BASE ^ Z.of_nat (length a).
Proof.
  induction a as [|x a IH]; intros H; cbn [val length].
  - rewrite Z.pow_0_r. lia.
  - apply limbs_ok_cons in H. destruct H as [Hx Ha]. specialize (IH Ha).
    rewrite Nat2Z.inj_succ, Z.pow_succ_r by lia.
    pose proof BASE_pos. nia.
Qed.

Lemma val_inj a b :
  limbs_ok a -> limbs_ok b -> length a = length b -> val a = val b -> a = b.
Proof.
  revert b. induction a as [|x a IH]; intros [|y b] Ha Hb Hlen Hval;
    try discriminate; [reflexivity|].
  apply limbs_ok_cons in Ha. apply limbs_ok_cons in Hb.
  destruct Ha as [Hx Ha], Hb as [Hy Hb].
  cbn [val] in Hval. injection Hlen as Hlen.
  assert (x = y /\ val a = val b) as [-> Hv].
  { rewrite BASE_eq in *. lia. }
  f_equal. apply IH; assumption.
Qed.

Lemma val_zero_bui n : val (zero_bui n) = 0.
Proof. induction n as [|n IH]; cbn [zero_bui repeat val]; [reflexivity|]. fold (zero_bui n). lia. Qed.

Lemma limbs_ok_zero_bui n : limbs_ok (zero_bui n).
Proof.
  unfold limbs_ok, zero_bui. apply Forall_forall. intros x Hx.
  apply repeat_spec in Hx. subst. pose proof BASE_pos. lia.
Qed.

(** ** Reading and writing the array *)

Lemma el_at_mid pre x post : el_at (pre ++ x :: post) (length pre) = x.
Proof. unfold el_at. rewrite nth_middle. reflexivity. Qed.

Lemma el_upd_mid pre x post v :
  el_upd (pre ++ x :: post) (length pre) v = pre ++ v :: post.
Proof. induction pre as [|p pre IH]; cbn; [reflexivity|]. rewrite IH. reflexivity. Qed.

Lemma el_upd_length a i v : length (el_upd a i v) = length a.
Proof.
  revert i. induction a as [|x a IH]; intros [|i]; cbn; try reflexivity.
  rewrite IH. reflexivity.
Qed.

(** ** Loops that touch one limb per iteration *)

Lemma map_acc_length {A} (f : nat -> Z -> A -> Z * A) l :
  forall i acc, length (fst (map_acc f i l acc)) = length l.
Proof.
  induction l as [|x l IH]; intros i acc; cbn [map_acc]; [reflexivity|].
  destruct (f i x acc) as [y acc1]. specialize (IH (S i) acc1).
  destruct (map_acc f (S i) l acc1) as [t' acc2]. cbn in *. lia.
Qed.

Lemma map_acc_down_length {A} (f : Z -> A -> Z * A) l :
  forall acc, length (fst (map_acc_down f l acc)) = length l.
Proof.
  induction l as [|x l IH]; intros acc; cbn [map_acc_down]; [reflexivity|].
  specialize (IH acc). destruct (map_acc_down f l acc) as [t' acc1].
  destruct (f x acc1) as [y acc2]. cbn in *. lia.
Qed.

Lemma for_up_map_acc {A} (body : nat -> bui * A -> bui * A) (f : nat -> Z -> A -> Z * A) :
  acts_as body f ->
  forall mid pre post acc,
    for_up (length pre) (length mid) body (pre ++ mid ++ post, acc)
    = (pre ++ fst (map_acc f (length pre) mid acc) ++ post,
       snd (map_acc f (length pre) mid acc)).
Proof.
  intros Hbody. induction mid as [|x mid IH]; intros pre post acc.
  - reflexivity.
  - cbn [length for_up map_acc app].
    rewrite Hbody. destruct (f (length pre) x acc) as [y acc1]. cbn [fst snd].
    specialize (IH (pre ++ [y]) post acc1).
    rewrite length_app in IH. cbn [length] in IH.
    replace (length pre + 1)%nat with (S (length pre)) in IH by lia.
    rewrite <- !app_assoc in IH. cbn [app] in IH. rewrite IH.
    destruct (map_acc f (S (length pre)) mid acc1) as [t' acc2]. reflexivity.
Qed.

Lemma map_acc_down_snoc {A} (f : Z -> A -> Z * A) l x acc :
  map_acc_down f (l ++ [x]) acc
  = (fst (map_acc_down f l (snd (f x acc))) ++ [fst (f x acc)],
     snd (map_acc_down f l (snd (f x acc)))).
Proof.
  induction l as [|z l IH]; cbn [app map_acc_down].
  - destruct (f x acc). reflexivity.
  - rewrite IH. destruct (map_acc_down f l (snd (f x acc))) as [t' acc1]. cbn [fst snd].
    destruct (f z acc1). reflexivity.
Qed.

Lemma for_down_map_acc {A} (body : nat -> bui * A -> bui * A) (f : Z -> A -> Z * A) :
  (forall pre x post acc,
      body (length pre) (pre ++ x :: post, acc)
      = (pre ++ fst (f x acc) :: post, snd (f x acc))) ->
  forall pre post acc,
    for_down (length pre) body (pre ++ post, acc)
    = (fst (map_acc_down f pre acc) ++ post, snd (map_acc_down f pre acc)).
Proof.
  intros Hbody pre. induction pre as [|x pre IH] using rev_ind; intros post acc.
  - reflexivity.
  - rewrite length_app. cbn [length]. rewrite Nat.add_1_r. cbn [for_down].
    rewrite <- app_assoc. cbn [app]. rewrite Hbody.
    rewrite IH, map_acc_down_snoc. cbn [fst snd].
    rewrite <- app_assoc. reflexivity.
Qed.

(** ** Bitwise operations as arithmetic *)

Lemma land_mul_pow2_low t x n :
  0 <= n -> 0 <= x < 2 ^ n -> Z.land (t * 2 ^ n) x = 0.
Proof.
  intros Hn Hx. apply Z.bits_inj'. intros m Hm.
  rewrite Z.land_spec, Z.bits_0.
  destruct (Z.lt_ge_cases m n) as [Hlt|Hge].
  - rewrite Z.mul_pow2_bits_low by lia. reflexivity.
  - replace x with (x mod 2 ^ n) by (apply Z.mod_small; lia).
    rewrite Z.mod_pow2_bits_high by lia. apply andb_false_r.
Qed.

Lemma lor_mul_pow2_low t x n :
  0 <= n -> 0 <= x < 2 ^ n -> Z.lor (t * 2 ^ n) x = t * 2 ^ n + x.
Proof.
  intros Hn Hx. pose proof (Z.add_lor_land (t * 2 ^ n) x) as H.
  rewrite land_mul_pow2_low in H by assumption. lia.
Qed.

Lemma shiftl_limb t : Z.shiftl t EL_SIZE_IN_BITS = t * BASE.
Proof. unfold BASE. apply Z.shiftl_mul_pow2. rewrite EL_SIZE_IN_BITS_eq. lia. Qed.

Lemma shiftr_limb t : Z.shiftr t EL_SIZE_IN_BITS = t / BASE.
Proof. unfold BASE. apply Z.shiftr_div_pow2. rewrite EL_SIZE_IN_BITS_eq. lia. Qed.

(** [tw <<= EL_SIZE_IN_BITS; tw |= x] appends the limb [x] to a register
    that holds less than one limb. *)
Lemma push_limb tw x :
  0 <= tw < BASE -> 0 <= x < BASE ->
  Z.lor (static_cast tw_t (Z.shiftl tw EL_SIZE_IN_BITS)) x = tw * BASE + x.
Proof.
  intros Htw Hx. rewrite shiftl_limb, cast_small_tw by nia.
  unfold BASE in *. apply lor_mul_pow2_low; [rewrite EL_SIZE_IN_BITS_eq; lia | assumption].
Qed.

(** ** Long division by a limb *)

Section Division.

Variable b : Z.
Hypothesis b_range : 0 < b < BASE.

Lemma diveq_step_mid pre x post tw :
  diveq_step b (length pre) (pre ++ x :: post, tw)
  = (pre ++ fst (div_limb b x tw) :: post, snd (div_limb b x tw)).
Proof. unfold diveq_step, div_limb. rewrite el_at_mid, el_upd_mid. reflexivity. Qed.

Lemma mod_step_mid pre x post tw :
  mod_step b (length pre) (pre ++ x :: post, tw)
  = (pre ++ fst (mod_limb b x tw) :: post, snd (mod_limb b x tw)).
Proof. unfold mod_step, mod_limb. rewrite el_at_mid. reflexivity. Qed.

Lemma div_limb_spec x tw :
  0 <= tw < b -> 0 <= x < BASE ->
  let '(q, r) := div_limb b x tw in
  0 <= q < BASE /\ 0 <= r < b /\ tw * BASE + x = b * q + r.
Proof.
  intros Htw Hx. unfold div_limb. rewrite push_limb by lia.
  set (t := tw * BASE + x).
  assert (Ht : 0 <= t < b * BASE) by (unfold t; nia).
  assert (Hq : 0 <= t / b < BASE).
  { split; [apply Z.div_pos; lia | apply Z.div_lt_upper_bound; lia]. }
  rewrite cast_small_el by assumption.
  split; [assumption|]. split; [apply Z.mod_pos_bound; lia|].
  apply Z.div_mod. lia.
Qed.

Lemma div_pass l :
  limbs_ok l -> forall tw, 0 <= tw < b ->
  let '(q, r) := map_acc_down (div_limb b) l tw in
  limbs_ok q /\ 0 <= r < b /\ tw * BASE ^ Z.of_nat (length l) + val l = b * val q + r.
Proof.
  induction l as [|x l IH]; intros Hl tw Htw; cbn [map_acc_down].
  - cbn [val length]. rewrite Z.pow_0_r. split; [constructor|]. lia.
  - apply limbs_ok_cons in Hl. destruct Hl as [Hx Hl].
    specialize (IH Hl tw Htw).
    destruct (map_acc_down (div_limb b) l tw) as [q r1]. destruct IH as (Hq & Hr1 & Heq).
    pose proof (div_limb_spec x r1 Hr1 Hx) as Hstep.
    destruct (div_limb b x r1) as [y r2]. destruct Hstep as (Hy & Hr2 & Hs).
    split; [apply limbs_ok_cons; auto|]. split; [assumption|].
    cbn [val length]. rewrite Nat2Z.inj_succ, Z.pow_succ_r by lia. nia.
Qed.

Lemma mod_pass l :
  limbs_ok l -> forall tw, 0 <= tw < b ->
  let '(l', r) := map_acc_down (mod_limb b) l tw in
  l' = l /\ r = (tw * BASE ^ Z.of_nat (length l) + val l) mod b.
Proof.
  induction l as [|x l IH]; intros Hl tw Htw; cbn [map_acc_down].
  - cbn [val length]. rewrite Z.pow_0_r. split; [reflexivity|].
    rewrite Z.mul_1_r, Z.add_0_r. symmetry. apply Z.mod_small. assumption.
  - apply limbs_ok_cons in Hl. destruct Hl as [Hx Hl].
    specialize (IH Hl tw Htw).
    destruct (map_acc_down (mod_limb b) l tw) as [l' r1]. destruct IH as [-> Hr1].
    assert (Hr1b : 0 <= r1 < b) by (subst r1; apply Z.mod_pos_bound; lia).
    unfold mod_limb. rewrite push_limb by lia.
    split; [reflexivity|].
    cbn [val length]. rewrite Nat2Z.inj_succ, Z.pow_succ_r by lia.
    subst r1.
    replace (tw * (BASE * BASE ^ Z.of_nat (length l)) + (x + BASE * val l))
      with ((tw * BASE ^ Z.of_nat (length l) + val l) * BASE + x) by ring.
    rewrite <- Zplus_mod_idemp_l, Zmult_mod_idemp_l, Zplus_mod_idemp_l. reflexivity.
Qed.

Lemma operator_diveq_spec this :
  well_formed this ->
  let '(q, r) := operator_diveq b this in
  well_formed q /\ length q = length this /\ val q = val this / b /\ r = val this mod b.
Proof.
  intros [Hlen Hok]. unfold operator_diveq, SIZE_IN_ELS. cbv zeta.
  pose proof (for_down_map_acc (diveq_step b) (div_limb b) diveq_step_mid this [] 0) as Hloop.
  rewrite !app_nil_r in Hloop. rewrite Hloop. clear Hloop.
  pose proof (div_pass this Hok 0 ltac:(lia)) as Hpass.
  pose proof (map_acc_down_length (div_limb b) this 0) as Hl.
  destruct (map_acc_down (div_limb b) this 0) as [q r]. cbn [fst snd] in *.
  destruct Hpass as (Hq & Hr & Heq). rewrite Z.mul_0_l, Z.add_0_l in Heq.
  rewrite cast_small_el by lia.
  split; [split; [lia | assumption]|]. split; [assumption|].
  split.
  - apply (Z.div_unique_pos _ _ _ r); assumption.
  - apply (Z.mod_unique_pos _ _ (val q)); assumption.
Qed.

Lemma operator_mod_spec this :
  well_formed this -> operator_mod b this = (this, val this mod b).
Proof.
  intros [Hlen Hok]. unfold operator_mod, SIZE_IN_ELS. cbv zeta.
  pose proof (for_down_map_acc (mod_step b) (mod_limb b) mod_step_mid this [] 0) as Hloop.
  rewrite !app_nil_r in Hloop. rewrite Hloop. clear Hloop.
  pose proof (mod_pass this Hok 0 ltac:(lia)) as Hpass.
  destruct (map_acc_down (mod_limb b) this 0) as [l' r]. cbn [fst snd] in *.
  destruct Hpass as [-> ->]. rewrite Z.mul_0_l, Z.add_0_l.
  rewrite cast_small_el; [reflexivity|].
  pose proof (Z.mod_pos_bound (val this) b). lia.
Qed.

End Division.

(** ** Addition and subtraction of a native value *)

Lemma limb_slice_eq b i : limb_slice b i = (b / BASE ^ Z.of_nat i) mod BASE.
Proof.
  unfold limb_slice. rewrite cast_el_t, Z.shiftr_div_pow2 by (rewrite EL_SIZE_IN_BITS_eq; lia).
  unfold BASE. rewrite <- Z.pow_mul_r by (rewrite ?EL_SIZE_IN_BITS_eq; lia).
  do 3 f_equal. lia.
Qed.

Lemma limb_slice_range b i : 0 <= limb_slice b i < BASE.
Proof. rewrite limb_slice_eq. apply Z.mod_pos_bound. apply BASE_pos. Qed.

Ltac limb_cases :=
  repeat match goal with
    | |- context [Z.ltb ?a ?b] => destruct (Z.ltb_spec a b)
    | |- context [Z.gtb ?a ?b] => rewrite (Z.gtb_ltb a b); destruct (Z.ltb_spec b a)
    end;
  cbn [b2z Z.lor fst snd Pos.lor];
  repeat split; Z.div_mod_to_equations; lia.

Lemma add_limb_absorbs b : absorbs 1 b (add_limb b).
Proof.
  intros i x c Hx Hc. pose proof (limb_slice_range b i) as Hs.
  unfold add_limb. cbv zeta. rewrite !cast_el_t. cbn [fst snd].
  generalize dependent (limb_slice b i). intros s Hs.
  rewrite BASE_eq in *. limb_cases.
Qed.

Lemma carry_limb_propagates : propagates 1 carry_limb.
Proof.
  intros i x c Hx Hc. unfold carry_limb. cbv zeta. rewrite !cast_el_t. cbn [fst snd].
  rewrite BASE_eq in *. limb_cases.
Qed.

Lemma sub_limb_absorbs b : absorbs (-1) b (sub_limb b).
Proof.
  intros i x c Hx Hc. pose proof (limb_slice_range b i) as Hs.
  unfold sub_limb. cbv zeta. rewrite !cast_el_t. cbn [fst snd].
  generalize dependent (limb_slice b i). intros s Hs.
  rewrite BASE_eq in *. limb_cases.
Qed.

Lemma borrow_limb_propagates : propagates (-1) borrow_limb.
Proof.
  intros i x c Hx Hc. unfold borrow_limb. cbv zeta. rewrite !cast_el_t. cbn [fst snd].
  rewrite BASE_eq in *. limb_cases.
Qed.

Lemma spec_add_limb_absorbs b : absorbs 1 b (spec_add_limb b).
Proof.
  intros i x c Hx Hc. pose proof (limb_slice_range b i) as Hs.
  unfold spec_add_limb. cbv zeta. cbn [fst snd].
  generalize dependent (limb_slice b i). intros s Hs.
  rewrite BASE_eq in *. limb_cases.
Qed.

Lemma spec_carry_limb_propagates : propagates 1 spec_carry_limb.
Proof.
  intros i x c Hx Hc. unfold spec_carry_limb. cbv zeta. cbn [fst snd].
  rewrite BASE_eq in *. limb_cases.
Qed.

Lemma pluseq_absorb_acts b : acts_as (pluseq_absorb b) (add_limb b).
Proof.
  intros pre x post c. unfold pluseq_absorb, add_limb. cbv zeta.
  repeat (rewrite el_at_mid || rewrite el_upd_mid). reflexivity.
Qed.

Lemma pluseq_propagate_acts : acts_as pluseq_propagate carry_limb.
Proof.
  intros pre x post c. unfold pluseq_propagate, carry_limb. cbv zeta.
  repeat (rewrite el_at_mid || rewrite el_upd_mid). reflexivity.
Qed.

Lemma minuseq_absorb_acts b : acts_as (minuseq_absorb b) (sub_limb b).
Proof.
  intros pre x post c. unfold minuseq_absorb, sub_limb. cbv zeta.
  repeat (rewrite el_at_mid || rewrite el_upd_mid). reflexivity.
Qed.

Lemma minuseq_propagate_acts : acts_as minuseq_propagate borrow_limb.
Proof.
  intros pre x post c. unfold minuseq_propagate, borrow_limb. cbv zeta.
  repeat (rewrite el_at_mid || rewrite el_upd_mid). reflexivity.
Qed.

Section Passes.

Variables sigma b : Z.
Variables f g : nat -> Z -> Z -> Z * Z.
Hypothesis f_absorbs : absorbs sigma b f.
Hypothesis g_propagates : propagates sigma g.

Lemma slice_split y m :
  0 <= m -> y mod (BASE * BASE ^ m) = y mod BASE + BASE * ((y / BASE) mod BASE ^ m).
Proof.
  intros Hm. pose proof BASE_pos.
  apply Z.rem_mul_r; [lia | apply Z.pow_pos_nonneg; lia].
Qed.

Lemma absorb_pass l :
  forall i c, limbs_ok l -> 0 <= c <= 1 ->
    limbs_ok (fst (map_acc f i l c)) /\ 0 <= snd (map_acc f i l c) <= 1 /\
    val (fst (map_acc f i l c))
      + sigma * (snd (map_acc f i l c) * BASE ^ Z.of_nat (length l))
    = val l + sigma * (c + (b / BASE ^ Z.of_nat i) mod BASE ^ Z.of_nat (length l)).
Proof.
  induction l as [|x l IH]; intros i c Hl Hc; cbn [map_acc].
  - cbn [fst snd val length]. rewrite Z.pow_0_r, Z.mod_1_r.
    split; [constructor|]. split; [assumption|]. ring.
  - apply limbs_ok_cons in Hl. destruct Hl as [Hx Hl].
    destruct (f_absorbs i x c Hx Hc) as (Hy & Hc1 & Hstep).
    destruct (f i x c) as [y c1]. cbn [fst snd] in *.
    destruct (IH (S i) c1 Hl Hc1) as (Hl' & Hc2 & Hrest).
    destruct (map_acc f (S i) l c1) as [l' c2]. cbn [fst snd] in *.
    split; [apply limbs_ok_cons; auto|]. split; [assumption|].
    cbn [val length]. rewrite Nat2Z.inj_succ, Z.pow_succ_r by lia.
    pose proof BASE_pos as HB.
    assert (HBi : 0 < BASE ^ Z.of_nat i) by (apply Z.pow_pos_nonneg; lia).
    rewrite slice_split by lia.
    rewrite Z.div_div by lia.
    rewrite limb_slice_eq in Hstep.
    replace (BASE ^ Z.of_nat i * BASE) with (BASE ^ Z.of_nat (S i))
      by (rewrite Nat2Z.inj_succ, Z.pow_succ_r by lia; ring).
    set (P := BASE ^ Z.of_nat (length l)) in *.
    set (s0 := (b / BASE ^ Z.of_nat i) mod BASE) in *.
    set (s1 := (b / BASE ^ Z.of_nat (S i)) mod P) in *.
    nia.
Qed.

Lemma propagate_pass l :
  forall i c, limbs_ok l -> 0 <= c <= 1 ->
    limbs_ok (fst (map_acc g i l c)) /\ 0 <= snd (map_acc g i l c) <= 1 /\
    val (fst (map_acc g i l c))
      + sigma * (snd (map_acc g i l c) * BASE ^ Z.of_nat (length l))
    = val l + sigma * c.
Proof.
  induction l as [|x l IH]; intros i c Hl Hc; cbn [map_acc].
  - cbn [fst snd val length]. rewrite Z.pow_0_r.
    split; [constructor|]. split; [assumption|]. ring.
  - apply limbs_ok_cons in Hl. destruct Hl as [Hx Hl].
    destruct (g_propagates i x c Hx Hc) as (Hy & Hc1 & Hstep).
    destruct (g i x c) as [y c1]. cbn [fst snd] in *.
    destruct (IH (S i) c1 Hl Hc1) as (Hl' & Hc2 & Hrest).
    destruct (map_acc g (S i) l c1) as [l' c2]. cbn [fst snd] in *.
    split; [apply limbs_ok_cons; auto|]. split; [assumption|].
    cbn [val length]. rewrite Nat2Z.inj_succ, Z.pow_succ_r by lia.
    nia.
Qed.

End Passes.

(** The two loops of an add or subtract method, as two passes. *)
Lemma two_loops_as_passes (body1 body2 : nat -> bui * Z -> bui * Z) f g :
  acts_as body1 f -> acts_as body2 g ->
  forall this k, (k <= length this)%nat ->
    fst (for_up k (length this - k) body2 (for_up 0 k body1 (this, 0)))
    = fst (map_acc f 0 (firstn k this) 0)
      ++ fst (map_acc g k (skipn k this) (snd (map_acc f 0 (firstn k this) 0))).
Proof.
  intros H1 H2 this k Hk.
  pose proof (firstn_skipn k this) as Hsplit.
  pose proof (firstn_length_le this Hk) as Hlo.
  assert (Hhi : length (skipn k this) = (length this - k)%nat) by apply length_skipn.
  set (lo := firstn k this) in *. set (hi := skipn k this) in *.
  rewrite <- Hsplit at 2.
  pose proof (for_up_map_acc body1 f H1 lo [] hi 0) as L1.
  cbn [length app] in L1. rewrite Hlo in L1. rewrite L1. clear L1.
  pose proof (map_acc_length f lo 0 0) as Hlen1.
  destruct (map_acc f 0 lo 0) as [lo' c1]. cbn [fst snd] in *.
  pose proof (for_up_map_acc body2 g H2 hi lo' [] c1) as L2.
  rewrite !app_nil_r, Hlen1, Hlo, Hhi in L2. rewrite L2. reflexivity.
Qed.

Section TwoPasses.

Variables sigma b : Z.
Variables f g : nat -> Z -> Z -> Z * Z.
Hypothesis f_absorbs : absorbs sigma b f.
Hypothesis g_propagates : propagates sigma g.

Lemma two_passes_val this k :
  limbs_ok this -> (k <= length this)%nat ->
  let r := fst (map_acc f 0 (firstn k this) 0)
           ++ fst (map_acc g k (skipn k this) (snd (map_acc f 0 (firstn k this) 0))) in
  limbs_ok r /\ length r = length this /\
  val r = (val this + sigma * (b mod BASE ^ Z.of_nat k)) mod BASE ^ Z.of_nat (length this).
Proof.
  intros Hok Hk. cbv zeta.
  pose proof (firstn_skipn k this) as Hsplit.
  pose proof (firstn_length_le this Hk) as Hlo.
  assert (Hhi : length (skipn k this) = (length this - k)%nat) by apply length_skipn.
  set (lo := firstn k this) in *. set (hi := skipn k this) in *.
  assert (Hoks : limbs_ok lo /\ limbs_ok hi).
  { apply limbs_ok_app. rewrite Hsplit. assumption. }
  destruct Hoks as [Hoklo Hokhi].
  destruct (absorb_pass sigma b f f_absorbs lo 0 0 Hoklo ltac:(lia)) as (Ha1 & Ha2 & Ha3).
  pose proof (map_acc_length f lo 0 0) as Hlen1.
  destruct (map_acc f 0 lo 0) as [lo' c1]. cbn [fst snd] in *.
  destruct (propagate_pass sigma g g_propagates hi k c1 Hokhi Ha2) as (Hb1 & Hb2 & Hb3).
  pose proof (map_acc_length g hi k c1) as Hlen2.
  destruct (map_acc g k hi c1) as [hi' c2]. cbn [fst snd] in *.
  split; [apply limbs_ok_app; auto|].
  split; [rewrite length_app; lia|].
  assert (Hr : limbs_ok (lo' ++ hi')) by (apply limbs_ok_app; auto).
  apply val_bounds in Hr. rewrite length_app, Hlen1, Hlen2, Hlo, Hhi in Hr.
  replace (k + (length this - k))%nat with (length this) in Hr by lia.
  apply (Z.mod_unique_pos _ _ (sigma * c2)); [assumption|].
  rewrite val_app, Hlen1, Hlo in *.
  rewrite <- Hsplit at 1. rewrite val_app, Hlo.
  change (Z.of_nat 0) with 0 in Ha3.
  rewrite Z.pow_0_r, Z.div_1_r, Z.add_0_l in Ha3.
  rewrite Hhi in Hb3.
  replace (BASE ^ Z.of_nat (length this))
    with (BASE ^ Z.of_nat k * BASE ^ Z.of_nat (length this - k))
    by (rewrite <- Z.pow_add_r by lia; f_equal; lia).
  set (Pk := BASE ^ Z.of_nat k) in *.
  set (Pr := BASE ^ Z.of_nat (length this - k)) in *.
  set (bk := b mod Pk) in *.
  nia.
Qed.

End TwoPasses.

Lemma width_limbs T :
  (sizeof el_t <= sizeof T)%nat ->
  2 ^ width T = BASE ^ Z.of_nat (sizeof T / sizeof el_t).
Proof. destruct T; cbn [sizeof el_t]; intros H; try lia; reflexivity. Qed.

Lemma sizeof_multiple T :
  (sizeof el_t <= sizeof T)%nat -> (sizeof T mod sizeof el_t =? 0)%nat = true.
Proof. destruct T; cbn [sizeof el_t]; intros H; try lia; reflexivity. Qed.

(** Adding [sigma * (b mod BASE^k)] for the [k] of the methods is adding
    [sigma * b] modulo [2^N]. *)
Lemma operand_mod T sigma b v n :
  (sizeof el_t <= sizeof T)%nat -> 0 <= b < 2 ^ width T ->
  let k := Nat.min (sizeof T / sizeof el_t) n in
  (v + sigma * (b mod BASE ^ Z.of_nat k)) mod BASE ^ Z.of_nat n
  = (v + sigma * b) mod BASE ^ Z.of_nat n.
Proof.
  intros Hsz Hb k. rewrite (width_limbs T Hsz) in Hb.
  destruct (Nat.min_spec (sizeof T / sizeof el_t) n) as [[Hlt Hmin]|[Hge Hmin]];
    fold k in Hmin; rewrite Hmin.
  - rewrite (Z.mod_small b) by assumption. reflexivity.
  - pose proof BASE_pos.
    assert (HP : 0 < BASE ^ Z.of_nat n) by (apply Z.pow_pos_nonneg; lia).
    set (P := BASE ^ Z.of_nat n) in *.
    replace (v + sigma * (b mod P)) with (v + sigma * b + (- sigma * (b / P)) * P).
    + apply Z_mod_plus_full.
    + pose proof (Z.div_mod b P ltac:(lia)). nia.
Qed.

Section AddSubMethod.

Variable sigma : Z.
Variable body1 : Z -> nat -> bui * Z -> bui * Z.
Variable body2 : nat -> bui * Z -> bui * Z.
Variable f : Z -> nat -> Z -> Z -> Z * Z.
Variable g : nat -> Z -> Z -> Z * Z.
Hypothesis body1_acts : forall b, acts_as (body1 b) (f b).
Hypothesis body2_acts : acts_as body2 g.
Hypothesis f_absorbs : forall b, absorbs sigma b (f b).
Hypothesis g_propagates : propagates sigma g.

(** The shared shape of [pluseq_uint_limbs] and [minuseq_uint_limbs]. *)
Lemma addsub_limbs_spec T b this :
  (sizeof el_t <= sizeof T)%nat -> 0 <= b < 2 ^ width T -> well_formed this ->
  let k := Nat.min (sizeof T / sizeof el_t) (SIZE_IN_ELS this) in
  let r := fst (for_up k (SIZE_IN_ELS this - k) body2
                  (for_up 0 k (body1 b) (this, 0))) in
  well_formed r /\ length r = length this /\
  val r = (val this + sigma * b) mod 2 ^ SIZE_IN_BITS this /\
  r = fst (map_acc (f b) 0 (firstn k this) 0)
      ++ fst (map_acc g k (skipn k this) (snd (map_acc (f b) 0 (firstn k this) 0))).
Proof.
  intros Hsz Hb [Hlen Hok] k r. unfold SIZE_IN_ELS in *.
  assert (Hk : (k <= length this)%nat) by (unfold k; lia).
  assert (Hr : r = fst (map_acc (f b) 0 (firstn k this) 0)
      ++ fst (map_acc g k (skipn k this) (snd (map_acc (f b) 0 (firstn k this) 0)))).
  { unfold r. apply two_loops_as_passes; auto. }
  destruct (two_passes_val sigma b (f b) g (f_absorbs b) g_propagates this k Hok Hk)
    as (H1 & H2 & H3).
  rewrite <- Hr in H1, H2, H3.
  split; [split; [lia | assumption]|]. split; [assumption|]. split; [|assumption].
  rewrite H3, size_in_bits_pow. apply operand_mod; assumption.
Qed.

End AddSubMethod.

Lemma representable_unsigned T b :
  is_unsigned_v T = true -> representable T b -> 0 <= b < 2 ^ width T.
Proof. unfold representable. intros ->. trivial. Qed.

Lemma narrow_fits T b :
  (sizeof T <? sizeof el_t)%nat = true -> 0 <= b < 2 ^ width T ->
  0 <= b < 2 ^ width el_t /\ static_cast el_t b = b.
Proof.
  intros Hn Hb.
  assert (Hw : 2 ^ width T <= BASE).
  { destruct T; cbn [sizeof el_t Nat.ltb Nat.leb] in Hn; try discriminate;
      rewrite BASE_eq; cbn; lia. }
  change (2 ^ width el_t) with BASE.
  split; [lia | apply cast_small_el; lia].
Qed.

Lemma spec_k_limbs T n :
  (sizeof el_t <= sizeof T)%nat ->
  spec_k (width T) n = Nat.min (sizeof T / sizeof el_t) n.
Proof. destruct T; cbn [sizeof el_t]; intros H; try lia; reflexivity. Qed.

Lemma spec_k_narrow T n :
  (sizeof T <? sizeof el_t)%nat = true -> spec_k (width T) n = spec_k (width el_t) n.
Proof. destruct T; cbn [sizeof el_t Nat.ltb Nat.leb]; intros H; try discriminate; reflexivity. Qed.

Lemma spec_add_assign_as_passes w b this :
  let k := spec_k w (length this) in
  spec_add_assign w b this
  = fst (map_acc (spec_add_limb b) 0 (firstn k this) 0)
    ++ fst (map_acc spec_carry_limb k (skipn k this)
              (snd (map_acc (spec_add_limb b) 0 (firstn k this) 0))).
Proof.
  cbv zeta. unfold spec_add_assign.
  destruct (map_acc (spec_add_limb b) 0 _ 0) as [low carry]. cbn [fst snd].
  destruct (map_acc spec_carry_limb _ _ carry) as [high c]. reflexivity.
Qed.

Lemma spec_add_assign_val T b this :
  (sizeof el_t <= sizeof T)%nat -> 0 <= b < 2 ^ width T -> limbs_ok this ->
  let r := spec_add_assign (width T) b this in
  limbs_ok r /\ length r = length this /\
  val r = (val this + 1 * b) mod 2 ^ SIZE_IN_BITS this.
Proof.
  intros Hsz Hb Hok r. unfold r. rewrite spec_add_assign_as_passes. cbv zeta.
  rewrite (spec_k_limbs T _ Hsz).
  set (k := Nat.min (sizeof T / sizeof el_t) (length this)).
  assert (Hk : (k <= length this)%nat) by (unfold k; lia).
  destruct (two_passes_val 1 b (spec_add_limb b) spec_carry_limb
              (spec_add_limb_absorbs b) spec_carry_limb_propagates this k Hok Hk)
    as (H1 & H2 & H3).
  split; [assumption|]. split; [assumption|].
  rewrite H3, size_in_bits_pow. apply operand_mod; assumption.
Qed.

Lemma pluseq_uint_limbs_spec T b this :
  is_unsigned_v T = true -> (sizeof el_t <= sizeof T)%nat ->
  0 <= b < 2 ^ width T -> well_formed this ->
  exists r, pluseq_uint_limbs T b this = Returns r /\
    well_formed r /\ length r = length this /\
    val r = (val this + b) mod 2 ^ SIZE_IN_BITS this /\
    r = spec_add_assign (width T) b this.
Proof.
  intros Hu Hsz Hb Hwf. unfold pluseq_uint_limbs, assert_unsigned_int_type.
  rewrite Hu, (sizeof_multiple T Hsz). cbn [assert bind]. cbv zeta.
  destruct (addsub_limbs_spec 1 pluseq_absorb pluseq_propagate add_limb carry_limb
              pluseq_absorb_acts pluseq_propagate_acts add_limb_absorbs
              carry_limb_propagates T b this Hsz Hb Hwf) as (H1 & H2 & H3 & _).
  eexists. split; [reflexivity|]. split; [assumption|]. split; [assumption|].
  rewrite Z.mul_1_l in H3. split; [assumption|].
  destruct Hwf as [_ Hok]. destruct H1 as [_ H1].
  destruct (spec_add_assign_val T b this Hsz Hb Hok) as (S1 & S2 & S3).
  apply val_inj; try assumption; [congruence|].
  rewrite Z.mul_1_l in S3. congruence.
Qed.

Lemma minuseq_uint_limbs_spec T b this :
  is_unsigned_v T = true -> (sizeof el_t <= sizeof T)%nat ->
  0 <= b < 2 ^ width T -> well_formed this ->
  exists r, minuseq_uint_limbs T b this = Returns r /\
    well_formed r /\ length r = length this /\
    val r = (val this - b) mod 2 ^ SIZE_IN_BITS this.
Proof.
  intros Hu Hsz Hb Hwf. unfold minuseq_uint_limbs, assert_unsigned_int_type.
  rewrite Hu, (sizeof_multiple T Hsz). cbn [assert bind]. cbv zeta.
  destruct (addsub_limbs_spec (-1) minuseq_absorb minuseq_propagate sub_limb borrow_limb
              minuseq_absorb_acts minuseq_propagate_acts sub_limb_absorbs
              borrow_limb_propagates T b this Hsz Hb Hwf) as (H1 & H2 & H3 & _).
  eexists. split; [reflexivity|]. split; [assumption|]. split; [assumption|].
  rewrite H3. f_equal; lia.
Qed.

Lemma operator_pluseq_uint_spec T b this :
  is_unsigned_v T = true -> representable T b -> well_formed this ->
  exists r, operator_pluseq_uint T b this = Returns r /\
    well_formed r /\ length r = length this /\
    val r = (val this + b) mod 2 ^ SIZE_IN_BITS this /\
    r = spec_add_assign (width T) b this.
Proof.
  intros Hu Hb Hwf. apply (representable_unsigned T b Hu) in Hb.
  unfold operator_pluseq_uint, assert_unsigned_int_type. rewrite Hu. cbn [assert bind].
  destruct (sizeof T <? sizeof el_t)%nat eqn:Hn.
  - destruct (narrow_fits T b Hn Hb) as [Hb' Hc]. rewrite Hc.
    destruct (pluseq_uint_limbs_spec el_t b this eq_refl (Nat.le_refl _) Hb' Hwf)
      as (r & E & H1 & H2 & H3 & H4).
    exists r. repeat (split; [assumption|]).
    rewrite H4. unfold spec_add_assign. rewrite (spec_k_narrow T _ Hn). reflexivity.
  - apply Nat.ltb_ge in Hn. apply pluseq_uint_limbs_spec; assumption.
Qed.

Lemma operator_minuseq_uint_spec T b this :
  is_unsigned_v T = true -> representable T b -> well_formed this ->
  exists r, operator_minuseq_uint T b this = Returns r /\
    well_formed r /\ length r = length this /\
    val r = (val this - b) mod 2 ^ SIZE_IN_BITS this.
Proof.
  intros Hu Hb Hwf. apply (representable_unsigned T b Hu) in Hb.
  unfold operator_minuseq_uint, assert_unsigned_int_type. rewrite Hu. cbn [assert bind].
  destruct (sizeof T <? sizeof el_t)%nat eqn:Hn.
  - destruct (narrow_fits T b Hn Hb) as [Hb' Hc]. rewrite Hc.
    apply (minuseq_uint_limbs_spec el_t b this eq_refl (Nat.le_refl _) Hb' Hwf).
  - apply Nat.ltb_ge in Hn. apply minuseq_uint_limbs_spec; assumption.
Qed.

(** ** Signed operands of [+=] and [-=] *)

Ltac int_type_arith :=
  repeat progress
    (unfold representable, static_cast, unary_minus, promoted, width in *;
     cbn [is_unsigned_v make_unsigned_t sizeof Nat.ltb Nat.leb] in *);
  cbn [Z.of_nat Pos.of_succ_nat Pos.succ Z.mul Pos.mul Pos.add Z.sub Z.add Z.pos_sub
       Z.opp Z.succ_double Z.pred_double Z.double Pos.pred_double] in *;
  repeat match goal with
    | H : context [2 ^ Z.pos ?p] |- _ =>
        let v := eval vm_compute in (2 ^ Z.pos p) in change (2 ^ Z.pos p) with v in H
    | |- context [2 ^ Z.pos ?p] =>
        let v := eval vm_compute in (2 ^ Z.pos p) in change (2 ^ Z.pos p) with v
    end;
  repeat split; Z.div_mod_to_equations; lia.

(** The operand handed on by [+=] and [-=] for a negative [b] is the
    magnitude of [b], also for the most negative value of the type. *)
Lemma magnitude_of_negative T b :
  is_unsigned_v T = false -> representable T b -> b < 0 ->
  static_cast (make_unsigned_t T) (unary_minus T b) = - b /\
  representable (make_unsigned_t T) (- b).
Proof. intros Hs Hb Hneg. destruct T; try discriminate; int_type_arith. Qed.

Lemma cast_of_nonnegative T b :
  is_unsigned_v T = false -> representable T b -> 0 <= b ->
  static_cast (make_unsigned_t T) b = b /\ representable (make_unsigned_t T) b.
Proof. intros Hs Hb Hpos. destruct T; try discriminate; int_type_arith. Qed.

(** A value of the target type is not changed by the conversion. *)
Lemma static_cast_id T z : representable T z -> static_cast T z = z.
Proof. intros Hz. destruct T; int_type_arith. Qed.

Lemma make_unsigned_is_unsigned T : is_unsigned_v (make_unsigned_t T) = true.
Proof. destruct T; reflexivity. Qed.

Lemma operator_pluseq_spec T b this :
  representable T b -> well_formed this ->
  exists r, operator_pluseq T b this = Returns r /\
    well_formed r /\ length r = length this /\
    val r = (val this + b) mod 2 ^ SIZE_IN_BITS this.
Proof.
  intros Hb Hwf. unfold operator_pluseq.
  destruct (is_unsigned_v T) eqn:Hu.
  - destruct (operator_pluseq_uint_spec T b this Hu Hb Hwf) as (r & E & H1 & H2 & H3 & _).
    exists r. auto.
  - destruct (Z.geb_spec b 0) as [Hpos|Hneg]; cbv zeta.
    + destruct (cast_of_nonnegative T b Hu Hb ltac:(lia)) as [-> Hb'].
      destruct (operator_pluseq_uint_spec _ b this (make_unsigned_is_unsigned T) Hb' Hwf)
        as (r & E & H1 & H2 & H3 & _).
      exists r. auto.
    + destruct (magnitude_of_negative T b Hu Hb Hneg) as [-> Hb'].
      destruct (operator_minuseq_uint_spec _ (- b) this (make_unsigned_is_unsigned T) Hb' Hwf)
        as (r & E & H1 & H2 & H3).
      exists r. repeat (split; [assumption|]). rewrite H3. f_equal; lia.
Qed.

Lemma operator_minuseq_spec T b this :
  representable T b -> well_formed this ->
  exists r, operator_minuseq T b this = Returns r /\
    well_formed r /\ length r = length this /\
    val r = (val this - b) mod 2 ^ SIZE_IN_BITS this.
Proof.
  intros Hb Hwf. unfold operator_minuseq.
  destruct (is_unsigned_v T) eqn:Hu.
  - apply operator_minuseq_uint_spec; assumption.
  - destruct (Z.geb_spec b 0) as [Hpos|Hneg]; cbv zeta.
    + destruct (cast_of_nonnegative T b Hu Hb ltac:(lia)) as [-> Hb'].
      apply operator_minuseq_uint_spec; auto using make_unsigned_is_unsigned.
    + destruct (magnitude_of_negative T b Hu Hb Hneg) as [-> Hb'].
      destruct (operator_pluseq_uint_spec _ (- b) this (make_unsigned_is_unsigned T) Hb' Hwf)
        as (r & E & H1 & H2 & H3 & _).
      exists r. repeat (split; [assumption|]). rewrite H3. f_equal; lia.
Qed.

(** The negation of a value of a signed type is a value of some native
    type: of the type itself, or, for the most negative value, of a wider
    or unsigned one. *)
Lemma negation_has_a_type T b :
  is_unsigned_v T = false -> representable T b ->
  exists U, representable U (- b).
Proof.
  intros Hs Hb. destruct (Z.le_gt_cases b 0) as [Hneg|Hpos].
  - exists uint64_t. destruct T; try discriminate; int_type_arith.
  - exists T. destruct T; try discriminate; int_type_arith.
Qed.

(** ** Multiplication by a limb *)

Lemma muleq_step1_acts b : acts_as (muleq_step1 b) (mul_limb b).
Proof.
  intros pre x post tw. unfold muleq_step1, mul_limb. cbv zeta.
  repeat (rewrite el_at_mid || rewrite el_upd_mid). reflexivity.
Qed.

Lemma mul_limb_spec b i x tw :
  0 <= b < BASE -> 0 <= x < BASE -> 0 <= tw < BASE ->
  0 <= fst (mul_limb b i x tw) < BASE /\ 0 <= snd (mul_limb b i x tw) < BASE /\
  fst (mul_limb b i x tw) + BASE * snd (mul_limb b i x tw) = x * b + tw.
Proof.
  intros Hb Hx Htw. unfold mul_limb. cbv zeta. cbn [fst snd].
  rewrite (cast_small_tw x) by nia.
  rewrite (cast_small_tw (x * b)) by nia.
  rewrite (cast_small_tw (tw + x * b)) by nia.
  rewrite shiftr_limb, cast_el_t.
  pose proof BASE_pos as HB. set (t := tw + x * b).
  assert (Ht : 0 <= t < BASE * BASE) by (unfold t; nia).
  split; [apply Z.mod_pos_bound; lia|].
  split; [split; [apply Z.div_pos; lia | apply Z.div_lt_upper_bound; lia]|].
  pose proof (Z.div_mod t BASE ltac:(lia)). unfold t in *. lia.
Qed.

Lemma mul_pass b l :
  0 <= b < BASE ->
  forall i tw, limbs_ok l -> 0 <= tw < BASE ->
    limbs_ok (fst (map_acc (mul_limb b) i l tw)) /\
    0 <= snd (map_acc (mul_limb b) i l tw) < BASE /\
    val (fst (map_acc (mul_limb b) i l tw))
      + snd (map_acc (mul_limb b) i l tw) * BASE ^ Z.of_nat (length l)
    = val l * b + tw.
Proof.
  intros Hb. induction l as [|x l IH]; intros i tw Hl Htw; cbn [map_acc].
  - cbn [fst snd val length]. rewrite Z.pow_0_r.
    split; [constructor|]. split; [assumption|]. ring.
  - apply limbs_ok_cons in Hl. destruct Hl as [Hx Hl].
    destruct (mul_limb_spec b i x tw Hb Hx Htw) as (Hy & Ht1 & Hstep).
    destruct (mul_limb b i x tw) as [y t1]. cbn [fst snd] in *.
    destruct (IH (S i) t1 Hl Ht1) as (Hl' & Ht2 & Hrest).
    destruct (map_acc (mul_limb b) (S i) l t1) as [l' t2]. cbn [fst snd] in *.
    split; [apply limbs_ok_cons; auto|]. split; [assumption|].
    cbn [val length]. rewrite Nat2Z.inj_succ, Z.pow_succ_r by lia.
    nia.
Qed.

Lemma muleq_uint_limbs_spec b this :
  0 <= b < BASE -> well_formed this ->
  exists r, muleq_uint_limbs el_t b this = Returns r /\
    well_formed r /\ length r = length this /\
    val r = (val this * b) mod 2 ^ SIZE_IN_BITS this.
Proof.
  intros Hb [Hlen Hok]. unfold muleq_uint_limbs. cbn [assert_unsigned_int_type
    is_unsigned_v el_t assert bind sizeof Nat.modulo Nat.eqb Nat.divmod fst snd].
  cbv zeta. unfold SIZE_IN_ELS.
  pose proof (for_up_map_acc (muleq_step1 b) (mul_limb b) (muleq_step1_acts b) this [] [] 0)
    as Hloop.
  cbn [length app] in Hloop. rewrite !app_nil_r in Hloop. rewrite Hloop. clear Hloop.
  destruct (mul_pass b this Hb 0%nat 0 Hok ltac:(pose proof BASE_pos; lia))
    as (H1 & H2 & H3).
  pose proof (map_acc_length (mul_limb b) this 0 0) as Hl.
  destruct (map_acc (mul_limb b) 0 this 0) as [r t]. cbn [fst snd] in *.
  exists r. split; [reflexivity|]. split; [split; [lia|assumption]|].
  split; [assumption|].
  rewrite size_in_bits_pow.
  pose proof (val_bounds r H1) as Hr. rewrite Hl in Hr.
  apply (Z.mod_unique_pos _ _ t); [assumption|]. lia.
Qed.

Lemma operator_muleq_uint_spec T b this :
  is_unsigned_v T = true -> (sizeof T <= sizeof el_t)%nat ->
  representable T b -> well_formed this ->
  exists r, operator_muleq_uint T b this = Returns r /\
    well_formed r /\ length r = length this /\
    val r = (val this * b) mod 2 ^ SIZE_IN_BITS this.
Proof.
  intros Hu Hsz Hb Hwf. apply (representable_unsigned T b Hu) in Hb.
  unfold operator_muleq_uint, assert_unsigned_int_type. rewrite Hu. cbn [assert bind].
  destruct (sizeof T <? sizeof el_t)%nat eqn:Hn.
  - destruct (narrow_fits T b Hn Hb) as [Hb' Hc]. rewrite Hc.
    apply muleq_uint_limbs_spec; assumption.
  - apply Nat.ltb_ge in Hn.
    assert (T = el_t) as -> by (destruct T; cbn [sizeof el_t] in *; try discriminate; try lia; reflexivity).
    apply muleq_uint_limbs_spec; assumption.
Qed.

(** [*this *= b] for an [int] that is not negative. *)
Lemma operator_muleq_int_spec b this :
  0 <= b < 2 ^ 31 -> well_formed this ->
  exists r, operator_muleq int32_t b this = Returns r /\
    well_formed r /\ length r = length this /\
    val r = (val this * b) mod 2 ^ SIZE_IN_BITS this.
Proof.
  intros Hb Hwf. unfold operator_muleq. cbn [is_unsigned_v make_unsigned_t].
  destruct (Z.geb_spec b 0) as [_|Hneg]; [|lia]. cbv zeta.
  assert (Hr : representable int32_t b) by (unfold representable; cbn; lia).
  destruct (cast_of_nonnegative int32_t b eq_refl Hr ltac:(lia)) as [Hc Hb'].
  cbn [make_unsigned_t] in Hc, Hb'. rewrite Hc.
  apply operator_muleq_uint_spec; [reflexivity | cbn; lia | assumption | assumption].
Qed.

(** ** Comparison with a native value *)

Lemma for_up_nonzero suf :
  forall pre acc,
    for_up (length pre) (length suf)
           (fun i result => result || negb (el_at (pre ++ suf) i =? 0)) acc
    = acc || existsb nonzero suf.
Proof.
  induction suf as [|x suf IH]; intros pre acc; cbn [length for_up existsb].
  - rewrite orb_false_r. reflexivity.
  - rewrite el_at_mid.
    specialize (IH (pre ++ [x]) (acc || negb (x =? 0))).
    rewrite length_app, <- app_assoc in IH. cbn [length app] in IH.
    rewrite Nat.add_1_r in IH. rewrite IH. unfold nonzero. rewrite orb_assoc. reflexivity.
Qed.

Lemma is_nonzero_starting_at_el_spec k this :
  (k <= length this)%nat ->
  is_nonzero_starting_at_el k this = existsb nonzero (skipn k this).
Proof.
  intros Hk. unfold is_nonzero_starting_at_el, SIZE_IN_ELS.
  pose proof (for_up_nonzero (skipn k this) (firstn k this) false) as H.
  rewrite firstn_skipn, length_skipn, (firstn_length_le this Hk) in H.
  exact H.
Qed.

Lemma val_zero_iff l : limbs_ok l -> (val l = 0 <-> existsb nonzero l = false).
Proof.
  induction l as [|x l IH]; intros Hl; cbn [val existsb].
  - tauto.
  - apply limbs_ok_cons in Hl. destruct Hl as [Hx Hl]. specialize (IH Hl).
    pose proof (val_bounds l Hl) as Hv. pose proof BASE_pos.
    unfold nonzero at 1. rewrite orb_false_iff, negb_false_iff, Z.eqb_eq, <- IH.
    nia.
Qed.

Lemma as_uint_returns U this :
  is_unsigned_v U = true -> exists x, as_uint U this = Returns x.
Proof.
  intros Hu. unfold as_uint, assert_unsigned_int_type. rewrite Hu. cbn [assert bind].
  repeat match goal with |- context [if ?c then _ else _] => destruct c end;
    eexists; reflexivity.
Qed.

Lemma compare_uint_returns cmp high U b this :
  is_unsigned_v U = true -> exists r, compare_uint cmp high U b this = Returns r.
Proof.
  intros Hu. unfold compare_uint, assert_unsigned_int_type. rewrite Hu. cbn [assert bind].
  destruct (sizeof U <=? sizeof el_t)%nat eqn:Hsz.
  - replace (sizeof el_t mod sizeof U =? 0)%nat with true
      by (destruct U; try discriminate; reflexivity).
    cbn [assert bind]. eexists. reflexivity.
  - replace (sizeof U mod sizeof el_t =? 0)%nat with true
      by (destruct U; try discriminate; reflexivity).
    cbn [assert bind]. destruct (as_uint_returns U this Hu) as [x ->].
    cbn [bind]. eexists. reflexivity.
Qed.

(** A signed operand fails the unsignedness assertion of a [_uint] method. *)
Lemma compare_uint_signed cmp high T b this :
  is_unsigned_v T = false -> compare_uint cmp high T b this = AssertionFailed.
Proof.
  intros Hs. unfold compare_uint, assert_unsigned_int_type. rewrite Hs. reflexivity.
Qed.

(** [tmp != 0] of [uint_to_string]. *)
Lemma operator_neq_int_unfold b this :
  operator_neq int32_t b this
  = Returns ((b <? 0) || (negb (to_el_t this =? static_cast el_t (static_cast uint32_t b))
                        || is_nonzero_starting_at_el 1 this)).
Proof. reflexivity. Qed.

Lemma operator_neq_zero this :
  well_formed this -> operator_neq int32_t 0 this = Returns (negb (val this =? 0)).
Proof.
  intros [Hlen Hok]. destruct this as [|x t]; [cbn in Hlen; lia|].
  rewrite operator_neq_int_unfold.
  rewrite is_nonzero_starting_at_el_spec by (cbn; lia).
  change (static_cast el_t (static_cast uint32_t 0)) with 0.
  cbn [skipn to_el_t el_at nth Z.ltb Z.compare orb].
  f_equal.
  pose proof (val_zero_iff (x :: t) Hok) as Hz. cbn [existsb] in Hz. unfold nonzero at 1 in Hz.
  destruct (val (x :: t) =? 0) eqn:E.
  - apply Z.eqb_eq in E. apply Hz in E. rewrite E. reflexivity.
  - destruct (negb (x =? 0) || existsb nonzero t) eqn:E2; [reflexivity|].
    exfalso. apply Z.eqb_neq in E. apply E, Hz. reflexivity.
Qed.

(** ** Rendering in decimal *)

Lemma ten_is_limb : 0 < 10 < BASE.
Proof. rewrite BASE_eq. lia. Qed.

Lemma digit_char r :
  0 <= r <= 9 ->
  let c := char_of (char_val "0"%char + static_cast int8_t r) in
  digit_value c = r /\ is_nul c = false.
Proof.
  intros Hr.
  assert (Hcases : r = 0 \/ r = 1 \/ r = 2 \/ r = 3 \/ r = 4 \/ r = 5 \/ r = 6 \/ r = 7
                   \/ r = 8 \/ r = 9) by lia.
  repeat (destruct Hcases as [-> | Hcases]); try subst r; split; reflexivity.
Qed.

Lemma buf_write_mid w x free c :
  buf_write (w ++ x :: free) (length w) c = Returns (w ++ c :: free).
Proof. induction w as [|y w IH]; cbn [app length buf_write]; [reflexivity|]. rewrite IH. reflexivity. Qed.

Lemma uint_to_string_loop_spec room :
  forall (D : nat) w free tmp,
    length free = room -> well_formed tmp ->
    (1 <= D <= room)%nat -> val tmp < 10 ^ Z.of_nat D ->
    exists ds free',
      uint_to_string_loop room (w ++ free) tmp (length w)
      = Returns (w ++ ds ++ free', (length w + length ds)%nat) /\
      (length ds + length free' = room)%nat /\
      (1 <= length ds <= D)%nat /\
      Forall (fun c => is_digit c /\ is_nul c = false) ds /\
      lsd_value ds = val tmp /\
      (val tmp = 0 -> ds = ["0"%char]).
Proof.
  induction room as [|room IH]; intros D w free tmp Hfree Hwf HD Hval; [lia|].
  destruct free as [|x free]; [discriminate|]. injection Hfree as Hfree.
  cbn [uint_to_string_loop].
  rewrite (operator_mod_spec 10 ten_is_limb tmp Hwf).
  pose proof (operator_diveq_spec 10 ten_is_limb tmp Hwf) as Hdiv.
  destruct (operator_diveq 10 tmp) as [q rem]. destruct Hdiv as (Hq & Hqlen & Hqval & _).
  rewrite buf_write_mid. cbn [bind].
  rewrite (operator_neq_zero q Hq). cbn [bind].
  pose proof (val_bounds tmp (proj2 Hwf)) as Htmp.
  assert (Hr : 0 <= val tmp mod 10 <= 9) by (pose proof (Z.mod_pos_bound (val tmp) 10); lia).
  destruct (digit_char _ Hr) as [Hdv Hnn].
  set (c := char_of (char_val "0"%char + static_cast int8_t (val tmp mod 10))) in *.
  pose proof (Z.div_mod (val tmp) 10 ltac:(lia)) as Hdm.
  destruct (val q =? 0) eqn:Hz; cbn [negb].
  - apply Z.eqb_eq in Hz. exists [c], free. cbn [app length lsd_value].
    split; [rewrite Nat.add_1_r; reflexivity|].
    split; [lia|]. split; [lia|].
    split; [constructor; [split; [unfold is_digit; lia | assumption] | constructor]|].
    split; [lia|].
    intros H0. subst c. rewrite H0. reflexivity.
  - apply Z.eqb_neq in Hz.
    assert (Hq0 : 0 < val q).
    { rewrite Hqval in *. pose proof (Z.div_pos (val tmp) 10). lia. }
    assert (HD2 : (2 <= D)%nat).
    { destruct D as [|[|D]]; [lia | | lia]. change (10 ^ Z.of_nat 1) with 10 in Hval.
      rewrite Hqval in Hq0. rewrite Z.div_small in Hq0 by lia. lia. }
    assert (Hqlt : val q < 10 ^ Z.of_nat (D - 1)).
    { rewrite Hqval. apply Z.div_lt_upper_bound; [lia|].
      rewrite <- Z.pow_succ_r by lia. replace (Z.succ (Z.of_nat (D - 1))) with (Z.of_nat D) by lia.
      assumption. }
    specialize (IH (D - 1)%nat (w ++ [c]) free q Hfree Hq ltac:(lia) Hqlt).
    destruct IH as (ds & free' & E & Hlen & HlenD & Hdig & Hlsd & _).
    rewrite length_app, <- app_assoc in E. cbn [length app] in E.
    rewrite Nat.add_1_r in E. rewrite E.
    exists (c :: ds), free'. rewrite <- app_assoc. cbn [app length lsd_value].
    split; [do 2 f_equal; lia|].
    split; [lia|]. split; [lia|].
    split; [constructor; [split; [unfold is_digit; lia | assumption] | assumption]|].
    split; [lia|]. lia.
Qed.

Lemma c_string_until_nul ds rest :
  Forall (fun c => is_nul c = false) ds ->
  c_string (ds ++ NUL :: rest) = Returns (String.string_of_list_ascii ds).
Proof.
  induction ds as [|c ds IH]; intros H; cbn [app c_string String.string_of_list_ascii].
  - reflexivity.
  - inversion H as [|? ? Hc Hds]; subst. rewrite Hc, (IH Hds). reflexivity.
Qed.

Lemma uint_to_string_buf_spec size (D : nat) stack x :
  well_formed x -> (1 <= D)%nat -> (D + 1 <= size)%nat -> val x < 10 ^ Z.of_nat D ->
  exists ds,
    uint_to_string_buf size stack x = Returns (String.string_of_list_ascii (rev ds)) /\
    (1 <= length ds <= D)%nat /\
    Forall (fun c => is_digit c /\ is_nul c = false) ds /\
    lsd_value ds = val x /\
    (val x = 0 -> ds = ["0"%char]).
Proof.
  intros Hwf HD Hsize Hval. unfold uint_to_string_buf. cbv zeta.
  set (result := map stack (seq 0 size)).
  assert (Hres : length result = size) by (unfold result; rewrite length_map, length_seq; reflexivity).
  destruct (uint_to_string_loop_spec size D [] result x Hres Hwf ltac:(lia) Hval)
    as (ds & free' & E & Hlen & HlenD & Hdig & Hlsd & Hzero).
  cbn [app length Nat.add] in E. rewrite E. cbn [bind].
  destruct free' as [|y free']; [cbn [length] in Hlen; lia|].
  rewrite buf_write_mid. cbn [bind].
  rewrite firstn_app, skipn_app, Nat.sub_diag, firstn_all, skipn_all.
  cbn [firstn skipn app]. rewrite app_nil_r.
  rewrite c_string_until_nul.
  - exists ds. auto.
  - apply Forall_rev. eapply Forall_impl; [|exact Hdig]. cbn. tauto.
Qed.

(** ** Reading a decimal string *)

Lemma set_zero_spec this : set_zero this = zero_bui (length this).
Proof.
  unfold set_zero, set_zero_starting_at_el, SIZE_IN_ELS. rewrite Nat.sub_0_r.
  assert (H : forall suf pre,
             for_up (length pre) (length suf) (fun i el => el_upd el i 0) (pre ++ suf)
             = pre ++ zero_bui (length suf)).
  { induction suf as [|x suf IH]; intros pre; cbn [length for_up zero_bui repeat].
    - reflexivity.
    - rewrite el_upd_mid. specialize (IH (pre ++ [0])).
      rewrite length_app, <- !app_assoc in IH. cbn [length app] in IH.
      rewrite Nat.add_1_r in IH. exact IH. }
  exact (H this []).
Qed.

Lemma strlen_no_nul s :
  Forall (fun c => is_nul c = false) s ->
  strlen (String.string_of_list_ascii s) = length s.
Proof.
  induction s as [|c s IH]; intros H; cbn [String.string_of_list_ascii strlen length].
  - reflexivity.
  - inversion H as [|? ? Hc Hs]; subst. rewrite Hc, (IH Hs). reflexivity.
Qed.

Lemma horner_mod M s : forall a, horner (a mod M) s mod M = horner a s mod M.
Proof.
  unfold horner. induction s as [|c s IH]; intros a; cbn [fold_left].
  - apply Zmod_mod.
  - rewrite <- (IH (a mod M * 10 + digit_value c)), <- (IH (a * 10 + digit_value c)).
    replace ((a mod M * 10 + digit_value c) mod M) with ((a * 10 + digit_value c) mod M);
      [reflexivity|].
    symmetry.
    rewrite <- Zplus_mod_idemp_l, Zmult_mod_idemp_l, Zplus_mod_idemp_l. reflexivity.
Qed.

Lemma horner_rev ds : horner 0 (rev ds) = lsd_value ds.
Proof.
  unfold horner. induction ds as [|c ds IH]; cbn [rev lsd_value fold_left].
  - reflexivity.
  - rewrite fold_left_app. cbn [fold_left]. rewrite IH. ring.
Qed.

Lemma size_in_bits_length (a b : bui) :
  length a = length b -> SIZE_IN_BITS a = SIZE_IN_BITS b.
Proof. unfold SIZE_IN_BITS, SIZE_IN_ELS. intros ->. reflexivity. Qed.

Lemma set_from_str_loop_spec s :
  forall this,
    Forall (fun c => is_digit c /\ is_nul c = false) s -> well_formed this ->
    exists r,
      set_from_str_loop (length s) (String.string_of_list_ascii s) this = Returns r /\
      well_formed r /\ length r = length this /\
      val r = horner (val this) s mod 2 ^ SIZE_IN_BITS this.
Proof.
  induction s as [|c s IH]; intros this Hs Hwf;
    cbn [length String.string_of_list_ascii set_from_str_loop].
  - exists this. split; [reflexivity|]. split; [assumption|]. split; [reflexivity|].
    cbn [horner fold_left]. symmetry. apply Z.mod_small.
    rewrite size_in_bits_pow. apply val_bounds, Hwf.
  - inversion Hs as [|? ? [Hc _] Hs']; subst. unfold is_digit, digit_value in Hc.
    change (char_val "9"%char) with (char_val "0"%char + 9).
    replace (char_val c >=? char_val "0"%char) with true
      by (symmetry; apply Z.geb_le; lia).
    replace (char_val c <=? char_val "0"%char + 9) with true
      by (symmetry; apply Z.leb_le; lia).
    cbn [assert bind].
    destruct (operator_muleq_int_spec 10 this ltac:(lia) Hwf) as (t1 & E1 & W1 & L1 & V1).
    rewrite E1. cbn [bind]. fold (digit_value c).
    assert (Hd : 0 <= digit_value c < BASE) by (unfold digit_value; rewrite BASE_eq; lia).
    rewrite (cast_small_el _ Hd).
    assert (Hrep : representable el_t (digit_value c)) by exact Hd.
    destruct (operator_pluseq_spec el_t (digit_value c) t1 Hrep W1) as (t2 & E2 & W2 & L2 & V2).
    rewrite E2. cbn [bind].
    destruct (IH t2 Hs' W2) as (r & E & W & L & V).
    exists r. split; [assumption|]. split; [assumption|]. split; [congruence|].
    rewrite V, V2, V1.
    rewrite (size_in_bits_length t2 this), (size_in_bits_length t1 this) by congruence.
    rewrite horner_mod.
    set (M := 2 ^ SIZE_IN_BITS this).
    rewrite <- (horner_mod M s ((val this * 10) mod M + digit_value c)).
    rewrite Zplus_mod_idemp_l. rewrite horner_mod. reflexivity.
Qed.


(** ** The digit buffer is large enough *)

Lemma LOG_BASE10_2_nearest :
  let l := 301029995663981195 in
  2 * Z.abs (5422874305198591 * 10 ^ 18 - l * 2 ^ 54) <= 10 ^ 18 /\
  2 ^ 52 <= 5422874305198591 < 2 ^ 53.
Proof. cbv zeta. split; [|split]; vm_compute; congruence. Qed.

Lemma pow5_step_lower m e :
  0 < m -> 0 <= e ->
  0 < fst (pow5_step false (m, e)) /\ 0 <= snd (pow5_step false (m, e)) /\
  fst (pow5_step false (m, e)) * 2 ^ snd (pow5_step false (m, e)) <= 5 * (m * 2 ^ e).
Proof.
  intros Hm He. unfold pow5_step.
  assert (HP : 0 < 2 ^ e) by (apply Z.pow_pos_nonneg; lia).
  destruct (Z.ltb_spec (5 * m) (2 ^ 64)) as [Hsmall|Hbig]; cbn [fst snd].
  - split; [lia|]. split; [lia|]. nia.
  - change (2 ^ 64) with 18446744073709551616 in Hbig.
    rewrite Z.pow_add_r by lia. change (2 ^ 3) with 8.
    pose proof (Z.div_mod (5 * m) 8 ltac:(lia)) as Hdm.
    pose proof (Z.mod_pos_bound (5 * m) 8 ltac:(lia)) as Hmod.
    split; [nia|]. split; [lia|]. nia.
Qed.

Lemma pow5_step_upper m e :
  0 < m -> 0 <= e ->
  0 < fst (pow5_step true (m, e)) /\ 0 <= snd (pow5_step true (m, e)) /\
  5 * (m * 2 ^ e) <= fst (pow5_step true (m, e)) * 2 ^ snd (pow5_step true (m, e)).
Proof.
  intros Hm He. unfold pow5_step.
  assert (HP : 0 < 2 ^ e) by (apply Z.pow_pos_nonneg; lia).
  destruct (Z.ltb_spec (5 * m) (2 ^ 64)) as [Hsmall|Hbig]; cbn [fst snd].
  - split; [lia|]. split; [lia|]. nia.
  - change (2 ^ 64) with 18446744073709551616 in Hbig.
    rewrite Z.pow_add_r by lia. change (2 ^ 3) with 8.
    pose proof (Z.div_mod (5 * m + 7) 8 ltac:(lia)) as Hdm.
    pose proof (Z.mod_pos_bound (5 * m + 7) 8 ltac:(lia)) as Hmod.
    split; [nia|]. split; [lia|]. nia.
Qed.

Lemma pow5_lower_spec k :
  0 < fst (pow5_bound false k) /\ 0 <= snd (pow5_bound false k) /\
  fst (pow5_bound false k) * 2 ^ snd (pow5_bound false k) <= 5 ^ Z.of_nat k.
Proof.
  unfold pow5_bound. induction k as [|k IH].
  - cbn. lia.
  - rewrite Nat2Z.inj_succ, Z.pow_succ_r by lia. rewrite Nat.iter_succ.
    destruct (Nat.iter k (pow5_step false) (1, 0)) as [m e]. cbn [fst snd] in IH.
    destruct IH as (Hm & He & Hb).
    destruct (pow5_step_lower m e Hm He) as (H1 & H2 & H3).
    split; [assumption|]. split; [assumption|]. lia.
Qed.

Lemma pow5_upper_spec k :
  0 < fst (pow5_bound true k) /\ 0 <= snd (pow5_bound true k) /\
  5 ^ Z.of_nat k <= fst (pow5_bound true k) * 2 ^ snd (pow5_bound true k).
Proof.
  unfold pow5_bound. induction k as [|k IH].
  - cbn. lia.
  - rewrite Nat2Z.inj_succ, Z.pow_succ_r by lia. rewrite Nat.iter_succ.
    destruct (Nat.iter k (pow5_step true) (1, 0)) as [m e]. cbn [fst snd] in IH.
    destruct IH as (Hm & He & Hb).
    destruct (pow5_step_upper m e Hm He) as (H1 & H2 & H3).
    split; [assumption|]. split; [assumption|]. lia.
Qed.

Lemma pow10_split p : 0 <= p -> 10 ^ p = 2 ^ p * 5 ^ p.
Proof. intros Hp. rewrite <- Z.pow_mul_l. reflexivity. Qed.

Lemma pow2_le_pow10_sound p q : pow2_le_pow10_check p q = true -> 2 ^ q <= 10 ^ p.
Proof.
  unfold pow2_le_pow10_check.
  destruct (pow5_lower_spec (Z.to_nat p)) as (Hm & He & Hb).
  destruct (pow5_bound false (Z.to_nat p)) as [m e]. cbn [fst snd] in *.
  intros H. apply andb_prop in H. destruct H as [H H3].
  apply andb_prop in H. destruct H as [H1 H2].
  apply Z.leb_le in H1, H2, H3. rewrite Z2Nat.id in Hb by assumption.
  rewrite (pow10_split p H1).
  replace q with (p + (e + (q - p - e))) by lia.
  rewrite !Z.pow_add_r by lia.
  assert (0 < 2 ^ p) by (apply Z.pow_pos_nonneg; lia).
  assert (0 < 2 ^ e) by (apply Z.pow_pos_nonneg; lia).
  apply Z.mul_le_mono_nonneg_l; [lia|].
  apply Z.le_trans with (m * 2 ^ e); [|assumption].
  rewrite Z.mul_comm. apply Z.mul_le_mono_nonneg_r; lia.
Qed.

Lemma pow10_le_pow2_sound p q : pow10_le_pow2_check p q = true -> 10 ^ p <= 2 ^ q.
Proof.
  unfold pow10_le_pow2_check.
  destruct (pow5_upper_spec (Z.to_nat p)) as (Hm & He & Hb).
  destruct (pow5_bound true (Z.to_nat p)) as [m e]. cbn [fst snd] in *.
  intros H. apply andb_prop in H. destruct H as [H H3].
  apply andb_prop in H. destruct H as [H1 H2].
  apply Z.leb_le in H1, H2, H3. rewrite Z2Nat.id in Hb by assumption.
  rewrite (pow10_split p H1).
  replace q with (p + (e + (q - p - e))) by lia.
  rewrite !Z.pow_add_r by lia.
  assert (0 < 2 ^ p) by (apply Z.pow_pos_nonneg; lia).
  assert (0 < 2 ^ e) by (apply Z.pow_pos_nonneg; lia).
  apply Z.mul_le_mono_nonneg_l; [lia|].
  apply Z.le_trans with (m * 2 ^ e); [assumption|].
  rewrite Z.mul_comm. apply Z.mul_le_mono_nonneg_l; lia.
Qed.

Lemma log10_2_upper : 2 ^ 42039 <= 10 ^ 12655.
Proof. apply pow2_le_pow10_sound. vm_compute. reflexivity. Qed.

Lemma log10_2_lower : 10 ^ 8651 <= 2 ^ 28738.
Proof. apply pow10_le_pow2_sound. vm_compute. reflexivity. Qed.

Lemma digits_checked : forallb digits_check (seq 1 CHECKED_ELS) = true.
Proof. vm_compute. reflexivity. Qed.

Section RationalBounds.

Variables p q : Z.
Hypothesis p_pos : 0 < p.
Hypothesis q_pos : 0 < q.

(** [log10 2 <= p/q] and [N * (p/q) <= D] give [2^N <= 10^D]. *)
Lemma pow2_le_pow10 N D :
  2 ^ q <= 10 ^ p -> 0 <= N -> 0 <= D -> N * p <= D * q -> 2 ^ N <= 10 ^ D.
Proof.
  intros Hpq HN HD H.
  apply (Z.pow_le_mono_l_iff _ _ q); try lia; try (apply Z.pow_nonneg; lia).
  rewrite <- !Z.pow_mul_r by lia.
  apply Z.le_trans with (10 ^ (N * p)).
  - rewrite (Z.mul_comm N q), (Z.mul_comm N p), !Z.pow_mul_r by lia.
    apply Z.pow_le_mono_l. split; [apply Z.pow_nonneg; lia | assumption].
  - apply Z.pow_le_mono_r; lia.
Qed.

(** [p/q <= log10 2] and [D < N * (p/q)] give [10^D < 2^N]. *)
Lemma pow10_lt_pow2 N D :
  10 ^ p <= 2 ^ q -> 0 <= N -> 0 <= D -> D * q < N * p -> 10 ^ D < 2 ^ N.
Proof.
  intros Hpq HN HD H.
  apply (Z.pow_lt_mono_l_iff _ _ q); try lia; try (apply Z.pow_nonneg; lia).
  rewrite <- !Z.pow_mul_r by lia.
  apply Z.lt_le_trans with (10 ^ (N * p)).
  - apply Z.pow_lt_mono_r; lia.
  - rewrite (Z.mul_comm N q), (Z.mul_comm N p), !Z.pow_mul_r by lia.
    apply Z.pow_le_mono_l. split; [apply Z.pow_nonneg; lia | assumption].
Qed.

End RationalBounds.

Lemma max_digits_ceil (n : nat) :
  (1 <= n <= CHECKED_ELS)%nat ->
  let N := Z.of_nat n * EL_SIZE_IN_BITS in
  1 <= MAX_DIGITS N /\ is_ceil_log10_pow2 N (MAX_DIGITS N).
Proof.
  intros Hn N.
  pose proof digits_checked as Hall. rewrite forallb_forall in Hall.
  specialize (Hall n ltac:(apply in_seq; lia)).
  unfold digits_check in Hall. cbv zeta in Hall. fold N in Hall.
  apply andb_prop in Hall. destruct Hall as [Hall H3].
  apply andb_prop in Hall. destruct Hall as [H1 H2].
  apply Z.leb_le in H1, H2. apply Z.ltb_lt in H3.
  assert (HN : 0 <= N) by (unfold N; rewrite EL_SIZE_IN_BITS_eq; lia).
  split; [assumption|]. split.
  - apply (pow10_lt_pow2 8651 28738 eq_refl eq_refl _ _ log10_2_lower); lia.
  - apply (pow2_le_pow10 12655 42039 eq_refl eq_refl _ _ log10_2_upper); lia.
Qed.

(** ** The exact ceiling *)






(** A buffer for [D] digits and the terminator suffices as soon as
    [2^N <= 10^D]. *)
Lemma uint_to_string_buf_fits size D stack x :
  well_formed x -> 2 ^ SIZE_IN_BITS x <= 10 ^ D -> D + 1 <= Z.of_nat size ->
  exists ds,
    uint_to_string_buf size stack x = Returns (String.string_of_list_ascii (rev ds)) /\
    1 <= Z.of_nat (length ds) <= D /\
    Forall (fun c => is_digit c /\ is_nul c = false) ds /\
    lsd_value ds = val x /\
    (val x = 0 -> ds = ["0"%char]).
Proof.
  intros Hwf HD Hsize.
  pose proof (val_bounds x (proj2 Hwf)) as Hv. rewrite <- size_in_bits_pow in Hv.
  assert (H1 : 1 <= D).
  { destruct (Z.lt_ge_cases D 1) as [Hlt|]; [|assumption]. exfalso.
    assert (10 ^ D <= 1).
    { destruct (Z.eq_dec D 0) as [->|]; [rewrite Z.pow_0_r; lia|].
      rewrite Z.pow_neg_r by lia. lia. }
    assert (2 ^ 1 <= 2 ^ SIZE_IN_BITS x).
    { apply Z.pow_le_mono_r; [lia|]. destruct Hwf as [Hlen _].
      unfold SIZE_IN_BITS, SIZE_IN_ELS. rewrite EL_SIZE_IN_BITS_eq. lia. }
    change (2 ^ 1) with 2 in *. lia. }
  destruct (uint_to_string_buf_spec size (Z.to_nat D) stack x Hwf ltac:(lia) ltac:(lia))
    as (ds & E & Hlen & Hrest).
  { rewrite Z2Nat.id by lia. lia. }
  exists ds. split; [assumption|]. split; [lia | assumption].
Qed.


(** ** Shifts toward lower bit indices *)

Lemma last_cons_default (y : Z) suf x : last (y :: suf) x = last suf y.
Proof.
  revert x y. induction suf as [|z suf IH]; intros x y; [reflexivity|].
  change (last (y :: z :: suf) x) with (last (z :: suf) x).
  rewrite (IH x z). symmetry. apply IH.
Qed.

Lemma loshift_1el_loop suf :
  forall pre x,
    for_up (length pre) (length suf) (fun i el => el_upd el i (el_at el (i + 1)))
           (pre ++ x :: suf)
    = pre ++ suf ++ [last suf x].
Proof.
  induction suf as [|y suf IH]; intros pre x; cbn [length for_up].
  - reflexivity.
  - replace (el_at (pre ++ x :: y :: suf) (length pre + 1)) with y.
    + rewrite el_upd_mid. specialize (IH (pre ++ [y]) y).
      rewrite length_app, <- app_assoc in IH. cbn [length app] in IH.
      rewrite Nat.add_1_r in IH. rewrite IH, <- app_assoc. cbn [app].
      rewrite last_cons_default. reflexivity.
    + change (pre ++ x :: y :: suf) with (pre ++ [x] ++ y :: suf).
      rewrite app_assoc.
      replace (length pre + 1)%nat with (length (pre ++ [x]))
        by (rewrite length_app; reflexivity).
      rewrite el_at_mid. reflexivity.
Qed.

Lemma loshift_1el_spec x t : loshift_1el (x :: t) = t ++ [0].
Proof.
  unfold loshift_1el, SIZE_IN_ELS. cbn [length]. 
  replace (S (length t) - 1)%nat with (length t) by lia.
  pose proof (loshift_1el_loop t [] x) as H. cbn [length app] in H. rewrite H.
  apply (el_upd_mid t (last t x) [] 0).
Qed.

Lemma loshift_1el_val this :
  well_formed this ->
  well_formed (loshift_1el this) /\ length (loshift_1el this) = length this /\
  val (loshift_1el this) = val this / BASE.
Proof.
  intros [Hlen Hok]. destruct this as [|x t]; [cbn in Hlen; lia|].
  rewrite loshift_1el_spec. apply limbs_ok_cons in Hok. destruct Hok as [Hx Ht].
  pose proof BASE_pos as HB.
  split; [split|split].
  - rewrite length_app. cbn. lia.
  - apply limbs_ok_app. split; [assumption|]. apply limbs_ok_cons. split; [lia|constructor].
  - rewrite length_app. cbn. lia.
  - rewrite val_app. cbn [val].
    rewrite (Z.mul_comm BASE (val t)), Z.div_add, Z.div_small by lia. ring.
Qed.

Lemma loshift_els_val c :
  forall this, well_formed this ->
    well_formed (loshift_els c this) /\ length (loshift_els c this) = length this /\
    val (loshift_els c this) = val this / BASE ^ Z.of_nat c.
Proof.
  induction c as [|c IH]; intros this Hwf.
  - change (loshift_els 0 this) with this. rewrite Z.pow_0_r, Z.div_1_r. auto.
  - change (loshift_els (S c) this) with (loshift_1el (loshift_els c this)).
    destruct (IH this Hwf) as (W & L & V).
    destruct (loshift_1el_val _ W) as (W' & L' & V').
    split; [assumption|]. split; [congruence|].
    rewrite V', V, Nat2Z.inj_succ, Z.pow_succ_r by lia.
    pose proof BASE_pos.
    assert (0 < BASE ^ Z.of_nat c) by (apply Z.pow_pos_nonneg; lia).
    rewrite Z.div_div by lia.
    f_equal. ring.
Qed.

Lemma el_at_next pre x y post : el_at (pre ++ x :: y :: post) (S (length pre)) = y.
Proof.
  replace (pre ++ x :: y :: post) with ((pre ++ [x]) ++ y :: post)
    by (rewrite <- app_assoc; reflexivity).
  replace (S (length pre)) with (length (pre ++ [x])) by (rewrite length_app; cbn; lia).
  apply el_at_mid.
Qed.

Lemma loshift_bits_loop W suf :
  forall pre prev,
    for_up (S (length pre)) (length suf) (loshift_bits_step W) (pre ++ prev :: suf)
    = pre ++ shr_pass W prev suf.
Proof.
  induction suf as [|y suf IH]; intros pre prev; cbn [length for_up shr_pass].
  - reflexivity.
  - unfold loshift_bits_step at 2. cbn [Nat.sub]. rewrite Nat.sub_0_r.
    rewrite el_at_mid, el_at_next, el_upd_mid.
    set (prev' := Z.lor prev _).
    replace (pre ++ prev' :: y :: suf) with ((pre ++ [prev']) ++ y :: suf)
      by (rewrite <- app_assoc; reflexivity).
    replace (S (length pre)) with (length (pre ++ [prev']))
      by (rewrite length_app; cbn; lia).
    rewrite el_at_mid, el_upd_mid.
    replace (pre ++ [prev'] ++ Z.shiftr y W :: suf)
      with ((pre ++ [prev']) ++ Z.shiftr y W :: suf) by (rewrite <- app_assoc; reflexivity).
    rewrite IH, <- app_assoc. reflexivity.
Qed.

Lemma loshift_bits_spec W x t : loshift_bits W (x :: t) = shr_pass W (Z.shiftr x W) t.
Proof.
  unfold loshift_bits, SIZE_IN_ELS. cbn [length el_upd el_at nth].
  replace (S (length t) - 1)%nat with (length t) by lia.
  apply (loshift_bits_loop W t [] (Z.shiftr x W)).
Qed.

Section SubLimbShift.

Variable W : Z.
Hypothesis W_range : 0 < W < EL_SIZE_IN_BITS.

Lemma base_split : BASE = (2 ^ W) * (2 ^ (EL_SIZE_IN_BITS - W)).
Proof.
  unfold BASE. rewrite <- Z.pow_add_r by lia. f_equal. lia.
Qed.

Lemma split_pos : 0 < (2 ^ W) /\ 0 < (2 ^ (EL_SIZE_IN_BITS - W)).
Proof. split; apply Z.pow_pos_nonneg; lia. Qed.

(** [el[i - 1] |= el[i] << (EL_SIZE_IN_BITS - WIDTH)] on a limb that was
    shifted before. *)
Lemma merge_limbs x y :
  0 <= x < BASE -> 0 <= y < BASE ->
  Z.lor (Z.shiftr x W) (static_cast el_t (Z.shiftl y (EL_SIZE_IN_BITS - W)))
  = x / (2 ^ W) + (y mod (2 ^ W)) * (2 ^ (EL_SIZE_IN_BITS - W)).
Proof.
  intros Hx Hy. destruct split_pos as [HP HQ]. pose proof base_split as HB.
  rewrite Z.shiftr_div_pow2, Z.shiftl_mul_pow2, cast_el_t by lia.
  rewrite HB, Z.mul_mod_distr_r by lia.
  rewrite Z.lor_comm.
  rewrite lor_mul_pow2_low; [ring | lia |].
  split; [apply Z.div_pos; lia|].
  apply Z.div_lt_upper_bound; lia.
Qed.

Lemma shr_pass_val l :
  forall x, limbs_ok l -> 0 <= x < BASE ->
    limbs_ok (shr_pass W (Z.shiftr x W) l) /\
    length (shr_pass W (Z.shiftr x W) l) = S (length l) /\
    val (shr_pass W (Z.shiftr x W) l) = (x + BASE * val l) / (2 ^ W).
Proof.
  destruct split_pos as [HP HQ]. pose proof base_split as HB.
  induction l as [|y l IH]; intros x Hl Hx; cbn [shr_pass length val].
  - rewrite Z.shiftr_div_pow2 by lia.
    rewrite Z.mul_0_r, !Z.add_0_r.
    assert (0 <= x / (2 ^ W) < BASE).
    { split; [apply Z.div_pos; lia | apply Z.div_lt_upper_bound; nia]. }
    split; [apply limbs_ok_cons; split; [assumption | constructor]|].
    split; [reflexivity | lia].
  - apply limbs_ok_cons in Hl. destruct Hl as [Hy Hl].
    destruct (IH y Hl Hy) as (Hok & Hlen & Hval).
    rewrite merge_limbs by assumption.
    pose proof (Z.mod_pos_bound y (2 ^ W) HP) as Hym.
    assert (Hxq : 0 <= x / (2 ^ W) < (2 ^ (EL_SIZE_IN_BITS - W))).
    { split; [apply Z.div_pos; lia | apply Z.div_lt_upper_bound; lia]. }
    split; [apply limbs_ok_cons; split; [nia | assumption]|].
    split; [rewrite Hlen; reflexivity|].
    rewrite Hval.
    replace (x + BASE * (y + BASE * val l)) with (x + ((2 ^ (EL_SIZE_IN_BITS - W)) * (y + BASE * val l)) * (2 ^ W))
      by (rewrite HB; ring).
    replace (y + BASE * val l) with (y + ((2 ^ (EL_SIZE_IN_BITS - W)) * val l) * (2 ^ W)) at 1 by (rewrite HB; ring).
    rewrite !Z.div_add by lia.
    pose proof (Z.div_mod y (2 ^ W) ltac:(lia)) as Hdm.
    rewrite HB. set (yq := y / (2 ^ W)) in *. set (ym := y mod (2 ^ W)) in *.
    clearbody yq ym. nia.
Qed.

Lemma loshift_bits_val this :
  well_formed this ->
  well_formed (loshift_bits W this) /\ length (loshift_bits W this) = length this /\
  val (loshift_bits W this) = val this / 2 ^ W.
Proof.
  intros [Hlen Hok]. destruct this as [|x t]; [cbn in Hlen; lia|].
  rewrite loshift_bits_spec. apply limbs_ok_cons in Hok. destruct Hok as [Hx Ht].
  destruct (shr_pass_val t x Ht Hx) as (H1 & H2 & H3).
  split; [split; [rewrite H2; lia | assumption]|].
  split; [rewrite H2; reflexivity | exact H3].
Qed.

End SubLimbShift.

(** ** Bit length *)

Lemma testbit_top (k x : Z) :
  0 <= k -> 0 <= x < 2 ^ (k + 1) -> (Z.testbit x k = true <-> 2 ^ k <= x).
Proof.
  intros Hk Hx.
  assert (HP : 0 < 2 ^ k) by (apply Z.pow_pos_nonneg; lia).
  rewrite Z.pow_add_r, Z.pow_1_r in Hx by lia.
  pose proof (Z.testbit_spec' x k Hk) as Hb.
  assert (Hq : 0 <= x / 2 ^ k < 2).
  { split; [apply Z.div_pos; lia | apply Z.div_lt_upper_bound; lia]. }
  rewrite Z.mod_small in Hb by assumption.
  pose proof (Z.div_mod x (2 ^ k) ltac:(lia)) as Hdm.
  pose proof (Z.mod_pos_bound x (2 ^ k) HP) as Hm.
  destruct (Z.testbit x k); cbn [Z.b2z] in Hb; split; intros H; try discriminate;
    try reflexivity; nia.
Qed.

Lemma clz_scan_spec k :
  forall x, 0 < x < 2 ^ Z.of_nat k -> clz_scan k x = Z.of_nat k - (Z.log2 x + 1).
Proof.
  induction k as [|k IH]; intros x Hx.
  - cbn in Hx. lia.
  - cbn [clz_scan]. rewrite Nat2Z.inj_succ, <- Z.add_1_r in *.
    pose proof (testbit_top (Z.of_nat k) x ltac:(lia) ltac:(lia)) as Htop.
    destruct (Z.testbit x (Z.of_nat k)).
    + assert (Hge : 2 ^ Z.of_nat k <= x) by (apply Htop; reflexivity).
      rewrite (Z.log2_unique x (Z.of_nat k)); [lia | lia |].
      rewrite <- Z.add_1_r. lia.
    + assert (Hlt : x < 2 ^ Z.of_nat k).
      { destruct (Z.lt_ge_cases x (2 ^ Z.of_nat k)) as [|Hge]; [assumption|].
        apply Htop in Hge. discriminate. }
      rewrite IH by lia. lia.
Qed.

(** Leading zeros of a nonzero value of an unsigned type. *)
Lemma wrapped_builtin_clz_spec T x :
  is_unsigned_v T = true -> 0 < x < 2 ^ width T ->
  wrapped_builtin_clz T x = width T - (Z.log2 x + 1).
Proof.
  intros Hu Hx. unfold wrapped_builtin_clz, builtin_clz, builtin_clzl.
  assert (H32 : 2 ^ 8 < 2 ^ 16 < 2 ^ 32 /\ 2 ^ 32 < 2 ^ 64) by (cbn; lia).
  destruct T; try discriminate; cbn [sizeof Nat.eqb];
    match goal with
    | |- context [width ?U] =>
        let w := eval cbv in (width U) in change (width U) with w in *
    end;
    match goal with
    | |- context [static_cast ?U x] => change (static_cast U x) with (x mod 2 ^ width U)
    end;
    match goal with
    | |- context [width ?U] =>
        let w := eval cbv in (width U) in change (width U) with w in *
    end;
    rewrite Z.mod_small by lia;
    match goal with
    | |- context [clz_scan ?k x] =>
        let kz := eval cbv in (Z.of_nat k) in
        rewrite (clz_scan_spec k x) by (change (Z.of_nat k) with kz; lia);
        change (Z.of_nat k) with kz
    end;
    lia.
Qed.

Lemma bitlen_limb x : 0 < x < BASE -> bitlen el_t x = Z.log2 x + 1.
Proof.
  intros Hx. unfold bitlen.
  destruct (Z.eqb_spec x 0) as [|_]; [lia|].
  rewrite wrapped_builtin_clz_spec by (try reflexivity; exact Hx).
  change (Z.of_nat (sizeof el_t) * 8) with (width el_t). lia.
Qed.

(** The native [bitlen(x)]: the width for [x = 0], otherwise the width
    minus the number of leading zero bits, [floor(log2 x) + 1] for a value
    of an unsigned type. *)
Lemma bitlen_native T x :
  bitlen T 0 = width T /\
  (x <> 0 -> bitlen T x = width T - wrapped_builtin_clz T x) /\
  (is_unsigned_v T = true -> 0 < x < 2 ^ width T -> bitlen T x = Z.log2 x + 1).
Proof.
  split; [reflexivity|]. split.
  - intros Hx. unfold bitlen. destruct (Z.eqb_spec x 0); [contradiction | reflexivity].
  - intros Hu Hx. unfold bitlen. destruct (Z.eqb_spec x 0) as [|_]; [lia|].
    rewrite wrapped_builtin_clz_spec by assumption. fold (width T). lia.
Qed.

(** ** Zero tests and clearing of the upper limbs *)

Lemma for_up_set_zero suf :
  forall pre,
    for_up (length pre) (length suf) (fun i el => el_upd el i 0) (pre ++ suf)
    = pre ++ zero_bui (length suf).
Proof.
  induction suf as [|x suf IH]; intros pre; cbn [length for_up zero_bui repeat].
  - reflexivity.
  - rewrite el_upd_mid. specialize (IH (pre ++ [0])).
    rewrite length_app, <- !app_assoc in IH. cbn [length app] in IH.
    rewrite Nat.add_1_r in IH. exact IH.
Qed.

Lemma set_zero_starting_at_el_spec k this :
  set_zero_starting_at_el k this = firstn k this ++ zero_bui (length this - k).
Proof.
  unfold set_zero_starting_at_el, SIZE_IN_ELS.
  destruct (Nat.le_gt_cases k (length this)) as [Hk|Hk].
  - pose proof (for_up_set_zero (skipn k this) (firstn k this)) as H.
    rewrite firstn_skipn, length_skipn, (firstn_length_le this Hk) in H. exact H.
  - replace (length this - k)%nat with 0%nat by lia. cbn [for_up zero_bui repeat].
    rewrite firstn_all2 by lia. rewrite app_nil_r. reflexivity.
Qed.

Lemma for_up_all_zero suf :
  forall pre acc,
    for_up (length pre) (length suf)
           (fun i result => result && (el_at (pre ++ suf) i =? 0)) acc
    = acc && negb (existsb nonzero suf).
Proof.
  induction suf as [|x suf IH]; intros pre acc; cbn [length for_up existsb].
  - rewrite andb_true_r. reflexivity.
  - rewrite el_at_mid.
    specialize (IH (pre ++ [x]) (acc && (x =? 0))).
    rewrite length_app, <- app_assoc in IH. cbn [length app] in IH.
    rewrite Nat.add_1_r in IH. rewrite IH. unfold nonzero at 2.
    rewrite negb_orb, negb_involutive, andb_assoc. reflexivity.
Qed.

Lemma is_nonzero_starting_at_el_any k this :
  is_nonzero_starting_at_el k this = existsb nonzero (skipn k this).
Proof.
  destruct (Nat.le_gt_cases k (length this)) as [Hk|Hk].
  - apply is_nonzero_starting_at_el_spec, Hk.
  - unfold is_nonzero_starting_at_el, SIZE_IN_ELS.
    replace (length this - k)%nat with 0%nat by lia.
    rewrite skipn_all2 by lia. reflexivity.
Qed.

Lemma is_zero_starting_at_el_any k this :
  is_zero_starting_at_el k this = negb (existsb nonzero (skipn k this)).
Proof.
  unfold is_zero_starting_at_el, SIZE_IN_ELS.
  destruct (Nat.le_gt_cases k (length this)) as [Hk|Hk].
  - pose proof (for_up_all_zero (skipn k this) (firstn k this) true) as H.
    rewrite firstn_skipn, length_skipn, (firstn_length_le this Hk) in H. exact H.
  - replace (length this - k)%nat with 0%nat by lia.
    rewrite skipn_all2 by lia. reflexivity.
Qed.

Lemma limbs_ok_firstn k l : limbs_ok l -> limbs_ok (firstn k l).
Proof.
  intros H. rewrite <- (firstn_skipn k l) in H. apply limbs_ok_app in H. apply H.
Qed.

Lemma limbs_ok_skipn k l : limbs_ok l -> limbs_ok (skipn k l).
Proof.
  intros H. rewrite <- (firstn_skipn k l) in H. apply limbs_ok_app in H. apply H.
Qed.

(** The limbs below index [k] hold the value modulo [BASE^k], the limbs
    from [k] on the quotient. *)
Lemma val_split k l :
  limbs_ok l ->
  val (firstn k l) = val l mod BASE ^ Z.of_nat k /\
  val (skipn k l) = val l / BASE ^ Z.of_nat k.
Proof.
  intros Hl. pose proof BASE_pos as HB.
  assert (HP : 0 < BASE ^ Z.of_nat k) by (apply Z.pow_pos_nonneg; lia).
  pose proof (val_bounds _ (limbs_ok_firstn k l Hl)) as Hf.
  pose proof (val_bounds _ (limbs_ok_skipn k l Hl)) as Hs.
  destruct (Nat.le_gt_cases k (length l)) as [Hk|Hk].
  - pose proof (val_app (firstn k l) (skipn k l)) as H.
    rewrite firstn_skipn, (firstn_length_le l Hk) in H.
    rewrite (firstn_length_le l Hk) in Hf.
    split.
    + apply (Z.mod_unique_pos _ _ (val (skipn k l))); lia.
    + apply (Z.div_unique_pos _ _ _ (val (firstn k l))); lia.
  - rewrite firstn_all2, skipn_all2 by lia.
    pose proof (val_bounds l Hl) as Hv.
    assert (BASE ^ Z.of_nat (length l) <= BASE ^ Z.of_nat k)
      by (apply Z.pow_le_mono_r; lia).
    rewrite Z.mod_small, Z.div_small by lia. split; reflexivity.
Qed.

Lemma nonzero_above k this :
  limbs_ok this ->
  existsb nonzero (skipn k this) = negb (val this <? BASE ^ Z.of_nat k).
Proof.
  intros Hl. pose proof BASE_pos as HB.
  assert (HP : 0 < BASE ^ Z.of_nat k) by (apply Z.pow_pos_nonneg; lia).
  pose proof (val_zero_iff _ (limbs_ok_skipn k this Hl)) as Hz.
  destruct (val_split k this Hl) as [_ Hq]. rewrite Hq in Hz.
  pose proof (val_bounds this Hl) as Hv.
  destruct (Z.ltb_spec (val this) (BASE ^ Z.of_nat k)) as [Hlt|Hge]; cbn [negb].
  - apply Hz. apply Z.div_small. lia.
  - destruct (existsb nonzero (skipn k this)); [reflexivity|].
    exfalso. assert (H0 : val this / BASE ^ Z.of_nat k = 0) by (apply Hz; reflexivity).
    apply Z.div_small_iff in H0; lia.
Qed.

(** ** Conversion to a native value *)

Lemma static_cast_unsigned U z :
  is_unsigned_v U = true -> static_cast U z = z mod 2 ^ width U.
Proof. intros H. unfold static_cast. rewrite H. reflexivity. Qed.

Lemma width_divides_limb U :
  (sizeof U <= sizeof el_t)%nat -> exists q, 0 < q /\ BASE = q * 2 ^ width U.
Proof.
  intros H. exists (2 ^ (EL_SIZE_IN_BITS - width U)).
  assert (0 <= width U <= EL_SIZE_IN_BITS)
    by (unfold EL_SIZE_IN_BITS, width; cbn [sizeof el_t] in *; lia).
  split; [apply Z.pow_pos_nonneg; lia|].
  unfold BASE. rewrite <- Z.pow_add_r by lia. f_equal. lia.
Qed.

Lemma low_limb_mod U x v :
  (sizeof U <= sizeof el_t)%nat -> (x + BASE * v) mod 2 ^ width U = x mod 2 ^ width U.
Proof.
  intros H. destruct (width_divides_limb U H) as (q & _ & ->).
  replace (x + q * 2 ^ width U * v) with (x + (q * v) * 2 ^ width U) by ring.
  apply Z_mod_plus_full.
Qed.

Lemma two_limbs_mod x y v :
  0 <= x < BASE -> 0 <= y < BASE ->
  (x + BASE * (y + BASE * v)) mod (BASE * BASE) = x + BASE * y.
Proof.
  intros Hx Hy.
  replace (x + BASE * (y + BASE * v)) with (x + BASE * y + v * (BASE * BASE)) by ring.
  rewrite Z_mod_plus_full. apply Z.mod_small. nia.
Qed.

Lemma or_two_limbs x y t :
  0 <= x < BASE -> 0 <= y < BASE -> or_limbs uint64_t (x :: y :: t) 2 = x + BASE * y.
Proof.
  intros Hx Hy. cbn [or_limbs el_at nth].
  change (Z.of_nat 0 * EL_SIZE_IN_BITS) with 0.
  change (Z.of_nat 1 * EL_SIZE_IN_BITS) with EL_SIZE_IN_BITS.
  change uint64_t with tw_t.
  rewrite Z.shiftl_0_r, shiftl_limb, !(cast_small_tw x), (cast_small_tw y) by nia.
  rewrite (cast_small_tw (y * BASE)) by nia.
  rewrite Z.lor_0_l, Z.lor_comm. unfold BASE in *.
  rewrite lor_mul_pow2_low; [ring | rewrite EL_SIZE_IN_BITS_eq; lia | assumption].
Qed.

Lemma width_tw : 2 ^ width uint64_t = BASE * BASE.
Proof. reflexivity. Qed.

(** [as_uint<UINT_T>()] returns the value reduced modulo [2^width]. *)
Lemma as_uint_val U this :
  is_unsigned_v U = true -> well_formed this ->
  as_uint U this = Returns (val this mod 2 ^ width U).
Proof.
  intros Hu [Hlen Hok]. destruct this as [|x t]; [cbn in Hlen; lia|].
  apply limbs_ok_cons in Hok. destruct Hok as [Hx Ht].
  unfold as_uint, assert_unsigned_int_type. rewrite Hu. cbn [assert bind]. cbv zeta.
  rewrite val_cons.
  destruct (sizeof U <=? 1 * sizeof el_t)%nat eqn:Hsz.
  - cbn [orb el_at nth]. apply Nat.leb_le in Hsz.
    rewrite static_cast_unsigned, low_limb_mod by (cbn [el_t sizeof] in *; lia || assumption).
    reflexivity.
  - assert (U = uint64_t) as ->
        by (destruct U; try discriminate Hu; try discriminate Hsz; reflexivity).
    rewrite width_tw. destruct t as [|y t].
    + cbn [orb SIZE_IN_ELS length Nat.eqb el_at nth val].
      rewrite static_cast_unsigned, width_tw by reflexivity.
      rewrite Z.mul_0_r, Z.add_0_r. reflexivity.
    + apply limbs_ok_cons in Ht. destruct Ht as [Hy Ht].
      cbn [orb SIZE_IN_ELS length Nat.eqb].
      change (sizeof uint64_t <=? 2 * sizeof el_t)%nat with true. cbn [orb].
      rewrite or_two_limbs, val_cons, two_limbs_mod by assumption. reflexivity.
Qed.

(** ** Comparison with an unsigned native value *)

(** The low limbs and the test of the limbs above decide the comparison
    with an operand below [P]. *)
Lemma fold_high v b P :
  0 <= v -> 0 <= b < P ->
  (v mod P =? b) && (v <? P) = (v =? b) /\
  negb (v mod P =? b) || negb (v <? P) = negb (v =? b) /\
  (v mod P <? b) && (v <? P) = (v <? b) /\
  (v mod P <=? b) && (v <? P) = (v <=? b) /\
  (v mod P >? b) || negb (v <? P) = (v >? b) /\
  (v mod P >=? b) || negb (v <? P) = (v >=? b).
Proof.
  intros Hv Hb. destruct (Z.ltb_spec v P) as [Hlt|Hge].
  - rewrite Z.mod_small by lia. cbn [negb]. rewrite !andb_true_r, !orb_false_r. tauto.
  - cbn [negb]. rewrite !andb_false_r, !orb_true_r.
    repeat split; symmetry.
    + apply Z.eqb_neq. lia.
    + apply negb_true_iff, Z.eqb_neq. lia.
    + apply Z.ltb_ge. lia.
    + apply Z.leb_gt. lia.
    + apply Z.gtb_lt. lia.
    + apply Z.geb_le. lia.
Qed.

Lemma compare_uint_val cmp high U b this :
  is_unsigned_v U = true -> representable U b -> well_formed this ->
  exists k : nat,
    0 <= b < BASE ^ Z.of_nat k /\
    compare_uint cmp high U b this
    = Returns (high (cmp (val this mod BASE ^ Z.of_nat k) b) k this).
Proof.
  intros Hu Hb Hwf. apply (representable_unsigned U b Hu) in Hb.
  unfold compare_uint, assert_unsigned_int_type. rewrite Hu. cbn [assert bind].
  destruct (sizeof U <=? sizeof el_t)%nat eqn:Hsz.
  - exists 1%nat.
    replace (sizeof el_t mod sizeof U =? 0)%nat with true
      by (destruct U; try discriminate; reflexivity).
    apply Nat.leb_le in Hsz.
    cbn [assert bind]. cbv zeta.
    destruct (width_divides_limb U Hsz) as (q & Hq & HB).
    assert (Hb1 : 0 <= b < BASE).
    { assert (0 < 2 ^ width U) by (apply Z.pow_pos_nonneg; unfold width; lia). nia. }
    change (Z.of_nat 1) with 1. rewrite Z.pow_1_r. split; [assumption|].
    rewrite cast_small_el by assumption.
    destruct Hwf as [Hlen Hok]. destruct this as [|x t]; [cbn in Hlen; lia|].
    apply limbs_ok_cons in Hok. destruct Hok as [Hx Ht].
    cbn [to_el_t el_at nth]. rewrite val_cons.
    replace ((x + BASE * val t) mod BASE) with x; [reflexivity|].
    replace (x + BASE * val t) with (x + val t * BASE) by ring.
    rewrite Z_mod_plus_full, Z.mod_small by assumption. reflexivity.
  - assert (U = uint64_t) as ->
        by (destruct U; try discriminate Hu; try discriminate Hsz; reflexivity).
    exists 2%nat. change (sizeof uint64_t mod sizeof el_t =? 0)%nat with true.
    cbn [assert bind]. rewrite (as_uint_val uint64_t this eq_refl Hwf). cbn [bind]. cbv zeta.
    change (sizeof uint64_t / sizeof el_t)%nat with 2%nat.
    rewrite width_tw in *. change (Z.of_nat 2) with 2.
    replace (BASE ^ 2) with (BASE * BASE) by ring. split; [assumption | reflexivity].
Qed.

Lemma or_nonzero_above_val r k this :
  limbs_ok this ->
  or_nonzero_above r k this = r || negb (val this <? BASE ^ Z.of_nat k).
Proof.
  intros Hl. unfold or_nonzero_above.
  rewrite is_nonzero_starting_at_el_any, nonzero_above by assumption. reflexivity.
Qed.

Lemma and_zero_above_val r k this :
  limbs_ok this ->
  and_zero_above r k this = r && (val this <? BASE ^ Z.of_nat k).
Proof.
  intros Hl. unfold and_zero_above.
  rewrite is_zero_starting_at_el_any, nonzero_above, negb_involutive by assumption.
  reflexivity.
Qed.

Ltac compare_uint_by_value Hu Hb Hwf :=
  match goal with
  | |- compare_uint ?cmp ?high ?U ?b ?this = _ =>
      destruct (compare_uint_val cmp high U b this Hu Hb Hwf) as (k & Hk & ->);
      pose proof (val_bounds this (proj2 Hwf)) as Hv;
      (rewrite or_nonzero_above_val by apply Hwf) || (rewrite and_zero_above_val by apply Hwf);
      f_equal;
      apply (fold_high (val this) b (BASE ^ Z.of_nat k)); [lia | assumption]
  end.

Section CompareUnsigned.

Variables (U : int_type) (b : Z) (this : bui).
Hypothesis U_unsigned : is_unsigned_v U = true.
Hypothesis b_fits : representable U b.
Hypothesis this_ok : well_formed this.

Lemma operator_eq_uint_val : operator_eq_uint U b this = Returns (val this =? b).
Proof. unfold operator_eq_uint. compare_uint_by_value U_unsigned b_fits this_ok. Qed.

Lemma operator_neq_uint_val : operator_neq_uint U b this = Returns (negb (val this =? b)).
Proof. unfold operator_neq_uint. compare_uint_by_value U_unsigned b_fits this_ok. Qed.

Lemma operator_lt_uint_val : operator_lt_uint U b this = Returns (val this <? b).
Proof. unfold operator_lt_uint. compare_uint_by_value U_unsigned b_fits this_ok. Qed.

Lemma operator_leq_uint_val : operator_leq_uint U b this = Returns (val this <=? b).
Proof. unfold operator_leq_uint. compare_uint_by_value U_unsigned b_fits this_ok. Qed.

Lemma operator_gt_uint_val : operator_gt_uint U b this = Returns (val this >? b).
Proof. unfold operator_gt_uint. compare_uint_by_value U_unsigned b_fits this_ok. Qed.

Lemma operator_geq_uint_val : operator_geq_uint U b this = Returns (val this >=? b).
Proof. unfold operator_geq_uint. compare_uint_by_value U_unsigned b_fits this_ok. Qed.

End CompareUnsigned.

(** ** Construction from a native value *)

Lemma val_small_mod (this : bui) v k :
  0 <= v < BASE ^ Z.of_nat k -> (k <= length this)%nat ->
  v mod 2 ^ SIZE_IN_BITS this = v.
Proof.
  intros Hv Hk. rewrite size_in_bits_pow. apply Z.mod_small.
  pose proof BASE_pos.
  assert (BASE ^ Z.of_nat k <= BASE ^ Z.of_nat (length this))
    by (apply Z.pow_le_mono_r; lia).
  lia.
Qed.

Lemma set_uint_val U value uninit :
  is_unsigned_v U = true -> representable U value -> (0 < length uninit)%nat ->
  exists r,
    set_uint U value uninit = Returns r /\
    well_formed r /\ length r = length uninit /\
    val r = value mod 2 ^ SIZE_IN_BITS uninit.
Proof.
  intros Hu Hb Hlen. apply (representable_unsigned U value Hu) in Hb.
  pose proof BASE_pos as HB.
  unfold set_uint, assert_unsigned_int_type. rewrite Hu. cbn [assert bind]. cbv zeta.
  destruct uninit as [|x t]; [cbn in Hlen; lia|].
  destruct (sizeof U <=? sizeof el_t)%nat eqn:Hsz.
  - cbn [orb store_limbs el_upd]. apply Nat.leb_le in Hsz.
    destruct (width_divides_limb U Hsz) as (q & Hq & HBq).
    assert (Hb1 : 0 <= value < BASE).
    { assert (0 < 2 ^ width U) by (apply Z.pow_pos_nonneg; unfold width; lia). nia. }
    change (Z.of_nat 0 * EL_SIZE_IN_BITS) with 0.
    rewrite Z.shiftr_0_r, cast_small_el by assumption.
    rewrite set_zero_starting_at_el_spec. cbn [firstn app length Nat.sub].
    rewrite Nat.sub_0_r.
    eexists. split; [reflexivity|].
    split; [split; [cbn; lia | apply limbs_ok_cons; split; [assumption | apply limbs_ok_zero_bui]]|].
    split; [cbn [length]; unfold zero_bui; rewrite repeat_length; reflexivity|].
    rewrite val_cons, val_zero_bui, Z.mul_0_r, Z.add_0_r.
    symmetry. apply (val_small_mod _ value 1); [rewrite Z.pow_1_r; assumption | cbn; lia].
  - assert (U = uint64_t) as ->
        by (destruct U; try discriminate Hu; try discriminate Hsz; reflexivity).
    rewrite width_tw in Hb.
    assert (Hlo : 0 <= value mod BASE < BASE) by (apply Z.mod_pos_bound; lia).
    destruct t as [|y t].
    + cbn [orb SIZE_IN_ELS length Nat.eqb store_limbs el_upd].
      change (Z.of_nat 0 * EL_SIZE_IN_BITS) with 0.
      rewrite Z.shiftr_0_r, cast_el_t.
      rewrite set_zero_starting_at_el_spec. cbn [firstn app length Nat.sub zero_bui repeat].
      eexists. split; [reflexivity|].
      split; [split; [cbn; lia | apply limbs_ok_cons; split; [assumption | constructor]]|].
      split; [reflexivity|].
      rewrite size_in_bits_pow. cbn [length val]. change (Z.of_nat 1) with 1.
      rewrite Z.pow_1_r. ring.
    + cbn [orb SIZE_IN_ELS length Nat.eqb].
      change (sizeof uint64_t <=? 2 * sizeof el_t)%nat with true. cbn [orb store_limbs el_upd].
      change (Z.of_nat 0 * EL_SIZE_IN_BITS) with 0.
      change (Z.of_nat 1 * EL_SIZE_IN_BITS) with EL_SIZE_IN_BITS.
      rewrite Z.shiftr_0_r, shiftr_limb, !cast_el_t.
      assert (Hhi : 0 <= value / BASE < BASE).
      { split; [apply Z.div_pos; lia | apply Z.div_lt_upper_bound; lia]. }
      rewrite (Z.mod_small (value / BASE)) by assumption.
      rewrite set_zero_starting_at_el_spec. cbn [firstn app length Nat.sub].
      rewrite Nat.sub_0_r.
      eexists. split; [reflexivity|].
      split.
      { split; [cbn; lia|]. apply limbs_ok_cons. split; [assumption|].
        apply limbs_ok_cons. split; [assumption | apply limbs_ok_zero_bui]. }
      split; [cbn [length]; unfold zero_bui; rewrite repeat_length; reflexivity|].
      rewrite !val_cons, val_zero_bui, Z.mul_0_r, Z.add_0_r.
      pose proof (Z.div_mod value BASE ltac:(lia)) as Hdm.
      rewrite (val_small_mod _ value 2); [lia | | cbn; lia].
      change (Z.of_nat 2) with 2. replace (BASE ^ 2) with (BASE * BASE) by ring. assumption.
Qed.

Lemma width_make_unsigned T : width (make_unsigned_t T) = width T.
Proof. destruct T; reflexivity. Qed.

Lemma width_pos T : 0 < width T.
Proof. destruct T; reflexivity. Qed.

(** The conversion to the unsigned type of the same width gives the bit
    pattern of the operand. *)
Lemma bit_pattern T z :
  representable T z ->
  static_cast (make_unsigned_t T) z = z mod 2 ^ width T /\
  representable (make_unsigned_t T) (z mod 2 ^ width T).
Proof.
  intros _. rewrite static_cast_unsigned by apply make_unsigned_is_unsigned.
  rewrite width_make_unsigned. split; [reflexivity|].
  unfold representable. rewrite make_unsigned_is_unsigned, width_make_unsigned.
  apply Z.mod_pos_bound, Z.pow_pos_nonneg; [lia | pose proof (width_pos T); lia].
Qed.

Lemma bui_from_val T value uninit :
  representable T value -> (0 < length uninit)%nat ->
  exists r,
    bui_from T value uninit = Returns r /\
    well_formed r /\ length r = length uninit /\
    val r = (value mod 2 ^ width T) mod 2 ^ SIZE_IN_BITS uninit.
Proof.
  intros Hb Hlen. unfold bui_from. destruct (is_unsigned_v T) eqn:Hu.
  - rewrite (Z.mod_small value) by (apply representable_unsigned; assumption).
    apply set_uint_val; assumption.
  - destruct (bit_pattern T value Hb) as [-> Hrep].
    apply set_uint_val; [apply make_unsigned_is_unsigned | assumption | assumption].
Qed.

(** ** Conversion to a native type *)

Lemma static_cast_mod T z : static_cast T (z mod 2 ^ width T) = static_cast T z.
Proof.
  unfold static_cast. destruct (is_unsigned_v T).
  - apply Zmod_mod.
  - rewrite Zplus_mod_idemp_l. reflexivity.
Qed.

Lemma bui_as_val T this :
  well_formed this -> bui_as T this = Returns (static_cast T (val this)).
Proof.
  intros Hwf. unfold bui_as. destruct (is_unsigned_v T) eqn:Hu.
  - rewrite as_uint_val, static_cast_unsigned by assumption. reflexivity.
  - rewrite as_uint_val by (apply make_unsigned_is_unsigned || assumption).
    cbn [bind]. rewrite width_make_unsigned, static_cast_mod. reflexivity.
Qed.

Lemma to_el_t_val this : well_formed this -> to_el_t this = val this mod BASE.
Proof.
  intros [Hlen Hok]. destruct this as [|x t]; [cbn in Hlen; lia|].
  apply limbs_ok_cons in Hok. destruct Hok as [Hx _].
  cbn [to_el_t el_at nth]. rewrite val_cons.
  replace (x + BASE * val t) with (x + val t * BASE) by ring.
  rewrite Z_mod_plus_full, Z.mod_small by assumption. reflexivity.
Qed.

Lemma to_tw_t_val this : well_formed this -> to_tw_t this = val this mod (BASE * BASE).
Proof.
  intros [Hlen Hok]. destruct this as [|x t]; [cbn in Hlen; lia|].
  apply limbs_ok_cons in Hok. destruct Hok as [Hx Ht]. unfold to_tw_t.
  destruct t as [|y t]; cbn [SIZE_IN_ELS length Nat.eqb el_at nth].
  - cbn [val]. rewrite Z.mul_0_r, Z.add_0_r, Z.mod_small by nia. reflexivity.
  - apply limbs_ok_cons in Ht. destruct Ht as [Hy Ht].
    rewrite (cast_small_tw y), shiftl_limb, (cast_small_tw (y * BASE)) by nia.
    rewrite !val_cons, two_limbs_mod by assumption.
    rewrite Z.lor_comm. unfold BASE in *.
    rewrite lor_mul_pow2_low; [ring | rewrite EL_SIZE_IN_BITS_eq; lia | assumption].
Qed.

(** ** Bitwise and *)

Lemma land_mod_pow2 a b n :
  0 <= n -> Z.land a b mod 2 ^ n = Z.land (a mod 2 ^ n) (b mod 2 ^ n).
Proof.
  intros Hn. rewrite <- !Z.land_ones by assumption.
  apply Z.bits_inj'. intros m Hm. rewrite !Z.land_spec.
  destruct (Z.testbit a m), (Z.testbit b m), (Z.testbit (Z.ones n) m); reflexivity.
Qed.

Lemma mod_base_twice v : (v mod (BASE * BASE)) mod BASE = v mod BASE.
Proof.
  apply Z.mod_mod_divide. exists BASE. reflexivity.
Qed.

(** ** Shifts toward higher bit indices *)

Lemma el_upd_next pre x y post v :
  el_upd (pre ++ x :: y :: post) (S (length pre)) v = pre ++ x :: v :: post.
Proof.
  replace (pre ++ x :: y :: post) with ((pre ++ [x]) ++ y :: post)
    by (rewrite <- app_assoc; reflexivity).
  replace (S (length pre)) with (length (pre ++ [x])) by (rewrite length_app; cbn; lia).
  rewrite el_upd_mid, <- app_assoc. reflexivity.
Qed.

Lemma hishift_bits_loop W pre :
  forall next post,
    for_down (length pre) (hishift_bits_step W) (pre ++ next :: post)
    = rev (shl_pass W next (rev pre)) ++ post.
Proof.
  induction pre as [|x pre IH] using rev_ind; intros next post.
  - reflexivity.
  - rewrite length_app. cbn [length]. rewrite Nat.add_1_r. cbn [for_down].
    rewrite rev_app_distr. cbn [rev app shl_pass].
    unfold hishift_bits_step at 2. cbv zeta. rewrite <- app_assoc. cbn [app].
    rewrite Nat.add_1_r, el_at_next, el_at_mid, el_upd_next, el_at_mid, el_upd_mid.
    rewrite IH, <- app_assoc. reflexivity.
Qed.

Lemma hishift_bits_spec W pre top :
  hishift_bits W (pre ++ [top])
  = rev (shl_pass W (static_cast el_t (Z.shiftl top W)) (rev pre)).
Proof.
  unfold hishift_bits, SIZE_IN_ELS. cbv zeta. rewrite length_app. cbn [length].
  replace (length pre + 1 - 1)%nat with (length pre) by lia.
  rewrite el_at_mid, el_upd_mid, hishift_bits_loop, app_nil_r. reflexivity.
Qed.

Section SubLimbShiftUp.

Variable W : Z.
Hypothesis W_range : 0 < W < EL_SIZE_IN_BITS.

(** [el[i] <<= WIDTH] keeps the low [EL_SIZE_IN_BITS - WIDTH] bits. *)
Lemma shift_up_limb x :
  0 <= x < BASE ->
  static_cast el_t (Z.shiftl x W) = (x mod 2 ^ (EL_SIZE_IN_BITS - W)) * 2 ^ W.
Proof.
  intros Hx. destruct (split_pos W W_range) as [HP HQ].
  rewrite Z.shiftl_mul_pow2, cast_el_t by lia.
  rewrite (base_split W W_range), (Z.mul_comm (2 ^ W)), Z.mul_mod_distr_r by lia.
  reflexivity.
Qed.

(** [el[i + 1] |= el[i] >> (EL_SIZE_IN_BITS - WIDTH)] on a limb that was
    shifted before. *)
Lemma merge_limbs_up m x :
  0 <= x < BASE ->
  Z.lor (m * 2 ^ W) (Z.shiftr x (EL_SIZE_IN_BITS - W))
  = m * 2 ^ W + x / 2 ^ (EL_SIZE_IN_BITS - W).
Proof.
  intros Hx. destruct (split_pos W W_range) as [HP HQ].
  pose proof (base_split W W_range) as HB.
  rewrite Z.shiftr_div_pow2 by lia.
  apply lor_mul_pow2_low; [lia|].
  split; [apply Z.div_pos; lia | apply Z.div_lt_upper_bound; lia].
Qed.

Lemma shl_pass_val pre :
  forall m,
    limbs_ok pre -> 0 <= m < 2 ^ (EL_SIZE_IN_BITS - W) ->
    limbs_ok (rev (shl_pass W (m * 2 ^ W) (rev pre))) /\
    length (rev (shl_pass W (m * 2 ^ W) (rev pre))) = S (length pre) /\
    val (rev (shl_pass W (m * 2 ^ W) (rev pre)))
    = val pre * 2 ^ W + BASE ^ Z.of_nat (length pre) * (m * 2 ^ W).
Proof.
  destruct (split_pos W W_range) as [HP HQ]. pose proof (base_split W W_range) as HB.
  induction pre as [|x pre IH] using rev_ind; intros m Hpre Hm.
  - cbn [rev shl_pass app length val]. rewrite Z.pow_0_r.
    split; [apply limbs_ok_cons; split; [nia | constructor]|].
    split; [reflexivity | ring].
  - apply limbs_ok_app in Hpre. destruct Hpre as [Hpre Hx].
    apply limbs_ok_cons in Hx. destruct Hx as [Hx _].
    rewrite rev_app_distr. cbn [rev app shl_pass].
    rewrite shift_up_limb, merge_limbs_up by assumption.
    pose proof (Z.mod_pos_bound x (2 ^ (EL_SIZE_IN_BITS - W)) HQ) as Hxm.
    destruct (IH (x mod 2 ^ (EL_SIZE_IN_BITS - W)) Hpre Hxm) as (Hok & Hlen & Hval).
    assert (Hxq : 0 <= x / 2 ^ (EL_SIZE_IN_BITS - W) < 2 ^ W).
    { split; [apply Z.div_pos; lia | apply Z.div_lt_upper_bound; lia]. }
    split.
    { apply limbs_ok_app. split; [assumption|].
      apply limbs_ok_cons. split; [nia | constructor]. }
    split; [rewrite !length_app, Hlen; cbn [length]; lia|].
    rewrite val_app, Hval, Hlen, val_app. cbn [val length].
    rewrite Z.mul_0_r, Z.add_0_r, length_app. cbn [length].
    replace (Z.of_nat (length pre + 1)) with (Z.succ (Z.of_nat (length pre))) by lia.
    replace (Z.of_nat (S (length pre))) with (Z.succ (Z.of_nat (length pre))) by lia.
    rewrite Z.pow_succ_r by lia.
    pose proof (Z.div_mod x (2 ^ (EL_SIZE_IN_BITS - W)) ltac:(lia)) as Hdm.
    set (P := 2 ^ W) in *. set (Q := 2 ^ (EL_SIZE_IN_BITS - W)) in *.
    set (xq := x / Q) in *. set (xm := x mod Q) in *.
    set (Bn := BASE ^ Z.of_nat (length pre)).
    rewrite HB, Hdm. ring.
Qed.

(** [hishift_bits<W>] multiplies by [2^W] and drops the bits shifted out
    of the top limb. *)
Lemma hishift_bits_val this :
  well_formed this ->
  well_formed (hishift_bits W this) /\ length (hishift_bits W this) = length this /\
  val (hishift_bits W this) = (val this * 2 ^ W) mod 2 ^ SIZE_IN_BITS this.
Proof.
  intros [Hlen Hok]. destruct (split_pos W W_range) as [HP HQ].
  pose proof (base_split W W_range) as HB. pose proof BASE_pos as HBp.
  destruct (exists_last (l := this)) as (pre & top & ->);
    [intros ->; cbn in Hlen; lia|].
  apply limbs_ok_app in Hok. destruct Hok as [Hpre Htop].
  apply limbs_ok_cons in Htop. destruct Htop as [Htop _].
  rewrite hishift_bits_spec, shift_up_limb by assumption.
  pose proof (Z.mod_pos_bound top (2 ^ (EL_SIZE_IN_BITS - W)) HQ) as Hm.
  destruct (shl_pass_val pre _ Hpre Hm) as (H1 & H2 & H3).
  split; [split; [rewrite H2; lia | assumption]|].
  rewrite length_app. cbn [length].
  split; [rewrite H2; lia|].
  rewrite size_in_bits_pow, length_app. cbn [length].
  pose proof (val_bounds _ H1) as Hb. rewrite H2 in Hb.
  replace (length pre + 1)%nat with (S (length pre)) by lia.
  apply (Z.mod_unique_pos _ _ (top / 2 ^ (EL_SIZE_IN_BITS - W))); [assumption|].
  rewrite H3, val_app. cbn [val]. rewrite Z.mul_0_r, Z.add_0_r.
  rewrite Nat2Z.inj_succ, Z.pow_succ_r by lia.
  pose proof (Z.div_mod top (2 ^ (EL_SIZE_IN_BITS - W)) ltac:(lia)) as Hdm.
  set (P := 2 ^ W) in *. set (Q := 2 ^ (EL_SIZE_IN_BITS - W)) in *.
  set (tq := top / Q) in *. set (tm := top mod Q) in *.
  set (Bn := BASE ^ Z.of_nat (length pre)).
  rewrite HB, Hdm. ring.
Qed.

End SubLimbShiftUp.

(** ** The limb shift toward higher indices *)

Lemma for_down_out_of_bounds n (body : nat -> outcome bui -> outcome bui) :
  (forall i, body i OutOfBounds = OutOfBounds) ->
  for_down n body OutOfBounds = OutOfBounds.
Proof.
  intros Hbody. induction n as [|n IH]; cbn [for_down]; [reflexivity|].
  rewrite Hbody. exact IH.
Qed.

Lemma hishift_1el_loop n :
  forall el,
    (0 < n)%nat -> Z.of_nat (SIZE_IN_ELS el) < 2 ^ 64 ->
    for_down n
      (fun i s =>
         el <- s ;;
         x <- el_read el (size_t_sub (Z.of_nat i) 1) ;;
         Returns (el_upd el i x))
      (Returns el)
    = OutOfBounds.
Proof.
  induction n as [|n IH]; intros el Hn Hsize; [lia|].
  cbn [for_down bind].
  destruct n as [|n].
  - unfold el_read. change (size_t_sub (Z.of_nat 0) 1) with (2 ^ 64 - 1).
    destruct (Z.ltb_spec (2 ^ 64 - 1) (Z.of_nat (SIZE_IN_ELS el))) as [Hlt|_]; [lia|].
    rewrite andb_false_r. reflexivity.
  - destruct (el_read el (size_t_sub (Z.of_nat (S n)) 1)) as [x| |] eqn:E.
    + cbn [bind]. apply IH; [lia|]. unfold SIZE_IN_ELS in *. rewrite el_upd_length. assumption.
    + exfalso. unfold el_read in E. destruct (_ && _); discriminate.
    + cbn [bind]. apply for_down_out_of_bounds. reflexivity.
Qed.

(** ** Decimal numerals *)

Lemma is_digit_not_nul c : is_digit c -> is_nul c = false.
Proof.
  intros H. unfold is_nul. destruct (Ascii.eqb_spec c NUL) as [->|]; [|reflexivity].
  unfold is_digit in H. change (digit_value NUL) with (-48) in H. lia.
Qed.

Lemma digits_not_nul ds :
  Forall is_digit ds -> Forall (fun c => is_digit c /\ is_nul c = false) ds.
Proof.
  intros H. eapply Forall_impl; [|exact H]. intros c Hc.
  split; [assumption | apply is_digit_not_nul, Hc].
Qed.

Lemma char_val_inj c c' : char_val c = char_val c' -> c = c'.
Proof.
  intros H. rewrite <- (ascii_N_embedding c), <- (ascii_N_embedding c'). f_equal.
  pose proof (N_ascii_bounded c) as Hc. pose proof (N_ascii_bounded c') as Hc'.
  apply N2Z.inj. unfold char_val, static_cast in H. cbn [is_unsigned_v] in H.
  change (2 ^ width int8_t) with 256 in H. change (2 ^ (width int8_t - 1)) with 128 in H.
  revert H. Z.div_mod_to_equations. lia.
Qed.

Lemma digit_value_inj c c' : digit_value c = digit_value c' -> c = c'.
Proof. unfold digit_value. intros H. apply char_val_inj. lia. Qed.

Lemma lsd_value_app a b :
  lsd_value (a ++ b) = lsd_value a + 10 ^ Z.of_nat (length a) * lsd_value b.
Proof.
  induction a as [|c a IH]; cbn [app lsd_value length].
  - rewrite Z.pow_0_r. ring.
  - rewrite IH, Nat2Z.inj_succ, Z.pow_succ_r by lia. ring.
Qed.

Lemma lsd_value_bounds ds :
  Forall is_digit ds -> 0 <= lsd_value ds < 10 ^ Z.of_nat (length ds).
Proof.
  induction 1 as [|c ds Hc _ IH]; cbn [lsd_value length].
  - rewrite Z.pow_0_r. lia.
  - rewrite Nat2Z.inj_succ, Z.pow_succ_r by lia. unfold is_digit in Hc. lia.
Qed.

(** A numeral without a leading zero has as many digits as its value
    needs. *)
Lemma lsd_value_lower ds :
  Forall is_digit ds -> ds <> [] -> digit_value (last ds "0"%char) <> 0 ->
  10 ^ (Z.of_nat (length ds) - 1) <= lsd_value ds.
Proof.
  intros Hds Hne Hlast.
  destruct (exists_last Hne) as (pre & c & ->).
  rewrite last_last in Hlast. apply Forall_app in Hds. destruct Hds as [Hpre Hc].
  inversion Hc as [|? ? Hc' _]; subst. unfold is_digit in Hc'.
  rewrite lsd_value_app, length_app. cbn [lsd_value length].
  replace (Z.of_nat (length pre + 1) - 1) with (Z.of_nat (length pre)) by lia.
  pose proof (lsd_value_bounds pre Hpre).
  assert (0 < 10 ^ Z.of_nat (length pre)) by (apply Z.pow_pos_nonneg; lia).
  nia.
Qed.

Lemma digits_unique ds :
  forall ds',
    Forall is_digit ds -> Forall is_digit ds' -> length ds = length ds' ->
    lsd_value ds = lsd_value ds' -> ds = ds'.
Proof.
  induction ds as [|c ds IH]; intros [|c' ds'] H H' Hlen Hval; try discriminate.
  - reflexivity.
  - inversion H as [|? ? Hc Hds]; inversion H' as [|? ? Hc' Hds']; subst.
    cbn [lsd_value] in Hval. unfold is_digit in Hc, Hc'.
    assert (digit_value c = digit_value c' /\ lsd_value ds = lsd_value ds') as [E1 E2] by lia.
    apply digit_value_inj in E1. subst c'. f_equal.
    apply IH; try assumption. cbn [length] in Hlen. lia.
Qed.

(** A number has one canonical numeral. *)
Lemma canonical_unique ds ds' :
  canonical ds -> canonical ds' -> lsd_value ds = lsd_value ds' -> ds = ds'.
Proof.
  intros [Hd Hc] [Hd' Hc'] Hval.
  assert (Hpow : forall n m : nat, (n < m)%nat -> 10 ^ Z.of_nat n <= 10 ^ (Z.of_nat m - 1)).
  { intros n m Hnm. apply Z.pow_le_mono_r; lia. }
  destruct Hc as [->|[Hne Hlast]], Hc' as [->|[Hne' Hlast']].
  - reflexivity.
  - pose proof (lsd_value_lower ds' Hd' Hne' Hlast') as Hlow.
    assert (0 < 10 ^ (Z.of_nat (length ds') - 1))
      by (apply Z.pow_pos_nonneg; [lia|]; destruct ds'; [congruence | cbn [length]; lia]).
    rewrite <- Hval in Hlow. change (lsd_value ["0"%char]) with 0 in Hlow. lia.
  - pose proof (lsd_value_lower ds Hd Hne Hlast) as Hlow.
    assert (0 < 10 ^ (Z.of_nat (length ds) - 1))
      by (apply Z.pow_pos_nonneg; [lia|]; destruct ds; [congruence | cbn [length]; lia]).
    rewrite Hval in Hlow. change (lsd_value ["0"%char]) with 0 in Hlow. lia.
  - apply digits_unique; try assumption.
    pose proof (lsd_value_lower ds Hd Hne Hlast) as Hlow.
    pose proof (lsd_value_lower ds' Hd' Hne' Hlast') as Hlow'.
    pose proof (lsd_value_bounds ds Hd) as Hup.
    pose proof (lsd_value_bounds ds' Hd') as Hup'.
    destruct (Nat.lt_trichotomy (length ds) (length ds')) as [Hlt|[Heq|Hgt]].
    + specialize (Hpow _ _ Hlt). lia.
    + assumption.
    + specialize (Hpow _ _ Hgt). lia.
Qed.

Lemma string_of_list_inj l l' :
  String.string_of_list_ascii l = String.string_of_list_ascii l' -> l = l'.
Proof.
  intros H. rewrite <- (String.list_ascii_of_string_of_list_ascii l),
              <- (String.list_ascii_of_string_of_list_ascii l'), H. reflexivity.
Qed.

(** The rendering has no leading zero: with one were the value below
    [10^(L-1)], and the loop would have stopped a digit earlier. *)
Lemma uint_to_string_buf_canonical size D stack x :
  well_formed x -> 2 ^ SIZE_IN_BITS x <= 10 ^ D -> D + 1 <= Z.of_nat size ->
  exists ds,
    uint_to_string_buf size stack x = Returns (String.string_of_list_ascii (rev ds)) /\
    canonical ds /\ lsd_value ds = val x /\ Z.of_nat (length ds) <= D.
Proof.
  intros Hwf HD Hsize.
  destruct (uint_to_string_buf_fits size D stack x Hwf HD Hsize)
    as (ds & E & Hlen & Hdig & Hval & Hzero).
  assert (Hd : Forall is_digit ds) by (eapply Forall_impl; [|exact Hdig]; cbn; tauto).
  exists ds. split; [assumption|]. split; [|split; [assumption | lia]].
  split; [assumption|].
  destruct (Z.eq_dec (val x) 0) as [H0|Hnz]; [left; auto|]. right.
  assert (Hne : ds <> []) by (intros ->; cbn in Hlen; lia).
  split; [assumption|]. intros Hlast.
  destruct (exists_last Hne) as (pre & c & ->).
  rewrite last_last in Hlast.
  rewrite lsd_value_app in Hval. cbn [lsd_value] in Hval. rewrite Hlast in Hval.
  apply Forall_app in Hd. destruct Hd as [Hpre _].
  pose proof (lsd_value_bounds pre Hpre) as Hb.
  rewrite length_app in Hlen. cbn [length] in Hlen.
  assert (Hpos : (1 <= length pre)%nat).
  { destruct pre; [cbn in Hval; lia | cbn; lia]. }
  destruct (uint_to_string_buf_spec size (length pre) stack x Hwf Hpos ltac:(lia) ltac:(lia))
    as (ds' & E' & Hlen' & _).
  rewrite E in E'. injection E' as E'. apply string_of_list_inj in E'.
  apply (f_equal (@length ascii)) in E'. rewrite !length_rev, length_app in E'.
  cbn [length] in E'. lia.
Qed.

Lemma uint_to_string_canonical stack x :
  well_formed x -> (SIZE_IN_ELS x <= CHECKED_ELS)%nat ->
  exists ds,
    uint_to_string stack x = Returns (String.string_of_list_ascii (rev ds)) /\
    canonical ds /\ lsd_value ds = val x /\
    Z.of_nat (length ds) <= MAX_DIGITS (SIZE_IN_BITS x).
Proof.
  intros Hwf Hn. unfold uint_to_string.
  destruct (max_digits_ceil (SIZE_IN_ELS x)) as [H1 [_ H2]].
  { destruct Hwf as [Hlen _]. unfold SIZE_IN_ELS in *. lia. }
  fold (SIZE_IN_BITS x) in H1, H2.
  apply uint_to_string_buf_canonical; [assumption | assumption | lia].
Qed.

(** ** Reading any string *)

Lemma strlen_prefix pre c rest :
  Forall (fun c => is_nul c = false) pre -> is_nul c = false ->
  (length pre < strlen (String.string_of_list_ascii (pre ++ c :: rest)))%nat.
Proof.
  intros Hpre Hc. induction Hpre as [|d pre Hd _ IH];
    cbn [app String.string_of_list_ascii strlen length].
  - rewrite Hc. lia.
  - rewrite Hd. lia.
Qed.

Lemma set_from_str_loop_rejects pre :
  forall len this c rest,
    Forall is_digit pre -> ~ is_digit c -> well_formed this -> (length pre < len)%nat ->
    set_from_str_loop len (String.string_of_list_ascii (pre ++ c :: rest)) this
    = AssertionFailed.
Proof.
  induction pre as [|d pre IH]; intros len this c rest Hpre Hc Hwf Hlen;
    (destruct len as [|len]; [cbn [length] in Hlen; lia|]);
    cbn [app String.string_of_list_ascii set_from_str_loop].
  - unfold is_digit, digit_value in Hc.
    change (char_val "9"%char) with (char_val "0"%char + 9).
    destruct (Z.geb_spec (char_val c) (char_val "0"%char)) as [Hge|Hlt];
      cbn [assert bind]; [|reflexivity].
    destruct (Z.leb_spec (char_val c) (char_val "0"%char + 9)) as [Hle|Hgt];
      cbn [assert bind]; [lia | reflexivity].
  - inversion Hpre as [|? ? Hd Hpre']; subst. unfold is_digit, digit_value in Hd.
    change (char_val "9"%char) with (char_val "0"%char + 9).
    replace (char_val d >=? char_val "0"%char) with true
      by (symmetry; apply Z.geb_le; lia).
    replace (char_val d <=? char_val "0"%char + 9) with true
      by (symmetry; apply Z.leb_le; lia).
    cbn [assert bind].
    destruct (operator_muleq_int_spec 10 this ltac:(lia) Hwf) as (t1 & E1 & W1 & L1 & V1).
    rewrite E1. cbn [bind]. fold (digit_value d).
    assert (Hdv : 0 <= digit_value d < BASE) by (unfold digit_value; rewrite BASE_eq; lia).
    rewrite (cast_small_el _ Hdv).
    assert (Hrep : representable el_t (digit_value d)) by exact Hdv.
    destruct (operator_pluseq_spec el_t (digit_value d) t1 Hrep W1) as (t2 & E2 & W2 & L2 & V2).
    rewrite E2. cbn [bind].
    apply IH; [assumption | assumption | assumption | cbn [length] in Hlen; lia].
Qed.

(** ** The reference rendering of the test driver *)

Lemma to_string_uint128_loop_spec room :
  forall (D : nat) w free x,
    length free = room -> (D <= room)%nat -> 0 <= x < 10 ^ Z.of_nat D ->
    exists ds free',
      to_string_uint128_loop room (w ++ free) x (length w)
      = Returns (w ++ ds ++ free', (length w + length ds)%nat) /\
      (length ds + length free' = room)%nat /\
      (length ds <= D)%nat /\
      Forall is_digit ds /\
      lsd_value ds = x /\
      (ds <> [] -> digit_value (last ds "0"%char) <> 0).
Proof.
  assert (Hstop : forall room w free,
             length free = room ->
             exists ds free',
               to_string_uint128_loop room (w ++ free) 0 (length w)
               = Returns (w ++ ds ++ free', (length w + length ds)%nat) /\
               (length ds + length free' = room)%nat /\ ds = []).
  { intros r w free Hfree. exists [], free. cbn [app length].
    rewrite Nat.add_0_r. split; [destruct r; reflexivity | auto]. }
  induction room as [|room IH]; intros D w free x Hfree HD Hx.
  - assert (D = 0%nat) as -> by lia. change (10 ^ Z.of_nat 0) with 1 in Hx.
    assert (x = 0) as -> by lia.
    destruct (Hstop 0%nat w free Hfree) as (ds & free' & E & Hl & ->).
    exists [], free'. repeat (split; [assumption || constructor || reflexivity|]).
    congruence.
  - destruct (Z.eq_dec x 0) as [->|Hnz].
    + destruct (Hstop (S room) w free Hfree) as (ds & free' & E & Hl & ->).
      exists [], free'. split; [assumption|]. split; [assumption|].
      split; [cbn; lia|]. split; [constructor|]. split; [reflexivity | congruence].
    + destruct free as [|y free]; [discriminate|]. injection Hfree as Hfree.
      cbn [to_string_uint128_loop].
      replace (x =? 0) with false by (symmetry; apply Z.eqb_neq; assumption).
      cbn [negb]. rewrite buf_write_mid. cbn [bind]. cbv zeta.
      assert (Hr : 0 <= x mod 10 <= 9) by (pose proof (Z.mod_pos_bound x 10); lia).
      destruct (digit_char _ Hr) as [Hdv _].
      set (c := char_of (char_val "0"%char + static_cast int8_t (x mod 10))) in *.
      pose proof (Z.div_mod x 10 ltac:(lia)) as Hdm.
      assert (HD1 : (1 <= D)%nat).
      { destruct D; [change (10 ^ Z.of_nat 0) with 1 in Hx; lia | lia]. }
      assert (Hq : 0 <= x / 10 < 10 ^ Z.of_nat (D - 1)).
      { split; [apply Z.div_pos; lia|]. apply Z.div_lt_upper_bound; [lia|].
        rewrite <- Z.pow_succ_r by lia.
        replace (Z.succ (Z.of_nat (D - 1))) with (Z.of_nat D) by lia. lia. }
      destruct (IH (D - 1)%nat (w ++ [c]) free (x / 10) Hfree ltac:(lia) Hq)
        as (ds & free' & E & Hlen & HlenD & Hdig & Hlsd & Hlast).
      rewrite length_app, <- app_assoc in E. cbn [length app] in E.
      rewrite Nat.add_1_r in E. rewrite E.
      exists (c :: ds), free'. rewrite <- app_assoc. cbn [app length lsd_value].
      split; [do 2 f_equal; lia|].
      split; [lia|]. split; [lia|].
      split; [constructor; [unfold is_digit; lia | assumption]|].
      split; [lia|].
      intros _. destruct ds as [|d ds].
      * cbn [last]. cbn [lsd_value] in Hlsd. lia.
      * change (last (c :: d :: ds) "0"%char) with (last (d :: ds) "0"%char).
        apply Hlast. discriminate.
Qed.

Lemma max_digits_uint128 : Z.to_nat (MAX_DIGITS 128 + 1) = 40%nat.
Proof. vm_compute. reflexivity. Qed.

Lemma to_string_uint128_canonical stack x :
  0 <= x < 2 ^ 128 ->
  exists ds,
    to_string_uint128 stack x = Returns (String.string_of_list_ascii (rev ds)) /\
    canonical ds /\ lsd_value ds = x.
Proof.
  intros Hx. unfold to_string_uint128. cbv zeta. rewrite max_digits_uint128.
  set (result := map stack (seq 0 40)).
  assert (Hres : length result = 40%nat)
    by (unfold result; rewrite length_map, length_seq; reflexivity).
  destruct (to_string_uint128_loop_spec 40 39 [] result x Hres ltac:(lia) ltac:(lia))
    as (ds & free' & E & Hlen & HlenD & Hdig & Hlsd & Hlast).
  cbn [app length Nat.add] in E. rewrite E. cbn [bind].
  destruct ds as [|c ds].
  - cbn [length Nat.eqb]. exists ["0"%char]. split; [reflexivity|].
    split; [|rewrite <- Hlsd; reflexivity].
    split; [constructor; [unfold is_digit; cbn; lia | constructor] | left; reflexivity].
  - cbn [length Nat.eqb].
    destruct free' as [|y free']; [cbn [length] in Hlen, HlenD; lia|].
    change (S (length ds)) with (length (c :: ds)).
    rewrite buf_write_mid. cbn [bind].
    rewrite firstn_app, skipn_app, Nat.sub_diag, firstn_all, skipn_all.
    cbn [firstn skipn app]. rewrite app_nil_r.
    rewrite c_string_until_nul.
    + exists (c :: ds). split; [reflexivity|]. split; [|assumption].
      split; [assumption|]. right. split; [discriminate|]. apply Hlast. discriminate.
    + apply Forall_rev. eapply Forall_impl; [|exact Hdig]. apply is_digit_not_nul.
Qed.

(** ** The test driver *)

Lemma size_in_bits_128 (this : bui) : length this = 4%nat -> 2 ^ SIZE_IN_BITS this = 2 ^ 128.
Proof. intros H. unfold SIZE_IN_BITS, SIZE_IN_ELS. rewrite H. reflexivity. Qed.

Lemma val_128 (this : bui) :
  well_formed this -> length this = 4%nat -> 0 <= val this < 2 ^ 128.
Proof.
  intros [_ Hok] Hlen. pose proof (val_bounds this Hok) as Hv.
  rewrite <- size_in_bits_pow, (size_in_bits_128 this Hlen) in Hv. exact Hv.
Qed.

Lemma renderings_agree stack stack' this :
  well_formed this -> length this = 4%nat ->
  exists s,
    to_string_uint128 stack (val this) = Returns s /\
    str stack' this = Returns s.
Proof.
  intros Hwf Hlen.
  destruct (to_string_uint128_canonical stack (val this) (val_128 this Hwf Hlen))
    as (ds & E & Hc & Hval).
  destruct (uint_to_string_canonical stack' this Hwf) as (ds' & E' & Hc' & Hval' & _).
  { unfold SIZE_IN_ELS, CHECKED_ELS. lia. }
  exists (String.string_of_list_ascii (rev ds)). split; [assumption|].
  unfold str. rewrite E'. do 3 f_equal.
  apply canonical_unique; [assumption | assumption | congruence].
Qed.

Lemma compare_renderings_agree junk_a junk_e expected actual :
  well_formed actual -> length actual = 4%nat -> val actual = expected ->
  compare_renderings junk_a junk_e expected actual = Returns (Continue expected actual).
Proof.
  intros Hwf Hlen <-. unfold compare_renderings.
  destruct (renderings_agree junk_e junk_a actual Hwf Hlen) as (s & -> & ->).
  cbn [bind]. rewrite String.eqb_refl. reflexivity.
Qed.

(** [op_val += (op_val == 0)] leaves a nonzero limb. *)
Lemma nonzero_operand op_val :
  0 <= op_val < BASE ->
  0 < static_cast el_t (op_val + b2z (op_val =? 0)) < BASE.
Proof.
  intros H. destruct (Z.eqb_spec op_val 0) as [->|Hnz]; cbn [b2z].
  - rewrite cast_small_el; rewrite BASE_eq in *; lia.
  - rewrite Z.add_0_r, cast_small_el; lia.
Qed.

Lemma test_iteration_continues junk_a junk_e rand1 rand2 expected actual :
  0 <= rand1 ->
  well_formed actual -> length actual = 4%nat -> val actual = expected ->
  exists expected' actual',
    test_iteration junk_a junk_e rand1 rand2 expected actual
    = Returns (Continue expected' actual') /\
    well_formed actual' /\ length actual' = 4%nat /\ val actual' = expected'.
Proof.
  intros Hr1 Hwf Hlen Hval. unfold test_iteration. cbv zeta.
  pose proof (val_128 actual Hwf Hlen) as Hv.
  pose proof (Z.rem_bound_pos rand1 5 Hr1 ltac:(lia)) as Hidx.
  assert (Hop : 0 <= static_cast el_t rand2 < BASE).
  { rewrite cast_el_t. apply Z.mod_pos_bound, BASE_pos. }
  set (op_val := static_cast el_t rand2) in *.
  assert (Hrep : representable el_t op_val) by exact Hop.
  pose proof (nonzero_operand op_val Hop) as Hnz.
  set (op_val' := static_cast el_t (op_val + b2z (op_val =? 0))) in *.
  destruct (Z.eqb_spec (Z.rem rand1 5) 0) as [_|H0].
  { destruct (operator_pluseq_spec el_t op_val actual Hrep Hwf) as (r & E & W & L & V).
    rewrite E. cbn [bind]. rewrite (size_in_bits_128 actual Hlen), Hval in V.
    rewrite (compare_renderings_agree _ _ _ r W) by (congruence || exact V).
    eexists _, r. split; [reflexivity|]. split; [assumption|]. split; [congruence | exact V]. }
  destruct (Z.eqb_spec (Z.rem rand1 5) 1) as [_|H1].
  { destruct (operator_minuseq_spec el_t op_val actual Hrep Hwf) as (r & E & W & L & V).
    rewrite E. cbn [bind]. rewrite (size_in_bits_128 actual Hlen), Hval in V.
    rewrite (compare_renderings_agree _ _ _ r W) by (congruence || exact V).
    eexists _, r. split; [reflexivity|]. split; [assumption|]. split; [congruence | exact V]. }
  destruct (Z.eqb_spec (Z.rem rand1 5) 2) as [_|H2].
  { destruct (operator_muleq_uint_spec el_t op_val actual eq_refl (Nat.le_refl _) Hrep Hwf)
      as (r & E & W & L & V).
    change (operator_muleq el_t op_val actual) with (operator_muleq_uint el_t op_val actual).
    rewrite E. cbn [bind]. rewrite (size_in_bits_128 actual Hlen), Hval in V.
    rewrite (compare_renderings_agree _ _ _ r W) by (congruence || exact V).
    eexists _, r. split; [reflexivity|]. split; [assumption|]. split; [congruence | exact V]. }
  destruct (Z.eqb_spec (Z.rem rand1 5) 3) as [_|H3].
  { pose proof (operator_diveq_spec op_val' Hnz actual Hwf) as Hdiv.
    destruct (operator_diveq op_val' actual) as [q rem]. destruct Hdiv as (W & L & V & _).
    assert (Hq : val q = uint128_t (expected / op_val')).
    { rewrite V, Hval. unfold uint128_t. symmetry. apply Z.mod_small. subst expected.
      split; [apply Z.div_pos; lia|].
      apply Z.div_lt_upper_bound; [lia|]. nia. }
    rewrite (compare_renderings_agree _ _ _ q W) by (congruence || exact Hq).
    eexists _, q. split; [reflexivity|]. split; [assumption|]. split; [congruence | exact Hq]. }
  destruct (Z.eqb_spec (Z.rem rand1 5) 4) as [_|H4]; [|lia].
  rewrite (operator_mod_spec op_val' Hnz actual Hwf).
  assert (Hm : static_cast el_t (uint128_t (expected mod op_val')) = val actual mod op_val').
  { rewrite Hval. pose proof (Z.mod_pos_bound expected op_val' ltac:(lia)) as Hb.
    pose proof BASE_eq as HB. unfold uint128_t. rewrite Z.mod_small by lia. apply cast_small_el. lia. }
  rewrite Hm, Z.eqb_refl. cbn [negb].
  rewrite (compare_renderings_agree _ _ _ actual Hwf) by assumption.
  eexists _, actual. split; [reflexivity|]. auto.
Qed.

Lemma test_loop_completes count :
  forall i rand junk expected actual,
    (forall k, 0 <= rand k) ->
    well_formed actual -> length actual = 4%nat -> val actual = expected ->
    test_loop count i rand junk expected actual = Returns (Exit 0).
Proof.
  induction count as [|count IH]; intros i rand junk expected actual Hrand Hwf Hlen Hval;
    cbn [test_loop]; [reflexivity|].
  destruct (test_iteration_continues (junk (2 * i)%nat) (junk (2 * i + 1)%nat)
              (rand (2 * i)%nat) (rand (2 * i + 1)%nat) expected actual
              (Hrand _) Hwf Hlen Hval) as (e' & a' & -> & W & L & V).
  cbn [bind]. apply IH; assumption.
Qed.

(** ** Multiplication by a limb-sized value of a double-limb type *)

(** With the high half of the operand zero, the loop body for a wide
    operand does what the body for a limb operand does, and [ui] stays
    zero. *)
Lemma muleq_step2_small b i el tw :
  0 <= b < BASE ->
  muleq_step2 uint64_t b 0 i (el, 0, tw)
  = (fst (muleq_step1 b i (el, tw)), 0, snd (muleq_step1 b i (el, tw))).
Proof.
  intros Hb. unfold muleq_step2, muleq_step1. cbv zeta. cbn [fst snd].
  rewrite (cast_small_tw b) by (pose proof BASE_pos; nia).
  assert (E : static_cast tw_t (b * el_at el i)
              = static_cast tw_t (static_cast tw_t (el_at el i) * b)).
  { rewrite !cast_tw_t, Zmult_mod_idemp_l. f_equal. ring. }
  rewrite E.
  set (t := static_cast tw_t (tw + static_cast tw_t (static_cast tw_t (el_at el i) * b))).
  rewrite Z.mul_0_l. change (static_cast uint64_t 0) with 0.
  rewrite Z.add_0_l. change (static_cast uint64_t 0) with 0.
  change (static_cast el_t 0) with 0. rewrite Z.add_0_r.
  change (Z.shiftr 0 EL_SIZE_IN_BITS) with 0.
  rewrite cast_small_tw; [reflexivity|].
  rewrite shiftr_limb. pose proof BASE_pos as HB.
  assert (Ht : 0 <= t < BASE * BASE).
  { unfold t. rewrite cast_tw_t. apply Z.mod_pos_bound. nia. }
  split; [apply Z.div_pos; lia | apply Z.div_lt_upper_bound; nia].
Qed.

Lemma muleq_loop_small b count :
  0 <= b < BASE ->
  forall lo el tw,
    for_up lo count (muleq_step2 uint64_t b 0) (el, 0, tw)
    = (fst (for_up lo count (muleq_step1 b) (el, tw)), 0,
       snd (for_up lo count (muleq_step1 b) (el, tw))).
Proof.
  intros Hb. induction count as [|count IH]; intros lo el tw; cbn [for_up].
  - reflexivity.
  - rewrite muleq_step2_small by assumption.
    destruct (muleq_step1 b lo (el, tw)) as [el1 tw1]. cbn [fst snd]. apply IH.
Qed.

Lemma muleq_uint_limbs_wide_small b this :
  0 <= b < BASE ->
  muleq_uint_limbs uint64_t b this = muleq_uint_limbs el_t b this.
Proof.
  intros Hb. unfold muleq_uint_limbs.
  cbn [assert_unsigned_int_type is_unsigned_v el_t assert bind sizeof]. cbv zeta.
  change (8 mod 4 =? 0)%nat with true. change (4 mod 4 =? 0)%nat with true.
  change (8 =? 4)%nat with false. change (4 =? 4)%nat with true.
  cbn [assert bind]. cbv iota.
  rewrite cast_small_el, shiftr_limb, Z.div_small by assumption.
  rewrite muleq_loop_small by assumption. reflexivity.
Qed.

(** [*this *= b] for an operand value below [BASE] of any unsigned type. *)
Lemma operator_muleq_uint_small T b this :
  is_unsigned_v T = true -> representable T b -> 0 <= b < BASE -> well_formed this ->
  exists r, operator_muleq_uint T b this = Returns r /\
    well_formed r /\ length r = length this /\
    val r = (val this * b) mod 2 ^ SIZE_IN_BITS this.
Proof.
  intros Hu Hrep Hb Hwf.
  destruct (sizeof T <=? sizeof el_t)%nat eqn:Hsz.
  - apply Nat.leb_le in Hsz. apply operator_muleq_uint_spec; assumption.
  - assert (T = uint64_t) as ->
        by (destruct T; try discriminate Hu; try discriminate Hsz; reflexivity).
    unfold operator_muleq_uint. cbn [assert_unsigned_int_type is_unsigned_v assert bind].
    change (sizeof uint64_t <? sizeof el_t)%nat with false. cbv iota.
    rewrite muleq_uint_limbs_wide_small by assumption.
    apply muleq_uint_limbs_spec; assumption.
Qed.

(** ** Equality with a native value *)

Lemma equality_operators_val INT_T b this :
  representable INT_T b ->
  well_formed this ->
  operator_eq INT_T b this = Returns (val this =? b) /\
  operator_neq INT_T b this = Returns (negb (val this =? b)).
Proof.
  intros Hb Hwf. pose proof (val_bounds this (proj2 Hwf)) as Hv.
  unfold operator_eq, operator_neq. destruct (is_unsigned_v INT_T) eqn:Hu.
  - assert (make_unsigned_t INT_T = INT_T) as -> by (destruct INT_T; try discriminate; reflexivity).
    rewrite (static_cast_id INT_T b Hb).
    split; [apply operator_eq_uint_val | apply operator_neq_uint_val]; assumption.
  - cbv zeta. destruct (Z.le_gt_cases 0 b) as [Hpos|Hneg].
    + destruct (cast_of_nonnegative INT_T b Hu Hb Hpos) as [-> Hb'].
      rewrite operator_eq_uint_val, operator_neq_uint_val
        by (apply make_unsigned_is_unsigned || assumption).
      cbn [bind].
      replace (b >=? 0) with true by (symmetry; apply Z.geb_le; lia).
      replace (b <? 0) with false by (symmetry; apply Z.ltb_ge; lia).
      split; reflexivity.
    + destruct (bit_pattern INT_T b Hb) as [-> Hb'].
      rewrite operator_eq_uint_val, operator_neq_uint_val
        by (apply make_unsigned_is_unsigned || assumption).
      cbn [bind].
      replace (b >=? 0) with false by (destruct (Z.geb_spec b 0); [lia | reflexivity]).
      replace (b <? 0) with true by (symmetry; apply Z.ltb_lt; lia).
      replace (val this =? b) with false by (symmetry; apply Z.eqb_neq; lia).
      split; reflexivity.
Qed.

(** ** Rendering of a native unsigned value *)

Lemma uint_to_string_native_loop_spec T room :
  forall (D : nat) w free tmp,
    is_unsigned_v T = true ->
    length free = room -> (1 <= D <= room)%nat ->
    0 <= tmp < 10 ^ Z.of_nat D -> tmp < 2 ^ width T ->
    exists ds free',
      uint_to_string_native_loop T room (w ++ free) tmp (length w)
      = Returns (w ++ ds ++ free', (length w + length ds)%nat) /\
      (length ds + length free' = room)%nat /\
      (1 <= length ds <= D)%nat /\
      canonical ds /\
      lsd_value ds = tmp.
Proof.
  induction room as [|room IH]; intros D w free tmp Hu Hfree HD Htmp Hfit; [lia|].
  destruct free as [|x free]; [discriminate|]. injection Hfree as Hfree.
  cbn [uint_to_string_native_loop].
  rewrite buf_write_mid. cbn [bind]. cbv zeta.
  assert (Hr : 0 <= tmp mod 10 <= 9) by (pose proof (Z.mod_pos_bound tmp 10); lia).
  destruct (digit_char _ Hr) as [Hdv _].
  set (c := char_of (char_val "0"%char + static_cast int8_t (tmp mod 10))) in *.
  pose proof (Z.div_mod tmp 10 ltac:(lia)) as Hdm.
  assert (Hq : 0 <= tmp / 10 <= tmp).
  { split; [apply Z.div_pos; lia|]. apply Z.div_le_upper_bound; lia. }
  rewrite static_cast_unsigned, Z.mod_small by (assumption || lia).
  assert (Hc : is_digit c) by (unfold is_digit; lia).
  destruct (tmp / 10 =? 0) eqn:Hz; cbn [negb].
  - apply Z.eqb_eq in Hz. exists [c], free. cbn [app length lsd_value].
    split; [rewrite Nat.add_1_r; reflexivity|].
    split; [lia|]. split; [lia|]. split; [|lia].
    split; [constructor; [assumption | constructor]|].
    destruct (Z.eq_dec tmp 0) as [H0|Hnz].
    + left. subst c. rewrite H0. reflexivity.
    + right. split; [discriminate|]. cbn [last]. lia.
  - apply Z.eqb_neq in Hz.
    assert (HD2 : (2 <= D)%nat).
    { destruct D as [|[|D]]; [lia | | lia]. change (10 ^ Z.of_nat 1) with 10 in Htmp.
      rewrite Z.div_small in Hz by lia. lia. }
    assert (Hqlt : tmp / 10 < 10 ^ Z.of_nat (D - 1)).
    { apply Z.div_lt_upper_bound; [lia|].
      rewrite <- Z.pow_succ_r by lia.
      replace (Z.succ (Z.of_nat (D - 1))) with (Z.of_nat D) by lia. lia. }
    destruct (IH (D - 1)%nat (w ++ [c]) free (tmp / 10) Hu Hfree ltac:(lia) ltac:(lia)
                ltac:(lia)) as (ds & free' & E & Hlen & HlenD & [Hdig Hcan] & Hlsd).
    rewrite length_app, <- app_assoc in E. cbn [length app] in E.
    rewrite Nat.add_1_r in E. rewrite E.
    exists (c :: ds), free'. rewrite <- app_assoc. cbn [app length lsd_value].
    split; [do 2 f_equal; lia|].
    split; [lia|]. split; [lia|]. split; [|lia].
    split; [constructor; assumption|]. right. split; [discriminate|].
    destruct Hcan as [->|[Hne Hlast]]; [cbn [lsd_value] in Hlsd; cbn in Hlsd; lia|].
    destruct ds as [|d ds]; [congruence|].
    change (last (c :: d :: ds) "0"%char) with (last (d :: ds) "0"%char). exact Hlast.
Qed.

(** The buffer sizes of [uint_to_string] for the native unsigned types. *)
Lemma max_digits_native T :
  is_unsigned_v T = true ->
  1 <= MAX_DIGITS (Z.of_nat (sizeof T) * 8) <= 20 /\
  2 ^ width T <= 10 ^ MAX_DIGITS (Z.of_nat (sizeof T) * 8).
Proof.
  intros Hu. destruct T; try discriminate Hu.
  - change (MAX_DIGITS (Z.of_nat (sizeof uint8_t) * 8)) with (MAX_DIGITS 8).
    replace (MAX_DIGITS 8) with 3 by (vm_compute; reflexivity).
    change (width uint8_t) with 8. lia.
  - change (MAX_DIGITS (Z.of_nat (sizeof uint16_t) * 8)) with (MAX_DIGITS 16).
    replace (MAX_DIGITS 16) with 5 by (vm_compute; reflexivity).
    change (width uint16_t) with 16. lia.
  - change (MAX_DIGITS (Z.of_nat (sizeof uint32_t) * 8)) with (MAX_DIGITS 32).
    replace (MAX_DIGITS 32) with 10 by (vm_compute; reflexivity).
    change (width uint32_t) with 32. lia.
  - change (MAX_DIGITS (Z.of_nat (sizeof uint64_t) * 8)) with (MAX_DIGITS 64).
    replace (MAX_DIGITS 64) with 20 by (vm_compute; reflexivity).
    change (width uint64_t) with 64. lia.
Qed.

Lemma uint_to_string_native_canonical T stack x :
  is_unsigned_v T = true -> representable T x ->
  exists ds,
    uint_to_string_native T stack x = Returns (String.string_of_list_ascii (rev ds)) /\
    canonical ds /\ lsd_value ds = x /\
    Z.of_nat (length ds) <= MAX_DIGITS (Z.of_nat (sizeof T) * 8).
Proof.
  intros Hu Hx. apply (representable_unsigned T x Hu) in Hx.
  destruct (max_digits_native T Hu) as [HD Hpow].
  unfold uint_to_string_native. cbv zeta.
  set (D := MAX_DIGITS (Z.of_nat (sizeof T) * 8)) in *.
  set (result := map stack (seq 0 (Z.to_nat (D + 1)))).
  assert (Hres : length result = Z.to_nat (D + 1))
    by (unfold result; rewrite length_map, length_seq; reflexivity).
  destruct (uint_to_string_native_loop_spec T (Z.to_nat (D + 1)) (Z.to_nat D) [] result x
              Hu Hres ltac:(lia)) as (ds & free' & E & Hlen & HlenD & Hcan & Hlsd).
  { rewrite Z2Nat.id by lia. lia. }
  { lia. }
  cbn [app length Nat.add] in E. rewrite E. cbn [bind].
  destruct free' as [|y free']; [cbn [length] in Hlen; lia|].
  rewrite buf_write_mid. cbn [bind].
  rewrite firstn_app, skipn_app, Nat.sub_diag, firstn_all, skipn_all.
  cbn [firstn skipn app]. rewrite app_nil_r.
  rewrite c_string_until_nul.
  - exists ds. split; [reflexivity|]. split; [assumption|]. split; [assumption | lia].
  - apply Forall_rev. eapply Forall_impl; [|exact (proj1 Hcan)]. apply is_digit_not_nul.
Qed.

(** ** The digit buffer at a width where [MAX_DIGITS] is one short *)




















(* ================================================================= *)
(** * Main theorems *)

(** Tactics that discharge [well_formed] and [representable] at concrete
    inputs. *)
Ltac limbs :=
  unfold limbs_ok; repeat (apply Forall_cons; [rewrite BASE_eq; lia|]); apply Forall_nil.
Ltac wf := split; [cbn; lia | limbs].
Ltac fits :=
  unfold representable; cbn [is_unsigned_v];
  split; [apply Z.leb_le | apply Z.ltb_lt]; vm_compute; reflexivity.

(** C1.  For every value of the magnitude and every unsigned native operand
    [b] at most twice as wide as a limb, [operator_pluseq_uint] returns and
    leaves [(v + b) mod 2^N] in the same number of limbs; what it computes
    is the add-assign of the specification: the first
    [k = min(ceil(width(b) / width(limb)), limb_count)] limbs take in the
    carry and the operand slices with each carry equal to
    [(result < previous_value)], the limbs above only the outstanding
    carry, and the carry out of the top limb is dropped. *)
Theorem add_assign_correct UINT_T b this :
  is_unsigned_v UINT_T = true ->
  width UINT_T <= 2 * EL_SIZE_IN_BITS ->
  representable UINT_T b ->
  well_formed this ->
  exists r,
    operator_pluseq_uint UINT_T b this = Returns r /\
    well_formed r /\ SIZE_IN_ELS r = SIZE_IN_ELS this /\
    val r = (val this + b) mod 2 ^ SIZE_IN_BITS this /\
    r = spec_add_assign (width UINT_T) b this.
Proof.
  intros Hu _ Hb Hwf. apply operator_pluseq_uint_spec; assumption.
Qed.

Lemma add_assign_correct_witness :
  is_unsigned_v uint64_t = true /\
  width uint64_t <= 2 * EL_SIZE_IN_BITS /\
  representable uint64_t 18446744073709551615 /\
  well_formed [4294967295; 4294967295; 7] /\
  exists r,
    operator_pluseq_uint uint64_t 18446744073709551615 [4294967295; 4294967295; 7]
    = Returns r /\
    well_formed r /\ SIZE_IN_ELS r = SIZE_IN_ELS [4294967295; 4294967295; 7] /\
    val r = (val [4294967295; 4294967295; 7] + 18446744073709551615)
              mod 2 ^ SIZE_IN_BITS [4294967295; 4294967295; 7] /\
    r = spec_add_assign (width uint64_t) 18446744073709551615 [4294967295; 4294967295; 7].
Proof.
  split; [reflexivity|]. split; [cbn; lia|].
  split; [fits|].
  split; [wf|].
  apply (add_assign_correct uint64_t 18446744073709551615 [4294967295; 4294967295; 7]).
  - reflexivity.
  - cbn; lia.
  - fits.
  - wf.
Defined.

(** C2.  For every value of the magnitude and every nonzero limb [b],
    [operator/=] runs the long division from the most significant limb
    down with the double-limb register [tw] (the pass [div_limb]), leaves
    the quotient [floor(v / b)] in the magnitude and returns the remainder
    [v mod b]. *)
Theorem divide_assign_correct b this :
  0 < b < BASE ->
  well_formed this ->
  operator_diveq b this
  = (fst (map_acc_down (div_limb b) this 0),
     static_cast el_t (snd (map_acc_down (div_limb b) this 0))) /\
  well_formed (fst (operator_diveq b this)) /\
  SIZE_IN_ELS (fst (operator_diveq b this)) = SIZE_IN_ELS this /\
  val (fst (operator_diveq b this)) = val this / b /\
  snd (operator_diveq b this) = val this mod b.
Proof.
  intros Hb Hwf. split.
  - unfold operator_diveq, SIZE_IN_ELS. cbv zeta.
    pose proof (for_down_map_acc (diveq_step b) (div_limb b) (diveq_step_mid b) this [] 0)
      as Hloop.
    rewrite !app_nil_r in Hloop. rewrite Hloop.
    destruct (map_acc_down (div_limb b) this 0). reflexivity.
  - pose proof (operator_diveq_spec b Hb this Hwf) as H.
    destruct (operator_diveq b this) as [q r]. exact H.
Qed.

Lemma divide_assign_correct_witness :
  0 < 3 < BASE /\ well_formed [650; 1] /\
  val (fst (operator_diveq 3 [650; 1])) = val [650; 1] / 3 /\
  snd (operator_diveq 3 [650; 1]) = val [650; 1] mod 3.
Proof.
  split; [rewrite BASE_eq; lia|].
  split; [wf|].
  apply (divide_assign_correct 3 [650; 1]).
  - rewrite BASE_eq; lia.
  - wf.
Defined.

(** C3.  The claim is that [operator_muleq_uint] with a double-limb
    operand leaves [(v * b) mod 2^N].  The code does not: the product of
    the high half is taken with [el[i]] after [el[i]] was overwritten by
    the low limb of the accumulator.  For the 64-bit magnitude 1 and
    [b = 2^32] it leaves 0 where the product is [2^32]. *)
Theorem muleq_double_limb_wrong :
  well_formed [1; 0] /\ representable uint64_t (2 ^ 32) /\
  operator_muleq_uint uint64_t (2 ^ 32) [1; 0] = Returns [0; 0] /\
  val [0; 0] <> (val [1; 0] * 2 ^ 32) mod 2 ^ SIZE_IN_BITS [1; 0].
Proof.
  split; [wf|].
  split; [fits|].
  split; [vm_compute; reflexivity|].
  vm_compute. discriminate.
Qed.

(** C4.  The claim is that for a negative signed operand [b] the six
    comparisons answer as if the magnitude were greater.  [operator!=] and
    [operator==] do (they convert [b] to the unsigned type first and the
    sign test decides); the four ordering operators hand the signed [b] to
    their [_uint] method, whose [assert_unsigned_int_type] fails, so they
    abort instead of answering. *)
Theorem compare_negative_operand INT_T b this :
  is_unsigned_v INT_T = false ->
  representable INT_T b ->
  b < 0 ->
  operator_neq INT_T b this = Returns true /\
  operator_eq INT_T b this = Returns false /\
  operator_gt INT_T b this = AssertionFailed /\
  operator_geq INT_T b this = AssertionFailed /\
  operator_lt INT_T b this = AssertionFailed /\
  operator_leq INT_T b this = AssertionFailed.
Proof.
  intros Hs Hb Hneg.
  unfold operator_neq, operator_eq, operator_gt, operator_geq, operator_lt, operator_leq.
  rewrite Hs.
  unfold operator_gt_uint, operator_geq_uint, operator_lt_uint, operator_leq_uint.
  rewrite !compare_uint_signed by assumption. cbn [bind].
  repeat split.
  - destruct (compare_uint_returns (fun x y => negb (x =? y)) or_nonzero_above
                (make_unsigned_t INT_T) (static_cast (make_unsigned_t INT_T) b) this
                (make_unsigned_is_unsigned INT_T)) as [r E].
    unfold operator_neq_uint. rewrite E. cbn [bind].
    replace (b <? 0) with true by (symmetry; apply Z.ltb_lt; assumption). reflexivity.
  - destruct (compare_uint_returns Z.eqb and_zero_above
                (make_unsigned_t INT_T) (static_cast (make_unsigned_t INT_T) b) this
                (make_unsigned_is_unsigned INT_T)) as [r E].
    unfold operator_eq_uint. rewrite E. cbn [bind].
    replace (b >=? 0) with false by (symmetry; rewrite Z.geb_leb; apply Z.leb_gt; assumption).
    reflexivity.
Qed.

Lemma compare_negative_operand_witness :
  is_unsigned_v int32_t = false /\ representable int32_t (-1) /\ -1 < 0 /\
  operator_neq int32_t (-1) [0] = Returns true /\
  operator_eq int32_t (-1) [0] = Returns false /\
  operator_gt int32_t (-1) [0] = AssertionFailed /\
  operator_geq int32_t (-1) [0] = AssertionFailed /\
  operator_lt int32_t (-1) [0] = AssertionFailed /\
  operator_leq int32_t (-1) [0] = AssertionFailed.
Proof.
  split; [reflexivity|]. split; [fits|]. split; [lia|].
  apply (compare_negative_operand int32_t (-1) [0]); [reflexivity | fits | lia].
Defined.




(** C6.  For every value of the magnitude, every number [c] of whole-limb
    shifts [loshift_1el] and every [s] with [0 < s < width(limb)], the
    [c] limb shifts followed by [loshift_bits<s>] leave
    [floor(v / 2^(c * width(limb) + s))]. *)
Theorem shift_composition this (c : nat) s :
  well_formed this ->
  0 < s < EL_SIZE_IN_BITS ->
  well_formed (loshift_bits s (loshift_els c this)) /\
  SIZE_IN_ELS (loshift_bits s (loshift_els c this)) = SIZE_IN_ELS this /\
  val (loshift_bits s (loshift_els c this))
  = val this / 2 ^ (Z.of_nat c * EL_SIZE_IN_BITS + s).
Proof.
  intros Hwf Hs.
  destruct (loshift_els_val c this Hwf) as (W1 & L1 & V1).
  destruct (loshift_bits_val s Hs _ W1) as (W2 & L2 & V2).
  split; [assumption|]. split; [unfold SIZE_IN_ELS; congruence|].
  rewrite V2, V1.
  pose proof BASE_pos.
  assert (0 < BASE ^ Z.of_nat c) by (apply Z.pow_pos_nonneg; lia).
  rewrite Z.div_div by (try apply Z.pow_pos_nonneg; lia).
  f_equal. unfold BASE.
  rewrite <- Z.pow_mul_r, <- Z.pow_add_r by (rewrite ?EL_SIZE_IN_BITS_eq; lia).
  f_equal. ring.
Qed.

Lemma shift_composition_witness :
  well_formed [1; 2; 3; 4] /\ 0 < 4 < EL_SIZE_IN_BITS /\
  val (loshift_bits 4 (loshift_els 1 [1; 2; 3; 4]))
  = val [1; 2; 3; 4] / 2 ^ (Z.of_nat 1 * EL_SIZE_IN_BITS + 4).
Proof.
  split; [wf|]. split; [rewrite EL_SIZE_IN_BITS_eq; lia|].
  apply (shift_composition [1; 2; 3; 4] 1 4); [wf | rewrite EL_SIZE_IN_BITS_eq; lia].
Defined.



(** C8.  For every value [a] of the magnitude and every nonzero limb [b],
    [operator%] returns [a mod b] and leaves every limb of [a] as it was. *)
Theorem modulo_correct b this :
  0 < b < BASE ->
  well_formed this ->
  snd (operator_mod b this) = val this mod b /\
  fst (operator_mod b this) = this.
Proof.
  intros Hb Hwf. rewrite (operator_mod_spec b Hb this Hwf). split; reflexivity.
Qed.

Lemma modulo_correct_witness :
  0 < 7 < BASE /\ well_formed [3; 9; 1] /\
  snd (operator_mod 7 [3; 9; 1]) = val [3; 9; 1] mod 7 /\
  fst (operator_mod 7 [3; 9; 1]) = [3; 9; 1].
Proof.
  split; [rewrite BASE_eq; lia|]. split; [wf|].
  apply (modulo_correct 7 [3; 9; 1]); [rewrite BASE_eq; lia | wf].
Defined.




(* ================================================================= *)
(** * Further properties of the library *)

(** ** Arithmetic *)

(** X1.  For every value of the magnitude and every operand [b] of an
    unsigned native type, [operator_minuseq_uint] returns and leaves
    [(v - b) mod 2^N] in the same number of limbs: a subtraction below
    zero wraps around. *)
Theorem subtract_assign_unsigned UINT_T b this :
  is_unsigned_v UINT_T = true ->
  representable UINT_T b ->
  well_formed this ->
  exists r,
    operator_minuseq_uint UINT_T b this = Returns r /\
    well_formed r /\ SIZE_IN_ELS r = SIZE_IN_ELS this /\
    val r = (val this - b) mod 2 ^ SIZE_IN_BITS this.
Proof.
  intros Hu Hb Hwf. apply operator_minuseq_uint_spec; assumption.
Qed.

Lemma subtract_assign_unsigned_witness :
  is_unsigned_v uint64_t = true /\
  representable uint64_t 4294967297 /\
  well_formed [0; 1; 0] /\
  exists r,
    operator_minuseq_uint uint64_t 4294967297 [0; 1; 0] = Returns r /\
    well_formed r /\ SIZE_IN_ELS r = SIZE_IN_ELS [0; 1; 0] /\
    val r = (val [0; 1; 0] - 4294967297) mod 2 ^ SIZE_IN_BITS [0; 1; 0].
Proof.
  split; [reflexivity|]. split; [fits|]. split; [wf|].
  apply (subtract_assign_unsigned uint64_t 4294967297 [0; 1; 0]); [reflexivity | fits | wf].
Defined.

(** X2.  For every value of the magnitude and every operand [b] of any
    native type, signed or unsigned, wide or narrow: if [0 <= b < 2^32],
    [operator*=] returns and leaves [(v * b) mod 2^N] in the same number
    of limbs (the double-limb loop is right when the high half of the
    operand is zero); if [b < 0], it stops at its assertion [b >= 0]. *)
Theorem multiply_assign_limb INT_T b this :
  representable INT_T b ->
  well_formed this ->
  (0 <= b < BASE ->
   exists r,
     operator_muleq INT_T b this = Returns r /\
     well_formed r /\ SIZE_IN_ELS r = SIZE_IN_ELS this /\
     val r = (val this * b) mod 2 ^ SIZE_IN_BITS this) /\
  (b < 0 -> operator_muleq INT_T b this = AssertionFailed).
Proof.
  intros Hb Hwf. unfold operator_muleq.
  destruct (is_unsigned_v INT_T) eqn:Hu.
  - split; [intros Hsmall; apply operator_muleq_uint_small; assumption|].
    intros Hneg. apply (representable_unsigned INT_T b Hu) in Hb. lia.
  - split.
    + intros Hsmall. destruct (Z.geb_spec b 0) as [_|Hneg]; [|lia]. cbv zeta.
      destruct (cast_of_nonnegative INT_T b Hu Hb ltac:(lia)) as [-> Hb'].
      apply operator_muleq_uint_small;
        [apply make_unsigned_is_unsigned | assumption | assumption | assumption].
    + intros Hneg. destruct (Z.geb_spec b 0) as [Hpos|_]; [lia|]. reflexivity.
Qed.

Lemma multiply_assign_limb_witness :
  representable int64_t 4294967295 /\
  representable int64_t (-3) /\
  well_formed [4294967295; 4294967295; 1] /\
  (exists r,
      operator_muleq int64_t 4294967295 [4294967295; 4294967295; 1] = Returns r /\
      well_formed r /\ SIZE_IN_ELS r = SIZE_IN_ELS [4294967295; 4294967295; 1] /\
      val r = (val [4294967295; 4294967295; 1] * 4294967295)
                mod 2 ^ SIZE_IN_BITS [4294967295; 4294967295; 1]) /\
  operator_muleq int64_t (-3) [4294967295; 4294967295; 1] = AssertionFailed.
Proof.
  split; [fits|]. split; [fits|]. split; [wf|].
  split.
  - apply (multiply_assign_limb int64_t 4294967295 [4294967295; 4294967295; 1]);
      [fits | wf | rewrite BASE_eq; lia].
  - apply (multiply_assign_limb int64_t (-3) [4294967295; 4294967295; 1]);
      [fits | wf | lia].
Defined.

(** X3.  For every value [a] of the magnitude and every operand [b] of any
    native type, signed or unsigned, [a += b] followed by [a -= b] gives
    back every limb of [a], and so does [a -= b] followed by [a += b],
    also when the intermediate result wraps around. *)
Theorem add_then_subtract_restores INT_T b this :
  representable INT_T b ->
  well_formed this ->
  (exists r, operator_pluseq INT_T b this = Returns r /\
             operator_minuseq INT_T b r = Returns this) /\
  (exists r, operator_minuseq INT_T b this = Returns r /\
             operator_pluseq INT_T b r = Returns this).
Proof.
  intros Hb Hwf.
  pose proof (val_bounds this (proj2 Hwf)) as Hv. rewrite <- size_in_bits_pow in Hv.
  split.
  - destruct (operator_pluseq_spec INT_T b this Hb Hwf) as (r & E & W & L & V).
    destruct (operator_minuseq_spec INT_T b r Hb W) as (r' & E' & W' & L' & V').
    exists r. split; [assumption|]. rewrite E'. f_equal.
    apply val_inj; [apply W' | apply Hwf | congruence|].
    rewrite V', V, (size_in_bits_length r this L), Zminus_mod_idemp_l.
    replace (val this + b - b) with (val this) by ring. apply Z.mod_small, Hv.
  - destruct (operator_minuseq_spec INT_T b this Hb Hwf) as (r & E & W & L & V).
    destruct (operator_pluseq_spec INT_T b r Hb W) as (r' & E' & W' & L' & V').
    exists r. split; [assumption|]. rewrite E'. f_equal.
    apply val_inj; [apply W' | apply Hwf | congruence|].
    rewrite V', V, (size_in_bits_length r this L), Zplus_mod_idemp_l.
    replace (val this - b + b) with (val this) by ring. apply Z.mod_small, Hv.
Qed.

Lemma add_then_subtract_restores_witness :
  representable int64_t (-9223372036854775808) /\
  well_formed [7; 0; 0] /\
  (exists r, operator_pluseq int64_t (-9223372036854775808) [7; 0; 0] = Returns r /\
             operator_minuseq int64_t (-9223372036854775808) r = Returns [7; 0; 0]) /\
  (exists r, operator_minuseq int64_t (-9223372036854775808) [7; 0; 0] = Returns r /\
             operator_pluseq int64_t (-9223372036854775808) r = Returns [7; 0; 0]).
Proof.
  split; [fits|]. split; [wf|].
  apply (add_then_subtract_restores int64_t (-9223372036854775808) [7; 0; 0]); [fits | wf].
Defined.

(** X4.  For every value [a] of the magnitude and every nonzero limb [b]:
    after [r = (a /= b)], multiplying the quotient by [b] with [*=] and
    adding the returned remainder with [+=] gives back every limb of
    [a]. *)
Theorem divide_then_multiply_add_restores b this :
  0 < b < BASE ->
  well_formed this ->
  exists p,
    operator_muleq el_t b (fst (operator_diveq b this)) = Returns p /\
    operator_pluseq el_t (snd (operator_diveq b this)) p = Returns this.
Proof.
  intros Hb Hwf.
  pose proof (operator_diveq_spec b Hb this Hwf) as Hdiv.
  destruct (operator_diveq b this) as [q r]. destruct Hdiv as (Wq & Lq & Vq & Vr).
  cbn [fst snd].
  pose proof (val_bounds this (proj2 Hwf)) as Hv. rewrite <- size_in_bits_pow in Hv.
  assert (Hbr : representable el_t b) by (unfold representable; cbn [is_unsigned_v el_t]; fold EL_SIZE_IN_BITS; fold BASE; lia).
  assert (Hr : 0 <= r < b) by (subst r; apply Z.mod_pos_bound; lia).
  assert (Hrr : representable el_t r) by (unfold representable; cbn [is_unsigned_v el_t]; fold EL_SIZE_IN_BITS; fold BASE; lia).
  destruct (operator_muleq_uint_spec el_t b q eq_refl (Nat.le_refl _) Hbr Wq)
    as (p & E & Wp & Lp & Vp).
  exists p. split; [exact E|].
  destruct (operator_pluseq_spec el_t r p Hrr Wp) as (s & E' & Ws & Ls & Vs).
  rewrite E'. f_equal.
  apply val_inj; [apply Ws | apply Hwf | congruence|].
  rewrite Vs, Vp, (size_in_bits_length p this), (size_in_bits_length q this) by congruence.
  rewrite Zplus_mod_idemp_l, Vq, Vr.
  pose proof (Z.div_mod (val this) b ltac:(lia)) as Hdm.
  replace (val this / b * b + val this mod b) with (val this) by lia.
  apply Z.mod_small, Hv.
Qed.

Lemma divide_then_multiply_add_restores_witness :
  0 < 10 < BASE /\ well_formed [4294967295; 123; 4294967295] /\
  exists p,
    operator_muleq el_t 10 (fst (operator_diveq 10 [4294967295; 123; 4294967295]))
    = Returns p /\
    operator_pluseq el_t (snd (operator_diveq 10 [4294967295; 123; 4294967295])) p
    = Returns [4294967295; 123; 4294967295].
Proof.
  split; [rewrite BASE_eq; lia|]. split; [wf|].
  apply (divide_then_multiply_add_restores 10 [4294967295; 123; 4294967295]);
    [rewrite BASE_eq; lia | wf].
Defined.

(** ** Construction and conversion *)

(** X5.  The constructor from a native integer overwrites every limb of
    the uninitialised array: the magnitude holds the bit pattern of the
    operand in its own width, zero-extended and cut to [N] bits.  A value
    that is not negative is stored modulo [2^N]; a negative value [b] is
    stored as [2^width + b] (not sign-extended to [N] bits). *)
Theorem construct_from_native INT_T value uninit :
  representable INT_T value ->
  (0 < SIZE_IN_ELS uninit)%nat ->
  exists r,
    bui_from INT_T value uninit = Returns r /\
    well_formed r /\ SIZE_IN_ELS r = SIZE_IN_ELS uninit /\
    val r = (value mod 2 ^ width INT_T) mod 2 ^ SIZE_IN_BITS uninit /\
    (0 <= value -> val r = value mod 2 ^ SIZE_IN_BITS uninit) /\
    (value < 0 -> val r = (2 ^ width INT_T + value) mod 2 ^ SIZE_IN_BITS uninit).
Proof.
  intros Hb Hlen. destruct (bui_from_val INT_T value uninit Hb Hlen) as (r & E & W & L & V).
  exists r. repeat (split; [assumption|]).
  assert (HM : 0 < 2 ^ width INT_T)
    by (apply Z.pow_pos_nonneg; [lia | pose proof (width_pos INT_T); lia]).
  assert (Hhalf : 2 ^ width INT_T = 2 * 2 ^ (width INT_T - 1)).
  { rewrite <- Z.pow_succ_r by (pose proof (width_pos INT_T); lia). f_equal. lia. }
  split; intros Hsign; rewrite V; f_equal.
  - apply Z.mod_small. unfold representable in Hb. destruct (is_unsigned_v INT_T); lia.
  - symmetry. apply (Z.mod_unique_pos _ _ (-1)); [|lia].
    unfold representable in Hb. destruct (is_unsigned_v INT_T); lia.
Qed.

Lemma construct_from_native_witness :
  representable int32_t (-1) /\
  (0 < SIZE_IN_ELS [17; 4; 99; 5]%Z)%nat /\
  exists r,
    bui_from int32_t (-1) [17; 4; 99; 5] = Returns r /\
    well_formed r /\ SIZE_IN_ELS r = SIZE_IN_ELS [17; 4; 99; 5] /\
    val r = (-1 mod 2 ^ width int32_t) mod 2 ^ SIZE_IN_BITS [17; 4; 99; 5] /\
    (0 <= -1 -> val r = -1 mod 2 ^ SIZE_IN_BITS [17; 4; 99; 5]) /\
    (-1 < 0 -> val r = (2 ^ width int32_t + -1) mod 2 ^ SIZE_IN_BITS [17; 4; 99; 5]).
Proof.
  split; [fits|]. split; [cbn; lia|].
  apply (construct_from_native int32_t (-1) [17; 4; 99; 5]); [fits | cbn; lia].
Defined.

(** X6.  For every value [v] of the magnitude and every native type,
    [as<INT_T>()] returns [v] converted to that type: [v mod 2^width],
    read as two's complement for a signed type.  The explicit conversions
    to [el_t] and [tw_t] return [v mod 2^32] and [v mod 2^64]. *)
Theorem convert_to_native this :
  well_formed this ->
  (forall INT_T, bui_as INT_T this = Returns (static_cast INT_T (val this))) /\
  (forall INT_T, is_unsigned_v INT_T = true ->
     bui_as INT_T this = Returns (val this mod 2 ^ width INT_T)) /\
  to_el_t this = val this mod 2 ^ 32 /\
  to_tw_t this = val this mod 2 ^ 64.
Proof.
  intros Hwf. split; [intros T; apply bui_as_val, Hwf|].
  split.
  - intros T Hu. rewrite bui_as_val, static_cast_unsigned by assumption. reflexivity.
  - split; [apply to_el_t_val, Hwf | apply to_tw_t_val, Hwf].
Qed.

Lemma convert_to_native_witness :
  well_formed [4294967295; 2; 3] /\
  bui_as int16_t [4294967295; 2; 3] = Returns (-1) /\
  to_tw_t [4294967295; 2; 3] = val [4294967295; 2; 3] mod 2 ^ 64.
Proof.
  split; [wf|].
  destruct (convert_to_native [4294967295; 2; 3]) as (H1 & _ & _ & H2); [wf|].
  split; [exact (H1 int16_t) | exact H2].
Defined.

(** X7.  Every value [x] of a native type, negative ones included, comes
    back from a magnitude at least as wide as the type: [as<INT_T>()] on
    the magnitude constructed from [x] returns [x]. *)
Theorem native_round_trip INT_T x uninit :
  representable INT_T x ->
  (0 < SIZE_IN_ELS uninit)%nat ->
  width INT_T <= SIZE_IN_BITS uninit ->
  exists v,
    bui_from INT_T x uninit = Returns v /\
    bui_as INT_T v = Returns x.
Proof.
  intros Hx Hlen Hw. destruct (bui_from_val INT_T x uninit Hx Hlen) as (v & E & W & L & V).
  exists v. split; [assumption|]. rewrite (bui_as_val INT_T v W). f_equal.
  rewrite V.
  assert (HM : 0 < 2 ^ width INT_T)
    by (apply Z.pow_pos_nonneg; [lia | pose proof (width_pos INT_T); lia]).
  assert (HN : 2 ^ width INT_T <= 2 ^ SIZE_IN_BITS uninit)
    by (apply Z.pow_le_mono_r; [lia | assumption]).
  pose proof (Z.mod_pos_bound x (2 ^ width INT_T) HM).
  rewrite (Z.mod_small (x mod 2 ^ width INT_T)) by lia.
  rewrite static_cast_mod. apply static_cast_id, Hx.
Qed.

Lemma native_round_trip_witness :
  representable int64_t (-5) /\
  (0 < SIZE_IN_ELS [1; 2; 3]%Z)%nat /\
  width int64_t <= SIZE_IN_BITS [1; 2; 3] /\
  exists v,
    bui_from int64_t (-5) [1; 2; 3] = Returns v /\
    bui_as int64_t v = Returns (-5).
Proof.
  split; [fits|]. split; [cbn; lia|]. split; [cbn; lia|].
  apply (native_round_trip int64_t (-5) [1; 2; 3]); [fits | cbn; lia | cbn; lia].
Defined.

(** ** Comparison *)

(** X8.  For every value [v] of the magnitude and every operand [b] of any
    native type, signed or unsigned, [operator==] returns whether
    [v = b] and [operator!=] whether [v <> b], as numbers. *)
Theorem equality_decides INT_T b this :
  representable INT_T b ->
  well_formed this ->
  operator_eq INT_T b this = Returns (val this =? b) /\
  operator_neq INT_T b this = Returns (negb (val this =? b)).
Proof.
  intros Hb Hwf. apply equality_operators_val; assumption.
Qed.

Lemma equality_decides_witness :
  representable int8_t (-1) /\
  well_formed [255; 0] /\
  operator_eq int8_t (-1) [255; 0] = Returns (val [255; 0] =? -1) /\
  operator_neq int8_t (-1) [255; 0] = Returns (negb (val [255; 0] =? -1)).
Proof.
  split; [fits|]. split; [wf|].
  apply (equality_decides int8_t (-1) [255; 0]); [fits | wf].
Defined.

(** X9.  For every value [v] of the magnitude the four ordering
    operators return the order of [v] and [b] as numbers when the operand
    [b] is of an unsigned native type, whatever the limbs above the width
    of [b] hold; when [b] is of a signed native type they stop at the
    unsignedness assertion, also for an operand that is not negative (an
    [int] literal, for one). *)
Theorem ordering_operators INT_T b this :
  representable INT_T b ->
  well_formed this ->
  (is_unsigned_v INT_T = true ->
   operator_lt INT_T b this = Returns (val this <? b) /\
   operator_leq INT_T b this = Returns (val this <=? b) /\
   operator_gt INT_T b this = Returns (val this >? b) /\
   operator_geq INT_T b this = Returns (val this >=? b)) /\
  (is_unsigned_v INT_T = false ->
   operator_lt INT_T b this = AssertionFailed /\
   operator_leq INT_T b this = AssertionFailed /\
   operator_gt INT_T b this = AssertionFailed /\
   operator_geq INT_T b this = AssertionFailed).
Proof.
  intros Hb Hwf. unfold operator_lt, operator_leq, operator_gt, operator_geq.
  split; intros Hu; rewrite Hu.
  - split; [apply operator_lt_uint_val; assumption|].
    split; [apply operator_leq_uint_val; assumption|].
    split; [apply operator_gt_uint_val; assumption|].
    apply operator_geq_uint_val; assumption.
  - unfold operator_lt_uint, operator_leq_uint, operator_gt_uint, operator_geq_uint.
    rewrite !compare_uint_signed by assumption. repeat split; reflexivity.
Qed.

Lemma ordering_operators_witness :
  representable uint64_t 18446744073709551615 /\
  representable int32_t 5 /\
  well_formed [0; 0; 1] /\
  (operator_lt uint64_t 18446744073709551615 [0; 0; 1]
   = Returns (val [0; 0; 1] <? 18446744073709551615) /\
   operator_leq uint64_t 18446744073709551615 [0; 0; 1]
   = Returns (val [0; 0; 1] <=? 18446744073709551615) /\
   operator_gt uint64_t 18446744073709551615 [0; 0; 1]
   = Returns (val [0; 0; 1] >? 18446744073709551615) /\
   operator_geq uint64_t 18446744073709551615 [0; 0; 1]
   = Returns (val [0; 0; 1] >=? 18446744073709551615)) /\
  (operator_lt int32_t 5 [0; 0; 1] = AssertionFailed /\
   operator_leq int32_t 5 [0; 0; 1] = AssertionFailed /\
   operator_gt int32_t 5 [0; 0; 1] = AssertionFailed /\
   operator_geq int32_t 5 [0; 0; 1] = AssertionFailed).
Proof.
  split; [fits|]. split; [fits|]. split; [wf|].
  split.
  - apply (ordering_operators uint64_t 18446744073709551615 [0; 0; 1]);
      [fits | wf | reflexivity].
  - apply (ordering_operators int32_t 5 [0; 0; 1]); [fits | wf | reflexivity].
Defined.

(** X10.  [is_zero_starting_at_el<k>] returns whether the value is below
    [2^(32 k)], [is_nonzero_starting_at_el<k>] the opposite, for every [k]
    (also past the last limb); [is_zero] and [is_nonzero] return whether
    the value is zero or not. *)
Theorem zero_tests k this :
  well_formed this ->
  is_zero_starting_at_el k this = (val this <? BASE ^ Z.of_nat k) /\
  is_nonzero_starting_at_el k this = negb (val this <? BASE ^ Z.of_nat k) /\
  is_zero this = (val this =? 0) /\
  is_nonzero this = negb (val this =? 0).
Proof.
  intros [_ Hok]. pose proof (val_bounds this Hok) as Hv.
  assert (H0 : (val this <? BASE ^ Z.of_nat 0) = (val this =? 0)).
  { change (BASE ^ Z.of_nat 0) with 1.
    destruct (Z.ltb_spec (val this) 1), (Z.eqb_spec (val this) 0); lia || reflexivity. }
  unfold is_zero, is_nonzero.
  rewrite !is_zero_starting_at_el_any, !is_nonzero_starting_at_el_any,
    !nonzero_above, !negb_involutive, H0 by assumption.
  repeat split; reflexivity.
Qed.

Lemma zero_tests_witness :
  well_formed [0; 0; 5] /\
  is_zero_starting_at_el 2 [0; 0; 5] = (val [0; 0; 5] <? BASE ^ Z.of_nat 2) /\
  is_nonzero_starting_at_el 2 [0; 0; 5] = negb (val [0; 0; 5] <? BASE ^ Z.of_nat 2) /\
  is_zero [0; 0; 5] = (val [0; 0; 5] =? 0) /\
  is_nonzero [0; 0; 5] = negb (val [0; 0; 5] =? 0).
Proof.
  split; [wf|]. apply (zero_tests 2 [0; 0; 5]). wf.
Defined.

(** X11.  [set_zero_starting_at_el<k>] keeps the limbs below [k] and
    clears the others: it leaves [v mod 2^(32 k)] in the same number of
    limbs, after which [is_zero_starting_at_el<k>] holds; [set_zero]
    leaves the value 0. *)
Theorem clear_upper_limbs k this :
  well_formed this ->
  well_formed (set_zero_starting_at_el k this) /\
  SIZE_IN_ELS (set_zero_starting_at_el k this) = SIZE_IN_ELS this /\
  val (set_zero_starting_at_el k this) = val this mod BASE ^ Z.of_nat k /\
  is_zero_starting_at_el k (set_zero_starting_at_el k this) = true /\
  val (set_zero this) = 0.
Proof.
  intros [Hlen Hok]. rewrite set_zero_spec, val_zero_bui, set_zero_starting_at_el_spec.
  assert (Hl : length (firstn k this ++ zero_bui (length this - k)) = length this).
  { rewrite length_app, length_firstn. unfold zero_bui. rewrite repeat_length. lia. }
  assert (Ho : limbs_ok (firstn k this ++ zero_bui (length this - k))).
  { apply limbs_ok_app. split; [apply limbs_ok_firstn, Hok | apply limbs_ok_zero_bui]. }
  assert (Hval : val (firstn k this ++ zero_bui (length this - k))
                 = val this mod BASE ^ Z.of_nat k).
  { rewrite val_app, val_zero_bui, Z.mul_0_r, Z.add_0_r. apply val_split, Hok. }
  split; [split; [rewrite Hl; assumption | assumption]|].
  split; [exact Hl|]. split; [exact Hval|]. split; [|reflexivity].
  rewrite is_zero_starting_at_el_any, nonzero_above, negb_involutive, Hval by assumption.
  apply Z.ltb_lt, Z.mod_pos_bound, Z.pow_pos_nonneg; [apply BASE_pos | lia].
Qed.

Lemma clear_upper_limbs_witness :
  well_formed [7; 8; 9] /\
  val (set_zero_starting_at_el 1 [7; 8; 9]) = val [7; 8; 9] mod BASE ^ Z.of_nat 1 /\
  val (set_zero [7; 8; 9]) = 0.
Proof.
  split; [wf|].
  destruct (clear_upper_limbs 1 [7; 8; 9]) as (_ & _ & H1 & _ & H2); [wf|].
  split; [exact H1 | exact H2].
Defined.

(** X12.  A magnitude constructed from a native value [x] compares equal
    to [x] when [x] is not negative and fits the magnitude; constructed
    from a negative [x] it holds the bit pattern of [x] and compares
    unequal to [x]. *)
Theorem constructed_compares INT_T x uninit :
  representable INT_T x ->
  (0 < SIZE_IN_ELS uninit)%nat ->
  exists v,
    bui_from INT_T x uninit = Returns v /\
    (0 <= x < 2 ^ SIZE_IN_BITS uninit ->
     operator_eq INT_T x v = Returns true /\ operator_neq INT_T x v = Returns false) /\
    (x < 0 ->
     operator_eq INT_T x v = Returns false /\ operator_neq INT_T x v = Returns true).
Proof.
  intros Hx Hlen. destruct (bui_from_val INT_T x uninit Hx Hlen) as (v & E & W & L & V).
  exists v. split; [assumption|].
  pose proof (val_bounds v (proj2 W)) as Hv.
  destruct (equality_operators_val INT_T x v Hx W) as [-> ->]. split.
  - intros Hfit.
    assert (HM : 0 < 2 ^ width INT_T)
      by (apply Z.pow_pos_nonneg; [lia | pose proof (width_pos INT_T); lia]).
    assert (Hhalf : 2 ^ width INT_T = 2 * 2 ^ (width INT_T - 1)).
    { rewrite <- Z.pow_succ_r by (pose proof (width_pos INT_T); lia). f_equal. lia. }
    assert (Hvx : val v = x).
    { rewrite V, (Z.mod_small x (2 ^ width INT_T)), Z.mod_small; [reflexivity | lia |].
      unfold representable in Hx. destruct (is_unsigned_v INT_T); lia. }
    rewrite Hvx, Z.eqb_refl. split; reflexivity.
  - intros Hneg. replace (val v =? x) with false by (symmetry; apply Z.eqb_neq; lia).
    split; reflexivity.
Qed.

Lemma constructed_compares_witness :
  representable int32_t (-1) /\
  (0 < SIZE_IN_ELS [8; 8]%Z)%nat /\
  exists v,
    bui_from int32_t (-1) [8; 8] = Returns v /\
    (0 <= -1 < 2 ^ SIZE_IN_BITS [8; 8] ->
     operator_eq int32_t (-1) v = Returns true /\ operator_neq int32_t (-1) v = Returns false) /\
    (-1 < 0 ->
     operator_eq int32_t (-1) v = Returns false /\ operator_neq int32_t (-1) v = Returns true).
Proof.
  split; [fits|]. split; [cbn; lia|].
  apply (constructed_compares int32_t (-1) [8; 8]); [fits | cbn; lia].
Defined.

(** ** Shifts and bitwise and *)

(** X13.  For every value [v] of the magnitude and every [W] with
    [0 < W < width(limb)], [hishift_bits<W>] leaves [(v * 2^W) mod 2^N] in
    the same number of limbs. *)
Theorem hishift_bits_correct W this :
  0 < W < EL_SIZE_IN_BITS ->
  well_formed this ->
  well_formed (hishift_bits W this) /\
  SIZE_IN_ELS (hishift_bits W this) = SIZE_IN_ELS this /\
  val (hishift_bits W this) = (val this * 2 ^ W) mod 2 ^ SIZE_IN_BITS this.
Proof.
  intros HW Hwf. apply hishift_bits_val; assumption.
Qed.

Lemma hishift_bits_correct_witness :
  0 < 31 < EL_SIZE_IN_BITS /\ well_formed [4294967295; 1; 2147483649] /\
  well_formed (hishift_bits 31 [4294967295; 1; 2147483649]) /\
  SIZE_IN_ELS (hishift_bits 31 [4294967295; 1; 2147483649])
  = SIZE_IN_ELS [4294967295; 1; 2147483649] /\
  val (hishift_bits 31 [4294967295; 1; 2147483649])
  = (val [4294967295; 1; 2147483649] * 2 ^ 31)
      mod 2 ^ SIZE_IN_BITS [4294967295; 1; 2147483649].
Proof.
  split; [rewrite EL_SIZE_IN_BITS_eq; lia|]. split; [wf|].
  apply (hishift_bits_correct 31 [4294967295; 1; 2147483649]);
    [rewrite EL_SIZE_IN_BITS_eq; lia | wf].
Defined.

(** X14.  For [0 < W < width(limb)], [hishift_bits<W>] followed by
    [loshift_bits<W>] clears the top [W] bits and keeps the rest,
    [v mod 2^(N - W)]; [loshift_bits<W>] followed by [hishift_bits<W>]
    clears the low [W] bits, [v - v mod 2^W]. *)
Theorem shift_up_and_down W this :
  0 < W < EL_SIZE_IN_BITS ->
  well_formed this ->
  val (loshift_bits W (hishift_bits W this)) = val this mod 2 ^ (SIZE_IN_BITS this - W) /\
  val (hishift_bits W (loshift_bits W this)) = val this - val this mod 2 ^ W.
Proof.
  intros HW Hwf.
  pose proof (val_bounds this (proj2 Hwf)) as Hv. rewrite <- size_in_bits_pow in Hv.
  assert (HP : 0 < 2 ^ W) by (apply Z.pow_pos_nonneg; lia).
  assert (HN : W < SIZE_IN_BITS this).
  { destruct Hwf as [Hlen _]. unfold SIZE_IN_BITS, SIZE_IN_ELS. nia. }
  assert (HQ : 0 < 2 ^ (SIZE_IN_BITS this - W)) by (apply Z.pow_pos_nonneg; lia).
  assert (Hsplit : 2 ^ SIZE_IN_BITS this = 2 ^ W * 2 ^ (SIZE_IN_BITS this - W)).
  { rewrite <- Z.pow_add_r by lia. f_equal. lia. }
  split.
  - destruct (hishift_bits_val W HW this Hwf) as (W1 & L1 & V1).
    destruct (loshift_bits_val W HW _ W1) as (_ & _ & V2).
    rewrite V2, V1, Hsplit, (Z.mul_comm (val this)), Z.mul_mod_distr_l by lia.
    rewrite Z.mul_comm, Z.div_mul by lia. reflexivity.
  - destruct (loshift_bits_val W HW this Hwf) as (W1 & L1 & V1).
    destruct (hishift_bits_val W HW _ W1) as (_ & _ & V2).
    rewrite V2, V1, (size_in_bits_length _ this L1).
    pose proof (Z.div_mod (val this) (2 ^ W) ltac:(lia)) as Hdm.
    pose proof (Z.mod_pos_bound (val this) (2 ^ W) HP) as Hm.
    rewrite Z.mod_small; [lia|].
    split; [apply Z.mul_nonneg_nonneg; [apply Z.div_pos|]; lia | lia].
Qed.

Lemma shift_up_and_down_witness :
  0 < 5 < EL_SIZE_IN_BITS /\ well_formed [4294967295; 4294967295] /\
  val (loshift_bits 5 (hishift_bits 5 [4294967295; 4294967295]))
  = val [4294967295; 4294967295] mod 2 ^ (SIZE_IN_BITS [4294967295; 4294967295] - 5) /\
  val (hishift_bits 5 (loshift_bits 5 [4294967295; 4294967295]))
  = val [4294967295; 4294967295] - val [4294967295; 4294967295] mod 2 ^ 5.
Proof.
  split; [rewrite EL_SIZE_IN_BITS_eq; lia|]. split; [wf|].
  apply (shift_up_and_down 5 [4294967295; 4294967295]);
    [rewrite EL_SIZE_IN_BITS_eq; lia | wf].
Defined.

(** X15.  [hishift_1el] reads outside the array on every call: its loop
    runs down to [i = 0] and there reads [el[i - 1]], whose index wraps
    to the largest [size_t].  No call returns a shifted magnitude. *)
Theorem hishift_1el_out_of_bounds this :
  (0 < SIZE_IN_ELS this)%nat ->
  Z.of_nat (SIZE_IN_ELS this) < 2 ^ 64 ->
  hishift_1el this = OutOfBounds.
Proof.
  intros Hlen Hsize. unfold hishift_1el.
  rewrite (hishift_1el_loop (SIZE_IN_ELS this) this Hlen Hsize). reflexivity.
Qed.

Lemma hishift_1el_out_of_bounds_witness :
  (0 < SIZE_IN_ELS [1; 2; 3; 4]%Z)%nat /\
  Z.of_nat (SIZE_IN_ELS [1; 2; 3; 4]) < 2 ^ 64 /\
  hishift_1el [1; 2; 3; 4] = OutOfBounds.
Proof.
  split; [cbn; lia|]. split; [cbn; lia|].
  apply (hishift_1el_out_of_bounds [1; 2; 3; 4]); cbn; lia.
Defined.

(** X16.  For every value [v] of the magnitude the three overloads of
    [operator&] return the low limb of the bitwise conjunction of [v] and
    the operand, [(v & b) mod 2^32], a negative [int] operand being read
    in two's complement. *)
Theorem bitwise_and_correct this :
  well_formed this ->
  (forall b, representable el_t b ->
     operator_and_el b this = Z.land (val this) b mod BASE) /\
  (forall b, representable tw_t b ->
     operator_and_tw b this = Z.land (val this) b mod BASE) /\
  (forall b, representable int32_t b ->
     operator_and_int b this = Returns (Z.land (val this) b mod BASE)).
Proof.
  intros Hwf. unfold BASE at 1 2 3. rewrite EL_SIZE_IN_BITS_eq.
  assert (HB : 2 ^ 32 = BASE) by (rewrite BASE_eq; reflexivity).
  split; [|split]; intros b Hb; rewrite land_mod_pow2, HB by lia.
  - unfold operator_and_el. fold (to_el_t this). rewrite to_el_t_val by assumption.
    rewrite (Z.mod_small b) by exact Hb. reflexivity.
  - unfold operator_and_tw. cbv zeta.
    rewrite to_tw_t_val, cast_el_t by assumption.
    rewrite <- HB, land_mod_pow2, HB, mod_base_twice by lia. reflexivity.
  - unfold operator_and_int. change (sizeof int32_t <=? sizeof el_t)%nat with true.
    cbv iota. rewrite to_el_t_val, cast_el_t by assumption. reflexivity.
Qed.

Lemma bitwise_and_correct_witness :
  well_formed [4042322160; 7] /\
  operator_and_int (-256) [4042322160; 7]
  = Returns (Z.land (val [4042322160; 7]) (-256) mod BASE).
Proof.
  split; [wf|].
  destruct (bitwise_and_correct [4042322160; 7]) as (_ & _ & H); [wf|].
  apply (H (-256)). fits.
Defined.

(** X17.  For a nonzero value [x] of an unsigned native type,
    [number_of_leading_0_bits] returns [width - 1 - floor(log2 x)], so
    that it and [bitlen] add up to the width; for [x = 0] it returns the
    width. *)
Theorem leading_zero_bits UINT_T x :
  is_unsigned_v UINT_T = true ->
  representable UINT_T x ->
  number_of_leading_0_bits UINT_T 0 = width UINT_T /\
  (x <> 0 ->
   number_of_leading_0_bits UINT_T x = width UINT_T - 1 - Z.log2 x /\
   number_of_leading_0_bits UINT_T x + bitlen UINT_T x = width UINT_T /\
   0 <= number_of_leading_0_bits UINT_T x < width UINT_T).
Proof.
  intros Hu Hx. apply (representable_unsigned UINT_T x Hu) in Hx.
  split; [reflexivity|]. intros Hnz.
  unfold number_of_leading_0_bits, bitlen.
  replace (x =? 0) with false by (symmetry; apply Z.eqb_neq; assumption).
  rewrite (wrapped_builtin_clz_spec UINT_T x Hu) by lia.
  fold (width UINT_T).
  assert (Hlog : 0 <= Z.log2 x < width UINT_T).
  { split; [apply Z.log2_nonneg|]. apply Z.log2_lt_pow2; lia. }
  lia.
Qed.

Lemma leading_zero_bits_witness :
  is_unsigned_v uint16_t = true /\ representable uint16_t 300 /\
  number_of_leading_0_bits uint16_t 300 = width uint16_t - 1 - Z.log2 300.
Proof.
  split; [reflexivity|]. split; [fits|].
  destruct (leading_zero_bits uint16_t 300) as [_ H]; [reflexivity | fits |].
  apply H. lia.
Defined.

(** ** Decimal strings *)

(** X18.  For every magnitude of at most [CHECKED_ELS] limbs, [str]
    returns the canonical decimal numeral of the value: digits only, the
    value read back from them is [v], and there is no leading zero except
    in the numeral "0" itself.  The result does not depend on what the
    local buffer held before. *)
Theorem str_canonical stack this :
  well_formed this ->
  (SIZE_IN_ELS this <= CHECKED_ELS)%nat ->
  (exists ds,
      str stack this = Returns (String.string_of_list_ascii (rev ds)) /\
      canonical ds /\ lsd_value ds = val this /\
      horner 0 (rev ds) = val this) /\
  (forall stack', str stack' this = str stack this).
Proof.
  intros Hwf Hn. unfold str.
  destruct (uint_to_string_canonical stack this Hwf Hn) as (ds & E & Hc & Hv & _).
  split.
  - exists ds. rewrite horner_rev. auto.
  - intros stack'.
    destruct (uint_to_string_canonical stack' this Hwf Hn) as (ds' & E' & Hc' & Hv' & _).
    rewrite E, E'. do 3 f_equal. apply canonical_unique; [assumption | assumption | congruence].
Qed.

Lemma str_canonical_witness :
  well_formed [0; 1] /\
  (SIZE_IN_ELS [0; 1]%Z <= CHECKED_ELS)%nat /\
  (exists ds,
      str (fun _ => "7"%char) [0; 1] = Returns (String.string_of_list_ascii (rev ds)) /\
      canonical ds /\ lsd_value ds = val [0; 1] /\
      horner 0 (rev ds) = val [0; 1]) /\
  (forall stack', str stack' [0; 1] = str (fun _ => "7"%char) [0; 1]).
Proof.
  split; [wf|]. split; [unfold SIZE_IN_ELS, CHECKED_ELS; cbn [length]; lia|].
  apply (str_canonical (fun _ => "7"%char) [0; 1]);
    [wf | unfold SIZE_IN_ELS, CHECKED_ELS; cbn [length]; lia].
Defined.

(** X19.  Two magnitudes of at most [CHECKED_ELS] limbs, of the same size
    or not, have the same [str] exactly when they hold the same value:
    comparing renderings, as the test driver does, compares values. *)
Theorem str_decides_equality stack stack' a b :
  well_formed a -> (SIZE_IN_ELS a <= CHECKED_ELS)%nat ->
  well_formed b -> (SIZE_IN_ELS b <= CHECKED_ELS)%nat ->
  (str stack a = str stack' b <-> val a = val b).
Proof.
  intros Ha Hna Hb Hnb. unfold str.
  destruct (uint_to_string_canonical stack a Ha Hna) as (da & Ea & Hca & Hva & _).
  destruct (uint_to_string_canonical stack' b Hb Hnb) as (db & Eb & Hcb & Hvb & _).
  rewrite Ea, Eb. split.
  - intros H. injection H as H. apply string_of_list_inj in H.
    apply (f_equal (@rev ascii)) in H. rewrite !rev_involutive in H. congruence.
  - intros H. do 3 f_equal. apply canonical_unique; [assumption | assumption | congruence].
Qed.

Lemma str_decides_equality_witness :
  well_formed [5; 0] /\ (SIZE_IN_ELS [5; 0]%Z <= CHECKED_ELS)%nat /\
  well_formed [5; 0; 0; 0] /\ (SIZE_IN_ELS [5; 0; 0; 0]%Z <= CHECKED_ELS)%nat /\
  (str (fun _ => "a"%char) [5; 0] = str (fun _ => "b"%char) [5; 0; 0; 0]
   <-> val [5; 0] = val [5; 0; 0; 0]).
Proof.
  split; [wf|]. split; [unfold SIZE_IN_ELS, CHECKED_ELS; cbn [length]; lia|].
  split; [wf|]. split; [unfold SIZE_IN_ELS, CHECKED_ELS; cbn [length]; lia|].
  apply (str_decides_equality (fun _ => "a"%char) (fun _ => "b"%char) [5; 0] [5; 0; 0; 0]);
    [wf | unfold SIZE_IN_ELS, CHECKED_ELS; cbn [length]; lia
     | wf | unfold SIZE_IN_ELS, CHECKED_ELS; cbn [length]; lia].
Defined.

(** X20.  [set_from_str] on a string of decimal digits of any length,
    leading zeros or none, returns and leaves the number the digits
    denote modulo [2^N] (a number that does not fit wraps around),
    whatever the magnitude held before; the empty string leaves 0. *)
Theorem set_from_str_digits s this :
  Forall is_digit s ->
  well_formed this ->
  exists r,
    set_from_str (String.string_of_list_ascii s) this = Returns r /\
    well_formed r /\ SIZE_IN_ELS r = SIZE_IN_ELS this /\
    val r = horner 0 s mod 2 ^ SIZE_IN_BITS this /\
    (s = [] -> val r = 0).
Proof.
  intros Hs [Hlen Hok]. unfold set_from_str. cbv zeta.
  pose proof (digits_not_nul s Hs) as Hs'.
  rewrite strlen_no_nul by (eapply Forall_impl; [|exact Hs']; cbn; tauto).
  rewrite set_zero_spec.
  assert (Hz : well_formed (zero_bui (length this))).
  { split; [unfold zero_bui; rewrite repeat_length; assumption | apply limbs_ok_zero_bui]. }
  destruct (set_from_str_loop_spec s _ Hs' Hz) as (r & E & W & L & V).
  unfold zero_bui in L. rewrite repeat_length in L.
  rewrite val_zero_bui in V.
  rewrite (size_in_bits_length _ this) in V by (unfold zero_bui; apply repeat_length).
  exists r. repeat (split; [assumption|]).
  intros ->. rewrite V. reflexivity.
Qed.

Lemma set_from_str_digits_witness :
  Forall is_digit (String.list_ascii_of_string "004294967299"%string) /\
  well_formed [9] /\
  exists r,
    set_from_str
      (String.string_of_list_ascii (String.list_ascii_of_string "004294967299"%string)) [9]
    = Returns r /\
    well_formed r /\ SIZE_IN_ELS r = SIZE_IN_ELS [9] /\
    val r = horner 0 (String.list_ascii_of_string "004294967299"%string)
              mod 2 ^ SIZE_IN_BITS [9] /\
    (String.list_ascii_of_string "004294967299"%string = [] -> val r = 0).
Proof.
  assert (H : Forall is_digit (String.list_ascii_of_string "004294967299"%string))
    by (cbn [String.list_ascii_of_string];
        repeat (apply Forall_cons; [unfold is_digit; cbn; lia|]); apply Forall_nil).
  split; [exact H|]. split; [wf|].
  apply (set_from_str_digits (String.list_ascii_of_string "004294967299"%string) [9]);
    [exact H | wf].
Defined.

(** X21.  [set_from_str] on a string whose first character that is not a
    decimal digit comes before the terminator stops at its assertion on
    that character (a sign, a space or a letter, for example): no such
    string is read. *)
Theorem set_from_str_rejects_non_digit pre c rest this :
  Forall is_digit pre ->
  ~ is_digit c ->
  is_nul c = false ->
  well_formed this ->
  set_from_str (String.string_of_list_ascii (pre ++ c :: rest)) this = AssertionFailed.
Proof.
  intros Hpre Hc Hnul [Hlen Hok]. unfold set_from_str. cbv zeta.
  rewrite set_zero_spec.
  apply set_from_str_loop_rejects; [assumption | assumption | |].
  - split; [unfold zero_bui; rewrite repeat_length; assumption | apply limbs_ok_zero_bui].
  - apply strlen_prefix; [|assumption].
    eapply Forall_impl; [|exact Hpre]. apply is_digit_not_nul.
Qed.

Lemma set_from_str_rejects_non_digit_witness :
  Forall is_digit ["1"%char; "2"%char] /\
  ~ is_digit "-"%char /\
  is_nul "-"%char = false /\
  well_formed [0; 0] /\
  set_from_str (String.string_of_list_ascii (["1"%char; "2"%char] ++ "-"%char :: ["3"%char]))
    [0; 0]
  = AssertionFailed.
Proof.
  assert (H : Forall is_digit ["1"%char; "2"%char])
    by (repeat (apply Forall_cons; [unfold is_digit; cbn; lia|]); apply Forall_nil).
  assert (H' : ~ is_digit "-"%char) by (unfold is_digit; cbn; lia).
  split; [exact H|]. split; [exact H'|]. split; [reflexivity|]. split; [wf|].
  apply (set_from_str_rejects_non_digit ["1"%char; "2"%char] "-"%char ["3"%char] [0; 0]);
    [exact H | exact H' | reflexivity | wf].
Defined.

(** X22.  A value passes between magnitudes of different sizes through
    its decimal string: for every magnitude [v] of at most [CHECKED_ELS]
    limbs and every magnitude [m], [set_from_str] applied to [m] with the
    string of [v] returns and leaves [v mod 2^M], [M] the size of [m]. *)
Theorem string_transfer stack v this :
  well_formed v ->
  (SIZE_IN_ELS v <= CHECKED_ELS)%nat ->
  well_formed this ->
  exists s r,
    str stack v = Returns s /\
    set_from_str s this = Returns r /\
    well_formed r /\ SIZE_IN_ELS r = SIZE_IN_ELS this /\
    val r = val v mod 2 ^ SIZE_IN_BITS this.
Proof.
  intros Hv Hn Hwf. unfold str.
  destruct (uint_to_string_canonical stack v Hv Hn) as (ds & E & [Hd _] & Hval & _).
  assert (Hrev : Forall (fun c => is_digit c /\ is_nul c = false) (rev ds))
    by (apply Forall_rev, digits_not_nul, Hd).
  destruct Hwf as [Hlen Hok].
  exists (String.string_of_list_ascii (rev ds)).
  unfold set_from_str. cbv zeta.
  rewrite strlen_no_nul by (eapply Forall_impl; [|exact Hrev]; cbn; tauto).
  rewrite set_zero_spec.
  assert (Hz : well_formed (zero_bui (length this))).
  { split; [unfold zero_bui; rewrite repeat_length; assumption | apply limbs_ok_zero_bui]. }
  destruct (set_from_str_loop_spec (rev ds) _ Hrev Hz) as (r & E' & W & L & V).
  unfold zero_bui in L. rewrite repeat_length in L.
  rewrite val_zero_bui, horner_rev, Hval in V.
  rewrite (size_in_bits_length _ this) in V by (unfold zero_bui; apply repeat_length).
  exists r. auto.
Qed.

Lemma string_transfer_witness :
  well_formed [1; 2; 3] /\
  (SIZE_IN_ELS [1; 2; 3]%Z <= CHECKED_ELS)%nat /\
  well_formed [0] /\
  exists s r,
    str (fun _ => "."%char) [1; 2; 3] = Returns s /\
    set_from_str s [0] = Returns r /\
    well_formed r /\ SIZE_IN_ELS r = SIZE_IN_ELS [0] /\
    val r = val [1; 2; 3] mod 2 ^ SIZE_IN_BITS [0].
Proof.
  split; [wf|]. split; [unfold SIZE_IN_ELS, CHECKED_ELS; cbn [length]; lia|]. split; [wf|].
  apply (string_transfer (fun _ => "."%char) [1; 2; 3] [0]);
    [wf | unfold SIZE_IN_ELS, CHECKED_ELS; cbn [length]; lia | wf].
Defined.

(** ** The test driver *)

(** X23.  The reference rendering [to_string(uint128_t)] of the test
    driver stays within its buffer and returns, for every 128-bit value,
    the string that [str] returns for the 128-bit magnitude holding that
    value: the driver's comparison of the two renderings compares the two
    values. *)
Theorem reference_rendering_agrees stack stack' this :
  well_formed this ->
  SIZE_IN_ELS this = 4%nat ->
  exists s,
    to_string_uint128 stack (val this) = Returns s /\
    str stack' this = Returns s.
Proof.
  intros Hwf Hlen. apply renderings_agree; assumption.
Qed.

Lemma reference_rendering_agrees_witness :
  well_formed [4294967295; 4294967295; 4294967295; 4294967295] /\
  SIZE_IN_ELS [4294967295; 4294967295; 4294967295; 4294967295] = 4%nat /\
  exists s,
    to_string_uint128 (fun _ => "x"%char)
      (val [4294967295; 4294967295; 4294967295; 4294967295]) = Returns s /\
    str (fun _ => "y"%char) [4294967295; 4294967295; 4294967295; 4294967295] = Returns s.
Proof.
  split; [wf|]. split; [reflexivity|].
  apply (reference_rendering_agrees (fun _ => "x"%char) (fun _ => "y"%char)
           [4294967295; 4294967295; 4294967295; 4294967295]); [wf | reflexivity].
Defined.

(** X24.  The test driver cannot fail: whatever numbers [std::rand()]
    returns (none is negative), whatever the buffers of the renderings
    and the limbs of [actual] hold at first, every iteration of [main]
    leaves in [actual] the value of [expected], passes both of its
    checks, and [main] returns 0 after [TEST_COUNT] iterations. *)
Theorem test_driver_passes rand junk mem :
  (forall k, 0 <= rand k) ->
  main rand junk mem = Returns (Exit 0) /\
  (forall i expected actual,
      well_formed actual -> SIZE_IN_ELS actual = 4%nat -> val actual = expected ->
      exists expected' actual',
        test_iteration (junk (2 * i)%nat) (junk (2 * i + 1)%nat)
          (rand (2 * i)%nat) (rand (2 * i + 1)%nat) expected actual
        = Returns (Continue expected' actual') /\
        well_formed actual' /\ SIZE_IN_ELS actual' = 4%nat /\ val actual' = expected').
Proof.
  intros Hrand. split.
  - unfold main. cbv zeta.
    destruct (bui_from_val int32_t 0 (map mem (seq 0 4))) as (r & E & W & L & V).
    { unfold representable. cbn. lia. }
    { cbn. lia. }
    rewrite E. cbn [bind].
    apply test_loop_completes; [assumption | assumption | |].
    + rewrite L. reflexivity.
    + rewrite V. reflexivity.
  - intros i expected actual Hwf Hlen Hval.
    apply test_iteration_continues; [apply Hrand | assumption | assumption | assumption].
Qed.

Lemma test_driver_passes_witness :
  (forall k : nat, 0 <= Z.of_nat k * 7919) /\
  main (fun k => Z.of_nat k * 7919) (fun _ _ => "?"%char) (fun _ => 4294967295)
  = Returns (Exit 0).
Proof.
  split; [intros k; lia|].
  apply (test_driver_passes (fun k => Z.of_nat k * 7919) (fun _ _ => "?"%char)
           (fun _ => 4294967295)).
  intros k. lia.
Defined.

(** ** [uint_to_string] on native values *)

(** X25.  For every value [x] of a native unsigned type (8 to 64 bits),
    [uint_to_string] stays within its buffer of [MAX_DIGITS + 1]
    characters and returns the canonical decimal numeral of [x]: digits
    only, denoting [x], without a leading zero except for "0"; it is the
    string that [str] returns for a magnitude holding [x]. *)
Theorem uint_to_string_native_correct UINT_T stack x :
  is_unsigned_v UINT_T = true ->
  representable UINT_T x ->
  (exists ds,
      uint_to_string_native UINT_T stack x
      = Returns (String.string_of_list_ascii (rev ds)) /\
      canonical ds /\ lsd_value ds = x /\
      Z.of_nat (length ds) <= MAX_DIGITS (Z.of_nat (sizeof UINT_T) * 8)) /\
  (forall stack' this,
      well_formed this -> (SIZE_IN_ELS this <= CHECKED_ELS)%nat -> val this = x ->
      str stack' this = uint_to_string_native UINT_T stack x).
Proof.
  intros Hu Hx.
  destruct (uint_to_string_native_canonical UINT_T stack x Hu Hx) as (ds & E & Hc & Hv & Hl).
  split; [exists ds; auto|].
  intros stack' this Hwf Hn Hval. unfold str.
  destruct (uint_to_string_canonical stack' this Hwf Hn) as (ds' & E' & Hc' & Hv' & _).
  rewrite E, E'. do 3 f_equal.
  apply canonical_unique; [assumption | assumption | congruence].
Qed.

Lemma uint_to_string_native_correct_witness :
  is_unsigned_v uint64_t = true /\
  representable uint64_t 18446744073709551615 /\
  exists ds,
    uint_to_string_native uint64_t (fun _ => "#"%char) 18446744073709551615
    = Returns (String.string_of_list_ascii (rev ds)) /\
    canonical ds /\ lsd_value ds = 18446744073709551615 /\
    Z.of_nat (length ds) <= MAX_DIGITS (Z.of_nat (sizeof uint64_t) * 8).
Proof.
  split; [reflexivity|]. split; [fits|].
  apply (uint_to_string_native_correct uint64_t (fun _ => "#"%char) 18446744073709551615);
    [reflexivity | fits].
Defined.

(* ================================================================= *)
(** * Sanity checks on concrete inputs *)

(** The differential scenario of the specification on a 128-bit
    magnitude: from 0, [+= 100], [*= 7], [-= 50], [/= 3] render as "0",
    "100", "700", "650", "216". *)
Example differential_scenario :
  let junk := fun _ : nat => "?"%char in
  let a0 := zero_bui 4 in
  exists a1 a2 a3,
    str junk a0 = Returns "0"%string /\
    operator_pluseq int32_t 100 a0 = Returns a1 /\ str junk a1 = Returns "100"%string /\
    operator_muleq int32_t 7 a1 = Returns a2 /\ str junk a2 = Returns "700"%string /\
    operator_minuseq int32_t 50 a2 = Returns a3 /\ str junk a3 = Returns "650"%string /\
    str junk (fst (operator_diveq 3 a3)) = Returns "216"%string /\
    snd (operator_diveq 3 a3) = 2.
Proof.
  cbv zeta. exists [100; 0; 0; 0], [700; 0; 0; 0], [650; 0; 0; 0].
  repeat split; vm_compute; reflexivity.
Qed.

(** Wrap-around at [2^128]: the largest value plus one is zero, and zero
    minus one is the largest value. *)
Example wraparound_128 :
  operator_pluseq uint8_t 1 [4294967295; 4294967295; 4294967295; 4294967295]
  = Returns [0; 0; 0; 0] /\
  operator_minuseq uint8_t 1 [0; 0; 0; 0]
  = Returns [4294967295; 4294967295; 4294967295; 4294967295].
Proof. split; vm_compute; reflexivity. Qed.

(** The buffer size of [uint_to_string] for the 128-bit magnitude of the
    test driver. *)
Example max_digits_128 : MAX_DIGITS 128 = 39.
Proof. vm_compute. reflexivity. Qed.

(** A string with a character that is not a digit fails the assertion of
    [set_from_str]. *)
Example set_from_str_rejects : set_from_str "12a"%string [0; 0] = AssertionFailed.
Proof. vm_compute. reflexivity. Qed.

(** The double-limb multiplication on an input where the overwritten limb
    equals the old one (the low half of the operand is 1): here the
    product is right. *)
Example muleq_double_limb_low_half_one :
  operator_muleq_uint uint64_t (1 + 2 * 2 ^ 32) [3; 4] = Returns [3; 10].
Proof. vm_compute. reflexivity. Qed.
